(** * The Reflexion feature-discovery loop of [2.Predictions]

    A shallow embedding of [3.Reflexion.ts] (training, importance ranking,
    error analysis, one Reflexion step, the ten-iteration run), of
    [2.Rank.ts] (the scorer batching loop), of [addFeature] from
    [1.Describe.ts] and of [reportLogErrors] from [utils/utils.ts]; then of
    the data preparation ([getRecentVideos], the training rows of
    [utils/topChannels.ts]), of the contrast sample ([getVideos]) and of
    the reply handling of the model clients ([validateAgainstSchema] with
    the schemas of the prompts, [extractJson]).

    Conventions of the embedding.
    - A JavaScript [number] is an exact rational ([Q]); [===] on numbers is
      [Qeq_bool]. Rounding and NaN are outside the model.
    - The regression library, the language-model clients, [Math.random],
      [Math.exp], [Math.log], [String.prototype.normalize] and the file
      system are collaborators: fields of [Env].
    - Every matrix the code hands to the regression has one output column,
      so the n-by-1 matrices [Y], [mlr.weights] and [mlr.predict(X)] are
      lists of numbers (the [w[0]] of each row).
    - [undefined] in an [iFeature[]] is [None] in a [list (option iFeature)].
    - An effectful function is a function of the event history ([World]);
      [await] is sequencing. A [while] loop takes fuel and answers
      [Diverge] when the fuel does not suffice. *)

From Stdlib Require Import QArith Qabs Lqa.
From stdpp Require Import gmap strings list fin_maps sorting pretty.

Local Open Scope string_scope.
Local Open Scope list_scope.

(** ** JavaScript array and number helpers *)

Module JS.

Definition ltb (a b : Q) : bool := negb (Qle_bool b a).

(** [x || 0] for a possibly missing number. *)
Definition or_zero (x : option Q) : Q := default 0%Q x.

(** [Array.prototype.slice(start, stop)]. *)
Definition slice {A} (start stop : Z) (l : list A) : list A :=
  let len := Z.of_nat (length l) in
  let k := if (start <? 0)%Z then Z.max (len + start) 0 else Z.min start len in
  let e := if (stop <? 0)%Z then Z.max (len + stop) 0 else Z.min stop len in
  take (Z.to_nat (e - k)) (drop (Z.to_nat k) l).

(** [const [_, ...rest] = l]. *)
Definition rest {A} (l : list A) : list A := tail l.

(** [Array.prototype.sort(cmp)] for a consistent comparator: the stable
    sort. [x] goes before the first [y] with [cmp x y <= 0]. *)
Fixpoint insert_sorted {A} (cmp : A -> A -> Q) (x : A) (l : list A) : list A :=
  match l with
  | [] => [x]
  | y :: l' =>
      if Qle_bool (cmp x y) 0 then x :: y :: l' else y :: insert_sorted cmp x l'
  end.

Definition sort {A} (cmp : A -> A -> Q) (l : list A) : list A :=
  foldr (insert_sorted cmp) [] l.

(** [Array.prototype.indexOf] on numbers; [None] is [-1]. *)
Fixpoint indexOf (d : Q) (l : list Q) : option nat :=
  match l with
  | [] => None
  | x :: l' => if Qeq_bool x d then Some 0%nat else S <$> indexOf d l'
  end.

(** [l.filter((_, i) => i !== k)]. *)
Definition remove_index {A} (k : nat) (l : list A) : list A :=
  take k l ++ drop (S k) l.

(** [Math.floor(n * 0.8)] for an array length [n]. *)
Definition floor_080 (n : nat) : nat := (n * 4 / 5)%nat.

End JS.

(** ** Data model ([utils/types.ts]) *)

Record iVideo := {
  id : string;
  title : string;
  views : Q;
  likes : Q;
  comments : Q;
  date : string;
  duration : Q
}.

Record iFeature := {
  name : string;
  summary : string;
  description : string
}.

Record iTrainingVideo := {
  video :> iVideo;
  recentViews : list Q
}.

Record iFeaturedVideo := {
  training_video :> iTrainingVideo;
  features : gmap string Q
}.

Record iPrediction := {
  p_title : string;
  actual : Q;
  predicted : Q;
  diff : Q;
  delta : Q
}.

(** [iRanking] of [2.Rank.ts]. *)
Record iRanking := {
  r_title : string;
  r_features : gmap string Q
}.

(** The fitted regression: [weights] is column 0 of [mlr.weights]. *)
Record MLR := { weights : list Q }.

(** [iResults] of [utils/utils.ts]; [r_mlr] keeps the weights that the
    code prints with [toFixed(4)]. *)
Record iResults := {
  totalLogError : Q;
  totalViewsError : Q;
  averageLogError : Q;
  averageViewsError : Q;
  typicalFactor : Q;
  averagePredictedViews : Q;
  averageActualViews : Q;
  videoCount : nat;
  r_mlr : option (list Q)
}.

Definition OLLAMA_MODELS := string.

(** Anything with a [title], as the structural type [iVideo] is used. *)
Class Titled (A : Type) := title_of : A -> string.
#[export] Instance iVideo_titled : Titled iVideo := title.
#[export] Instance iTrainingVideo_titled : Titled iTrainingVideo := fun v => title v.
#[export] Instance iFeaturedVideo_titled : Titled iFeaturedVideo := fun v => title v.

(** [{...v, features: fs}] *)
Definition with_features (v : iFeaturedVideo) (fs : gmap string Q) : iFeaturedVideo :=
  {| training_video := training_video v; features := fs |}.

(** ** Errors, outcomes and effects *)

Inductive Error :=
| FeatureLengthMismatch          (* Error("Feature length mismatch") *)
| LengthMismatch                 (* reportLogErrors: pred/actual lengths differ *)
| MaxRankingRetries              (* Error('Max ranking retries exceeded.') *)
| TypeError                      (* a property read on undefined *)
| External (msg : string).       (* thrown by a collaborator *)

Inductive outcome (A : Type) :=
| Ok (a : A)
| Throw (e : Error)
| Diverge.
Arguments Ok {A} a.
Arguments Throw {A} e.
Arguments Diverge {A}.

Definition returned {A} (o : outcome A) : bool :=
  match o with
  | Ok _ => true
  | _ => false
  end.

Definition thrown {A} (o : outcome A) : option Error :=
  match o with
  | Throw e => Some e
  | _ => None
  end.

(** The files the code writes. *)
Inductive File :=
| FeaturesStepFile (dir : string) (index : nat)   (* `${dir}/features-${index}.json` *)
| VideosStepFile (dir : string) (index : nat)     (* `${dir}/videos-${index}.json` *)
| ResultsStepFile (dir : string) (index : nat)    (* `${dir}/results-${index}.json` *)
| FeaturesFile (dir : string)                     (* `${dir}/features.json` *)
| ReflexionVideosFile (dir : string)              (* `${dir}/reflexionVideos.json` *)
| EvaluationFile                                  (* ./utils/results/evaluation-<time>.json *)
| RankingsFile                                    (* ./llm/data/rankings-<time>.json *)
| FeaturePromptFile                               (* ./llm/data/feature-prompt-<time>.json *)
| FeatureFile                                     (* ./llm/data/feature-<time>.json *)
| ReflexionDir (dir : string).                    (* mkdirSync(`${dir}/reflexion`) *)

(** What the outside world has seen so far. The model is asked for
    rankings with a batch of titles and the features, and for a new feature
    with the prompt's three lists. *)
Inductive Event :=
| RandomSort
| Bootstrap
| AskRankings (model : option OLLAMA_MODELS) (batch : list string) (fs : list iFeature)
| AskFeature (fs : list iFeature) (predictions : list iPrediction) (failed : list iFeature)
| WriteFile (f : File)
| ConsoleError (index : nat) (e : Error).

Definition World := list Event.

Definition M (A : Type) : Type := World -> outcome A * World.

Definition ret {A} (a : A) : M A := fun w => (Ok a, w).
Definition throw {A} (e : Error) : M A := fun w => (Throw e, w).
Definition bind {A B} (m : M A) (k : A -> M B) : M B :=
  fun w =>
    match m w with
    | (Ok a, w') => k a w'
    | (Throw e, w') => (Throw e, w')
    | (Diverge, w') => (Diverge, w')
    end.
Definition emit (ev : Event) : M unit := fun w => (Ok tt, w ++ [ev]).
Definition lift {A} (o : outcome A) : M A := fun w => (o, w).

#[export] Instance outcome_ret : MRet outcome := @Ok.
#[export] Instance outcome_bind : MBind outcome := fun A B k o =>
  match o with
  | Ok a => k a
  | Throw e => Throw e
  | Diverge => Diverge
  end.

#[export] Instance outcome_fmap : FMap outcome := fun A B f o =>
  match o with
  | Ok a => Ok (f a)
  | Throw e => Throw e
  | Diverge => Diverge
  end.

#[export] Instance M_ret : MRet M := @ret.
#[export] Instance M_bind : MBind M := fun A B k m => bind m k.

(** ** Collaborators *)

Record Env := {
  Math_exp : Q -> Q;
  Math_log : Q -> Q;
  normalize_NFKC : string -> string;
  (** [new MLR(X, Y)] and [mlr.predict] on one row *)
  MLR_new : list (list Q) -> list Q -> outcome MLR;
  MLR_predict : MLR -> list Q -> Q;
  (** [sort(() => Math.random() - 0.5)] *)
  random_sort : World -> list iFeaturedVideo -> list iFeaturedVideo;
  (** [featureVideos]: the bootstrap of the features and of their scores,
      which only hands [runReflexion] its first features and videos *)
  featureVideos : World -> list iTrainingVideo
                  -> outcome (list iFeaturedVideo * list iFeature);
  (** the language-model clients, after schema validation *)
  Client_rankings : World -> option OLLAMA_MODELS -> list string -> list iFeature
                    -> outcome (list iRanking);
  Client_feature : World -> list iFeature -> list iPrediction -> list iFeature
                   -> outcome iFeature;
  (** [writeFileSync], [writeFile], [mkdirSync] *)
  fs_write : World -> File -> outcome unit
}.

(** ** The program *)

Section Program.

Context (env : Env).

(** Effects through the collaborators. *)
Definition writeFileSync (f : File) : M unit :=
  fun w => (fs_write env w f, w ++ [WriteFile f]).

(** A [writeFile] whose promise is not awaited: its failure is not seen. *)
Definition writeFile_unawaited (f : File) : M unit :=
  emit (WriteFile f).

Definition shuffle (videos : list iFeaturedVideo) : M (list iFeaturedVideo) :=
  fun w => (Ok (random_sort env w videos), w ++ [RandomSort]).

Definition askRankings (model : option OLLAMA_MODELS) (batch : list string)
    (fs : list iFeature) : M (list iRanking) :=
  fun w => (Client_rankings env w model batch fs, w ++ [AskRankings model batch fs]).

Definition askFeature (fs : list iFeature) (predictions : list iPrediction)
    (failed : list iFeature) : M iFeature :=
  fun w => (Client_feature env w fs predictions failed,
            w ++ [AskFeature fs predictions failed]).

(** [a[i]] followed by a property read: a [TypeError] out of range. *)
Definition at_index {A} (l : list A) (i : nat) : outcome A :=
  match l !! i with
  | Some x => Ok x
  | None => Throw TypeError
  end.

(** Step 2: train the linear regression. *)
Definition trainFeatureModel (fs : list iFeature) (videos : list iFeaturedVideo)
  : outcome (MLR * list (list Q) * list Q) :=
  let FEATURE_KEYS := map name fs in
  let X := map (fun v : iFeaturedVideo =>
                  recentViews v
                  ++ map (fun key => JS.or_zero (features v !! key)) FEATURE_KEYS)
               videos in
  let Y := map (fun v : iFeaturedVideo => Math_log env (views v + 1)%Q) videos in
  mlr ← MLR_new env X Y;
  mret (mlr, X, Y).

(** Step 3: identify the least important feature. *)
Record iFeatureValue := { fv_name : string; importance : Q }.

Definition featureCoefficients (mlr : MLR) : list Q :=
  JS.rest (JS.slice 4 (Z.of_nat (length (weights mlr)) - 1) (weights mlr)).

Definition featuresValue (fs : list iFeature) (mlr : MLR) : list iFeatureValue :=
  imap (fun i key => {| fv_name := key;
                        importance := Qabs (nth i (featureCoefficients mlr) 0%Q) |})
       (map name fs).

(** [arr.reduce((minIdx, curr, idx, arr) =>
       curr.importance < arr[minIdx].importance ? idx : minIdx, 0)] *)
Definition leastFeatureIdx (arr : list iFeatureValue) : nat :=
  fold_left (fun minIdx '(idx, curr) =>
               match arr !! minIdx with
               | Some m => if JS.ltb (importance curr) (importance m) then idx else minIdx
               | None => minIdx   (* [minIdx] is an earlier index of [arr] *)
               end)
            (imap pair arr) 0%nat.

Definition updateFeatures (fs : list iFeature) (mlr : MLR)
  : outcome (list iFeature * iFeature) :=
  let FEATURE_KEYS := map name fs in
  if negb (length (featureCoefficients mlr) =? length FEATURE_KEYS)%nat
  then Throw FeatureLengthMismatch
  else
    let least := leastFeatureIdx (featuresValue fs mlr) in
    let bestFeatures := JS.remove_index least fs in
    worstFeature ← at_index fs least;
    mret (bestFeatures, worstFeature).

(** The worst predictions of the model on its training rows. The entry
    built for one of the [worstIndices]: [None] is the [-1] of [indexOf]. *)
Definition worstPrediction {V} `{Titled V} (videos : list V) (Y predictions : list Q)
    (idx : option nat) : outcome iPrediction :=
  i ← from_option Ok (Throw TypeError) idx;
  v ← at_index videos i;
  y ← at_index Y i;
  p ← at_index predictions i;
  mret {| p_title := title_of v;
          actual := (Math_exp env y - 1)%Q;
          predicted := (Math_exp env p - 1)%Q;
          diff := Qabs (Math_exp env p - Math_exp env y);
          delta := (p - y)%Q |}.

(** [mlr.predict(X)] on a matrix: one prediction per row; the library
    tells a matrix from one row by its first entry, so it throws a
    [TypeError] when [X] has no row. *)
Definition predict_rows (mlr : MLR) (X : list (list Q)) : outcome (list Q) :=
  match X with
  | [] => Throw TypeError
  | _ :: _ => Ok (map (MLR_predict env mlr) X)
  end.

Definition getWorstPredictions {V} `{Titled V} (videos : list V) (mlr : MLR)
    (X : list (list Q)) (Y : list Q) : outcome (list iPrediction) :=
  predictions ← predict_rows mlr X;
  diffs ← mapM (fun '(i, pred) => y ← at_index Y i; mret (Qabs (pred - y)))
               (imap pair predictions);
  let sortedDiffs := JS.sort (fun a b => (b - a)%Q) diffs in
  let worstDiffs := JS.slice 0 20 sortedDiffs in
  let worstIndices := map (fun d => JS.indexOf d diffs) worstDiffs in
  mapM (worstPrediction videos Y predictions) worstIndices.

(** [reportLogErrors] of [utils/utils.ts]: the sums of the [for] loop,
    then the averages, then the evaluation file. *)
Record iSums := {
  sumAbsLogError : Q;
  sumAbsViewsError : Q;
  sumPredViews : Q;
  sumActualViews : Q
}.

Definition accumulate (acc : iSums) (pa : Q * Q) : iSums :=
  let '(p, a) := pa in
  let predViews := Math_exp env p in
  let actualViews := Math_exp env a in
  let logError := Qabs (p - a) in
  let viewsError := Qabs (predViews - actualViews) in
  {| sumAbsLogError := (sumAbsLogError acc + logError)%Q;
     sumAbsViewsError := (sumAbsViewsError acc + viewsError)%Q;
     sumPredViews := (sumPredViews acc + predViews)%Q;
     sumActualViews := (sumActualViews acc + actualViews)%Q |}.

Definition logErrorResults (predLog actualLog : list Q) (mlr : option MLR) : iResults :=
  let n := inject_Z (Z.of_nat (length predLog)) in
  let sums := fold_left accumulate (zip predLog actualLog)
                {| sumAbsLogError := 0; sumAbsViewsError := 0;
                   sumPredViews := 0; sumActualViews := 0 |} in
  let avgLogError := (sumAbsLogError sums / n)%Q in
  {| totalLogError := sumAbsLogError sums;
     totalViewsError := sumAbsViewsError sums;
     averageLogError := avgLogError;
     averageViewsError := (sumAbsViewsError sums / n)%Q;
     typicalFactor := Math_exp env avgLogError;
     averagePredictedViews := (sumPredViews sums / n)%Q;
     averageActualViews := (sumActualViews sums / n)%Q;
     videoCount := length predLog;
     r_mlr := weights <$> mlr |}.

Definition reportLogErrors (predLog actualLog : list Q) (mlr : option MLR) : M iResults :=
  if negb (length predLog =? length actualLog)%nat then throw LengthMismatch
  else
    let results := logErrorResults predLog actualLog mlr in
    writeFileSync EvaluationFile;;
    mret results.

(** [rankVideos] of [2.Rank.ts]: the [while] loop, one iteration per unit
    of fuel, then the rankings file. *)
Definition MAX_TRIES : nat := 3.

Definition batchSizeOf (fs : list iFeature) (ollamaModel : option OLLAMA_MODELS) : nat :=
  match ollamaModel with
  | Some _ => 10%nat
  | None => if (length fs =? 1)%nat then 40%nat else 20%nat
  end.

Fixpoint rankLoop {V} `{Titled V} (fuel : nat) (videos : list V) (fs : list iFeature)
    (ollamaModel : option OLLAMA_MODELS) (rankings : list iRanking) (failures : nat)
  : M (list iRanking) :=
  match fuel with
  | O => lift Diverge
  | S fuel' =>
      if negb (length rankings <? length videos)%nat then mret rankings
      else
        let batchSize := batchSizeOf fs ollamaModel in
        let unrankedVideos :=
          List.filter (fun v => negb (existsb (fun r => r_title r =? title_of v) rankings))
                      videos in
        if (length unrankedVideos =? 0)%nat then mret rankings
        else
          failures' ←
            (if (length unrankedVideos <? batchSize)%nat
             then if (MAX_TRIES <=? failures)%nat then throw MaxRankingRetries
                  else mret (S failures)
             else mret failures);
          let batch := JS.slice 0 (Z.of_nat batchSize) unrankedVideos in
          batchRankings ← askRankings ollamaModel (map title_of batch) fs;
          let validRankings :=
            List.filter (fun br => existsb (fun v => normalize_NFKC env (title_of v)
                                                     =? normalize_NFKC env (r_title br))
                                           batch)
                        batchRankings in
          rankLoop fuel' videos fs ollamaModel (rankings ++ validRankings) failures'
  end.

Definition rankVideos {V} `{Titled V} (fuel : nat) (videos : list V) (fs : list iFeature)
    (ollamaModel : option OLLAMA_MODELS) : M (list iRanking) :=
  rankings ← rankLoop fuel videos fs ollamaModel [] 0%nat;
  writeFileSync RankingsFile;;
  mret rankings.

(** [addFeature] of [1.Describe.ts]. The prompt reads [f.name] of every
    failed feature before anything is sent. *)
Definition addFeature (fs : list iFeature) (predictions : list iPrediction)
    (failedFeatures : list (option iFeature)) : M iFeature :=
  failed ← lift (mapM (from_option Ok (Throw TypeError)) failedFeatures);
  writeFile_unawaited FeaturePromptFile;;
  newFeature ← askFeature fs predictions failed;
  writeFileSync FeatureFile;;
  mret newFeature.

(** One Reflexion step. *)
Record iReflexionStepInput := {
  in_features : list iFeature;
  in_videos : list iFeaturedVideo;
  in_failedFeatures : list (option iFeature);
  in_dir : string;
  in_index : nat
}.

Record iReflexionStepOutput := {
  previousModelResults : iResults;
  newModelResults : iResults;
  out_features : list iFeature;
  out_videos : list iFeaturedVideo;
  failedFeature : option iFeature;
  newFeature : iFeature
}.

(** [failedFeatures.some(f => f.name === nm)]: stops at the first match,
    and reading [.name] of an [undefined] entry before that throws. *)
Fixpoint some_named (nm : string) (l : list (option iFeature)) : outcome bool :=
  match l with
  | [] => Ok false
  | None :: _ => Throw TypeError
  | Some f :: l' => if name f =? nm then Ok true else some_named nm l'
  end.

(** [{...v, features: {...v.features,
       [f.name]: rankings.find(r => r.title === v.title)?.features[f.name] || 0}}] *)
Definition scored (f : iFeature) (rankings : list iRanking) (v : iFeaturedVideo)
  : iFeaturedVideo :=
  with_features v
    (<[name f := JS.or_zero (r ← List.find (fun r => r_title r =? title v) rankings;
                             r_features r !! name f)]> (features v)).

(** The two [predict] calls on the validation rows come after
    [getWorstPredictions] has returned, so the training part has a row,
    hence the data two, and the validation part has a row too (lemma
    [validation_has_a_row]): there [predict] is the map over the rows. *)
Definition reflexionStep (fuel : nat) (input : iReflexionStepInput)
  : M iReflexionStepOutput :=
  let fs := in_features input in
  let failedFeatures := in_failedFeatures input in
  let dir := in_dir input in
  let index := in_index input in
  shuffledData ← shuffle (in_videos input);
  let trainingSize := JS.floor_080 (length shuffledData) in
  let training := JS.slice 0 (Z.of_nat trainingSize) shuffledData in
  let validation := JS.slice (Z.of_nat trainingSize)
                             (Z.of_nat (length shuffledData)) shuffledData in
  '(mlr, X, Y) ← lift (trainFeatureModel fs training);
  '(bestFeatures, worstFeature) ← lift (updateFeatures fs mlr);
  (* Get new feature. *)
  worstPredictions ← lift (getWorstPredictions training mlr X Y);
  hasWorstFeature ← lift (some_named (name worstFeature) failedFeatures);
  let fullFailedFeatures :=
    if (hasWorstFeature : bool) then failedFeatures else failedFeatures ++ [Some worstFeature] in
  newFeature ← addFeature bestFeatures worstPredictions fullFailedFeatures;
  newRankings ← rankVideos fuel training [newFeature] None;
  let updatedFeatures := bestFeatures ++ [newFeature] in
  let newVideos := map (scored newFeature newRankings) training in
  (* Train new model. *)
  '(newModel, _, _) ← lift (trainFeatureModel updatedFeatures newVideos);
  (* Validate old model. *)
  let validation_Y := map (fun v : iFeaturedVideo => Math_log env (views v + 1)%Q)
                          validation in
  let previousModel_X :=
    map (fun v : iFeaturedVideo =>
           recentViews v ++ map (fun f => JS.or_zero (features v !! name f)) fs)
        validation in
  let previousModel_predictions := map (MLR_predict env mlr) previousModel_X in
  previousModelResults ←
    reportLogErrors previousModel_predictions validation_Y (Some mlr);
  validation_rankings ← rankVideos fuel validation [newFeature] None;
  let validationVideos := map (scored newFeature validation_rankings) validation in
  let newModel_X :=
    map (fun v : iFeaturedVideo =>
           recentViews v
           ++ map (fun f => JS.or_zero (features v !! name f)) updatedFeatures)
        validationVideos in
  let newModel_predictions := map (MLR_predict env newModel) newModel_X in
  newModelResults ← reportLogErrors newModel_predictions validation_Y (Some newModel);
  let failedFeature :=
    List.find (fun f => negb (existsb (fun uf => name uf =? name f) updatedFeatures)) fs in
  writeFileSync (FeaturesStepFile dir index);;
  writeFileSync (VideosStepFile dir index);;
  writeFileSync (ResultsStepFile dir index);;
  mret {| previousModelResults := previousModelResults;
          newModelResults := newModelResults;
          out_features := updatedFeatures;
          out_videos := newVideos ++ validationVideos;
          failedFeature := failedFeature;
          newFeature := newFeature |}.

(** The variables of [runReflexion] that the loop updates. *)
Record RunState := {
  run_features : list iFeature;
  run_featuredVideos : list iFeaturedVideo;
  run_failedFeatures : list (option iFeature)
}.

Definition improved (results : iReflexionStepOutput) : bool :=
  JS.ltb (averageLogError (newModelResults results))
         (averageLogError (previousModelResults results)).

(** What the body of the [try] does once [reflexionStep] has returned. *)
Definition decide_step (st : RunState) (results : iReflexionStepOutput) : RunState :=
  let featuredVideos := out_videos results in
  if improved results
  then {| run_features := out_features results;
          run_featuredVideos := featuredVideos;
          run_failedFeatures := run_failedFeatures st ++ [failedFeature results] |}
  else {| run_features := run_features st;
          run_featuredVideos := featuredVideos;
          run_failedFeatures := run_failedFeatures st ++ [Some (newFeature results)] |}.

(** [failedFeatures.map(f => f.name)] inside a [console.log] throws on an
    [undefined] entry. *)
Definition names_readable (l : list (option iFeature)) : bool :=
  forallb (fun f : option iFeature => bool_decide (is_Some f)) l.

(** [{ features, videos: featuredVideos, failedFeatures, dir, index }] *)
Definition stepInput (st : RunState) (dir : string) (index : nat) : iReflexionStepInput :=
  {| in_features := run_features st;
     in_videos := run_featuredVideos st;
     in_failedFeatures := run_failedFeatures st;
     in_dir := dir;
     in_index := index |}.

(** The body of the [for] loop: [try { ... } catch (err) { console.error }]. *)
Definition iteration (fuel : nat) (dir : string) (index : nat) (st : RunState)
  : M RunState :=
  fun w =>
    match reflexionStep fuel (stepInput st dir index) w with
    | (Ok results, w') =>
        let st' := decide_step st results in
        if improved results || names_readable (run_failedFeatures st')
        then (Ok st', w')
        else (Ok st', w' ++ [ConsoleError index TypeError])
    | (Throw e, w') => (Ok st, w' ++ [ConsoleError index e])
    | (Diverge, w') => (Diverge, w')
    end.

(** [for (let index = start; index < start + count; index++)] *)
Fixpoint reflexionLoop (fuel : nat) (dir : string) (count : nat) (index : nat)
    (st : RunState) : M RunState :=
  match count with
  | O => mret st
  | S count' =>
      st' ← iteration fuel dir index st;
      reflexionLoop fuel dir count' (S index) st'
  end.

Definition bootstrap (videos : list iTrainingVideo)
  : M (list iFeaturedVideo * list iFeature) :=
  fun w => (featureVideos env w videos, w ++ [Bootstrap]).

Definition runReflexion (fuel : nat) (videos : list iTrainingVideo) (dir : string)
  : M (list iFeature * list iFeaturedVideo) :=
  writeFileSync (ReflexionDir dir);;
  '(featuredVideos, fs) ← bootstrap videos;
  st ← reflexionLoop fuel dir 10 0
         {| run_features := fs;
            run_featuredVideos := featuredVideos;
            run_failedFeatures := [] |};
  writeFileSync (FeaturesFile dir);;
  writeFileSync (ReflexionVideosFile dir);;
  (* the last console.log reads the name of every failed feature *)
  if names_readable (run_failedFeatures st)
  then mret (run_features st, run_featuredVideos st)
  else throw TypeError.

End Program.


(** ** Vocabulary of the statements *)

(** The importance of the entry at index [i], [0] out of range. *)
Definition importance_at (arr : list iFeatureValue) (i : nat) : Q :=
  from_option importance 0%Q (arr !! i).

(** The comparator [(a, b) => key(b) - key(a)] and the order it sorts
    into. *)
Definition descending {A} (key : A -> Q) : A -> A -> Q :=
  fun a b => (key b - key a)%Q.

Definition not_below {A} (key : A -> Q) : A -> A -> Prop :=
  fun a b => (key b <= key a)%Q.

(** [signedDelta] of row [i]: predicted minus actual, in log scale. *)
Definition signedDelta (env : Env) (mlr : MLR) (X : list (list Q)) (Y : list Q)
    (i : nat) : Q :=
  (MLR_predict env mlr (nth i X []) - nth i Y 0)%Q.

Definition absDelta (env : Env) (mlr : MLR) (X : list (list Q)) (Y : list Q)
    (i : nat) : Q :=
  Qabs (signedDelta env mlr X Y i).

(** Mean absolute residual of predictions against targets, summed in the
    order of [reportLogErrors]. *)
Definition meanAbsResidual (predLog actualLog : list Q) : Q :=
  (fold_left Qplus (zip_with (fun p a => Qabs (p - a)) predLog actualLog) 0
   / inject_Z (Z.of_nat (length predLog)))%Q.

(** [m], started in world [w], emits only events satisfying [P], and a
    value it returns satisfies [R]. *)
Definition run_spec {A} (m : M A) (w : World) (P : Event -> Prop) (R : A -> Prop)
  : Prop :=
  forall o w', m w = (o, w') ->
    exists evs, w' = w ++ evs /\ Forall P evs /\ forall a, o = Ok a -> R a.

(** The split of one step started in world [w]. *)
Definition shuffledData (env : Env) (input : iReflexionStepInput) (w : World)
  : list iFeaturedVideo :=
  random_sort env w (in_videos input).

Definition trainingSplit (env : Env) (input : iReflexionStepInput) (w : World)
  : list iFeaturedVideo :=
  take (JS.floor_080 (length (shuffledData env input w))) (shuffledData env input w).

Definition validationSplit (env : Env) (input : iReflexionStepInput) (w : World)
  : list iFeaturedVideo :=
  drop (JS.floor_080 (length (shuffledData env input w))) (shuffledData env input w).

(** The input row of a video for a feature list. *)
Definition inputRow (fs : list iFeature) (v : iFeaturedVideo) : list Q :=
  recentViews v ++ map (fun f => JS.or_zero (features v !! name f)) fs.

(** The intermediate values of a step that returned. *)
Record StepTrace := {
  t_mlr : MLR;
  t_X : list (list Q);
  t_Y : list Q;
  t_bestFeatures : list iFeature;
  t_worstFeature : iFeature;
  t_worstPredictions : list iPrediction;
  t_hasWorstFeature : bool;
  t_asked : list iFeature;
  t_askedIn : World;
  t_newRankings : list iRanking;
  t_validation_rankings : list iRanking;
  t_newModel : MLR
}.

Record StepFacts (env : Env) (input : iReflexionStepInput) (w : World)
    (results : iReflexionStepOutput) (t : StepTrace) : Prop := {
  fact_trained :
    trainFeatureModel env (in_features input) (trainingSplit env input w)
    = Ok (t_mlr t, t_X t, t_Y t);
  fact_pruned :
    updateFeatures (in_features input) (t_mlr t)
    = Ok (t_bestFeatures t, t_worstFeature t);
  fact_analyzed :
    getWorstPredictions env (trainingSplit env input w) (t_mlr t) (t_X t) (t_Y t)
    = Ok (t_worstPredictions t);
  fact_has :
    some_named (name (t_worstFeature t)) (in_failedFeatures input)
    = Ok (t_hasWorstFeature t);
  fact_asked :
    map Some (t_asked t)
    = if t_hasWorstFeature t then in_failedFeatures input
      else in_failedFeatures input ++ [Some (t_worstFeature t)];
  fact_proposed :
    Client_feature env (t_askedIn t) (t_bestFeatures t) (t_worstPredictions t) (t_asked t)
    = Ok (newFeature results);
  fact_ranked :
    exists fuel w1 w2,
      rankVideos env fuel (trainingSplit env input w) [newFeature results] None w1
      = (Ok (t_newRankings t), w2);
  fact_retrained :
    exists X' Y',
      trainFeatureModel env (t_bestFeatures t ++ [newFeature results])
        (map (scored (newFeature results) (t_newRankings t)) (trainingSplit env input w))
      = Ok (t_newModel t, X', Y');
  fact_validation_ranked :
    exists fuel w1 w2,
      rankVideos env fuel (validationSplit env input w) [newFeature results] None w1
      = (Ok (t_validation_rankings t), w2);
  fact_previous :
    previousModelResults results
    = logErrorResults env
        (map (MLR_predict env (t_mlr t))
             (map (inputRow (in_features input)) (validationSplit env input w)))
        (map (fun v : iFeaturedVideo => Math_log env (views v + 1)%Q)
             (validationSplit env input w))
        (Some (t_mlr t));
  fact_new :
    newModelResults results
    = logErrorResults env
        (map (MLR_predict env (t_newModel t))
             (map (inputRow (t_bestFeatures t ++ [newFeature results]))
                  (map (scored (newFeature results) (t_validation_rankings t))
                       (validationSplit env input w))))
        (map (fun v : iFeaturedVideo => Math_log env (views v + 1)%Q)
             (validationSplit env input w))
        (Some (t_newModel t));
  fact_features :
    out_features results = t_bestFeatures t ++ [newFeature results];
  fact_videos :
    out_videos results
    = map (scored (newFeature results) (t_newRankings t)) (trainingSplit env input w)
      ++ map (scored (newFeature results) (t_validation_rankings t))
             (validationSplit env input w);
  fact_failed :
    failedFeature results
    = List.find (fun f => negb (existsb (fun uf => name uf =? name f)
                                        (t_bestFeatures t ++ [newFeature results])))
                (in_features input)
}.

(** What a request to the Feature Proposer must look like in a step on
    [input] started in world [w]. *)
Definition askedAsDesigned (env : Env) (input : iReflexionStepInput) (w : World)
    (ev : Event) : Prop :=
  match ev with
  | AskFeature fs predictions failed =>
      exists mlr X Y worst has,
        trainFeatureModel env (in_features input) (trainingSplit env input w)
        = Ok (mlr, X, Y) /\
        updateFeatures (in_features input) mlr = Ok (fs, worst) /\
        getWorstPredictions env (trainingSplit env input w) mlr X Y = Ok predictions /\
        some_named (name worst) (in_failedFeatures input) = Ok has /\
        map Some failed
        = if has then in_failedFeatures input
          else in_failedFeatures input ++ [Some worst]
  | _ => True
  end.

(** Events other than a request to the Feature Proposer. *)
Definition quiet (ev : Event) : Prop :=
  match ev with
  | AskFeature _ _ _ => False
  | _ => True
  end.

(** The contract of the Feature Proposer: the name it returns is borne by
    none of the active and none of the rejected features it was shown. *)
Definition proposer_contract (env : Env) : Prop :=
  forall w fs predictions failed f,
    Client_feature env w fs predictions failed = Ok f ->
    (name f ∉ map name fs) /\ (name f ∉ map name failed).

(** A scorer that answers every request, for the model [model] and the
    features [fs], with the ranking [answer t] of each title [t] asked. *)
Definition scorer_answers (env : Env) (model : option OLLAMA_MODELS)
    (fs : list iFeature) (answer : string -> iRanking) : Prop :=
  (forall t, r_title (answer t) = t) /\
  forall w batch, Client_rankings env w model batch fs = Ok (map answer batch).

(** The score that the rankings [rankings] hold for the title [t] under the
    name of [f]: that of the first ranking of that title, 0 when there is
    none or when it has no such score. *)
Definition score_in (rankings : list iRanking) (f : iFeature) (t : string) : Q :=
  match List.find (fun r => r_title r =? t) rankings with
  | Some r => default 0%Q (r_features r !! name f)
  | None => 0%Q
  end.

(** [v'] is the video [v] with the score [score (title v)] under the name of
    [f], and its other scores as they were. *)
Definition rescored (f : iFeature) (score : string -> Q) (v v' : iFeaturedVideo)
  : Prop :=
  training_video v' = training_video v /\
  features v' = <[name f := score (title v)]> (features v).

(** The states reached from [st0] by iterating the Controller. *)
Inductive reachable (env : Env) (st0 : RunState) : RunState -> Prop :=
| reach_start : reachable env st0 st0
| reach_iteration fuel dir index st w st' w' :
    reachable env st0 st ->
    iteration env fuel dir index st w = (Ok st', w') ->
    reachable env st0 st'.

(** What the proof of the invariant carries along: [K] active features of
    distinct names, no [undefined] in the history, and no name both active
    and rejected. *)
Definition well_formed (K : nat) (st : RunState) : Prop :=
  length (run_features st) = K /\
  NoDup (map name (run_features st)) /\
  (forall o, o ∈ run_failedFeatures st -> is_Some o) /\
  (forall f g, f ∈ run_features st -> Some g ∈ run_failedFeatures st ->
               name f <> name g).

(** ** Concrete collaborators and data for the scenarios

    Test doubles for the collaborators, as a unit test of the loop would
    inject them. [Math.exp] and [Math.log] are the identity, the shuffle
    keeps the order, and writing a file succeeds. *)

Module Demo.

(** The predictor of the regression library: the weighted sum of the
    inputs plus the intercept, which is the last weight. *)
Definition predict (mlr : MLR) (x : list Q) : Q :=
  fold_right Qplus (List.last (weights mlr) 0%Q) (zip_with Qmult (weights mlr) x).

(** A stand-in for the fit: weight 0 on the five recent views, weight
    [k + 1] on the [k]-th feature, intercept 0. *)
Definition fit (X : list (list Q)) (Y : list Q) : outcome MLR :=
  Ok {| weights := repeat 0%Q 5
                   ++ map (fun k => inject_Z (Z.of_nat (S k)))
                          (seq 0 (length (hd [] X) - 5))
                   ++ [0%Q] |}.

(** A scorer that gives every title of the batch the score [s] on every
    feature, and one that answers with no ranking at all. *)
Definition score_all (s : Q) (batch : list string) (fs : list iFeature)
  : outcome (list iRanking) :=
  Ok (map (fun t => {| r_title := t;
                       r_features := list_to_map (map (fun f => (name f, s)) fs) |})
          batch).

Definition score_none (batch : list string) (fs : list iFeature)
  : outcome (list iRanking) :=
  Ok [].

(** A scorer that gives the title [t] the score [score t] on every
    feature, and a score that is 5 for the last video and 3 for the
    others. *)
Definition answer_each (score : string -> Q) (fs : list iFeature) (t : string)
  : iRanking :=
  {| r_title := t;
     r_features := list_to_map (map (fun f => (name f, score t)) fs) |}.

Definition score_each (score : string -> Q) (batch : list string) (fs : list iFeature)
  : outcome (list iRanking) :=
  Ok (map (answer_each score fs) batch).

Definition high_for_last (t : string) : Q := if t =? "v4" then 5%Q else 3%Q.

(** A scorer that ranks the first title of the batch, twice. *)
Definition score_first_twice (batch : list string) (fs : list iFeature)
  : outcome (list iRanking) :=
  match batch with
  | [] => Ok []
  | t :: _ =>
      let r := {| r_title := t;
                  r_features := list_to_map (map (fun f => (name f, 1%Q)) fs) |} in
      Ok [r; r]
  end.

Definition feature (nm : string) : iFeature :=
  {| name := nm; summary := "initial"; description := "initial" |}.

Definition proposal (nm : string) : iFeature :=
  {| name := nm; summary := "proposed"; description := "proposed" |}.

(** A proposer that answers with a name longer than every name it is
    shown, one that always answers [nm], and one that fails. *)
Definition fresh_name (names : list string) : string :=
  foldr String.append "'" names.

Definition propose_fresh (fs failed : list iFeature) : outcome iFeature :=
  Ok (proposal (fresh_name (map name fs ++ map name failed))).

Definition propose_named (nm : string) (fs failed : list iFeature) : outcome iFeature :=
  Ok (proposal nm).

Definition propose_fails (fs failed : list iFeature) : outcome iFeature :=
  Throw (External "proposal failed").

Definition video (t : string) (v : Q) (scores : list (string * Q)) : iFeaturedVideo :=
  {| training_video :=
       {| video := {| id := t; title := t; views := v; likes := 0; comments := 0;
                      date := "2024-01-01"; duration := 0 |};
          recentViews := repeat 0%Q 5 |};
     features := list_to_map scores |}.

(** Five videos scored on the features [a] and [b]. *)
Definition videos : list iFeaturedVideo :=
  map (fun '(t, v) => video t v [("a", 1%Q); ("b", 1%Q)])
      [("v0", 0%Q); ("v1", 1%Q); ("v2", 5%Q); ("v3", 7%Q); ("v4", 4%Q)].

Definition env (rank : list string -> list iFeature -> outcome (list iRanking))
    (propose : list iFeature -> list iFeature -> outcome iFeature) : Env :=
  {| Math_exp := fun x => x;
     Math_log := fun x => x;
     normalize_NFKC := fun s => s;
     MLR_new := fit;
     MLR_predict := predict;
     random_sort := fun _ videos => videos;
     featureVideos := fun _ _ => Ok (videos, [feature "a"; feature "b"]);
     Client_rankings := fun _ _ batch fs => rank batch fs;
     Client_feature := fun _ fs _ failed => propose fs failed;
     fs_write := fun _ _ => Ok tt |}.

(** The proposer honours its contract and the scorer makes the candidate
    win ([accepting]) or lose ([rejecting], and [overrating] with scores
    that differ from video to video); the proposer fails ([failing]);
    the proposer answers with the name of a kept feature ([colliding_kept])
    or of the pruned one ([colliding_pruned]); the scorer answers with no
    ranking ([silent]) or with the same ranking twice ([repeating]). *)
Definition accepting : Env := env (score_all 2) propose_fresh.
Definition rejecting : Env := env (score_all 0) propose_fresh.
Definition failing : Env := env (score_all 2) propose_fails.
Definition colliding_pruned : Env := env (score_all 2) (propose_named "a").
Definition overrating : Env := env (score_each high_for_last) propose_fresh.
Definition silent : Env := env score_none propose_fresh.
Definition repeating : Env := env score_first_twice propose_fresh.

Definition start : RunState :=
  {| run_features := [feature "a"; feature "b"];
     run_featuredVideos := videos;
     run_failedFeatures := [] |}.

(** Forty videos, as many as one batch for a single feature. *)
Definition forty : list iFeaturedVideo :=
  map (fun i : nat => video ("v" +:+ pretty i) 4 []) (seq 0 40).

(** Scenario A of the specification, and the same weights laid out as the
    regression library lays them out. *)
Definition scenarioA_features : list iFeature := [feature "len"; feature "caps"].
Definition scenarioA_mlr : MLR := {| weights := [1; 0.1; 5]%Q |}.
Definition scenarioA_library_mlr : MLR := {| weights := [0; 0; 0; 0; 0; 0.1; 5; 1]%Q |}.

(** The layout of the claim with five auxiliary weights: intercept, five
    auxiliary weights, then the weights of [len] and [caps]. *)
Definition intercept_first_mlr : MLR := {| weights := [1; 9; 9; 9; 9; 9; 0.1; 5]%Q |}.

(** Scenario B of the specification: five rows whose predictions are the
    wanted residuals and whose targets are 0. *)
Definition scenarioB_mlr : MLR := {| weights := [1; 0]%Q |}.
Definition scenarioB_X : list (list Q) := [[-2]; [0.5]; [3]; [-0.1]; [1]]%Q.
Definition scenarioB_Y : list Q := [0; 0; 0; 0; 0]%Q.
Definition scenarioB_videos : list iFeaturedVideo :=
  map (fun t => video t 0 []) ["idx0"; "idx1"; "idx2"; "idx3"; "idx4"].

(** Two rows with the same absolute residual. *)
Definition tie_X : list (list Q) := [[1]; [-1]]%Q.
Definition tie_Y : list Q := [0; 0]%Q.
Definition tie_videos : list iFeaturedVideo :=
  map (fun t => video t 0 []) ["idx0"; "idx1"].

(** The names shown to the Feature Proposer in each request of a trace:
    those of the active features and those of the rejected ones. *)
Definition requests (w : World) : list (list string * list string) :=
  omap (fun ev => match ev with
                  | AskFeature fs _ failed => Some (map name fs, map name failed)
                  | _ => None
                  end) w.

End Demo.

(** ** Proof steps used more than once *)

Ltac case_if :=
  match goal with
  | |- context [if ?b then _ else _] => destruct b eqn:?
  end.

(** Runs the step of the first iteration on the demonstration data and
    names the result it returns. *)
Ltac run_first_step E :=
  let Hok := fresh "Hok" in
  assert (returned (fst (reflexionStep E 5 (stepInput Demo.start "d" 0) [])) = true)
    as Hok by (vm_compute; reflexivity);
  destruct (reflexionStep E 5 (stepInput Demo.start "d" 0) [])
    as [[results| |] w'] eqn:Hrun; [clear Hok|discriminate Hok|discriminate Hok].


(** ** Vocabulary of the further properties *)

(** A scorer that answers every request with one ranking per title asked,
    in the order asked. *)
Definition exact_scorer (env : Env) (model : option OLLAMA_MODELS)
    (fs : list iFeature) : Prop :=
  forall w batch, exists rs,
    Client_rankings env w model batch fs = Ok rs /\ map r_title rs = batch.

(** A requests to the scorer, among the events of a trace. *)
Definition is_rank_request (ev : Event) : bool :=
  match ev with
  | AskRankings _ _ _ => true
  | _ => false
  end.


(** ** The data preparation ([utils/utils.ts], [utils/topChannels.ts]) *)

(** [iRecentViews] of [types.ts]. *)
Record iRecentViews := {
  rv_video : iVideo;
  rv_recentViews : list Q
}.

Definition RECENT_VIDEOS_COUNT : nat := 5.

(** [getRecentVideos] of [utils/utils.ts]: every video with the log views
    of the videos before it, at most five of them; the videos with fewer
    than five are then filtered out. *)
Definition getRecentVideos (env : Env) (videos : list iVideo) : list iRecentViews :=
  List.filter
    (fun r => (length (rv_recentViews r) =? RECENT_VIDEOS_COUNT)%nat)
    (imap (fun i v =>
             let start := Z.max 0 (Z.of_nat i - Z.of_nat RECENT_VIDEOS_COUNT) in
             let recentViews :=
               map (fun v2 : iVideo => Math_log env (views v2 + 1)%Q)
                   (JS.slice start (Z.of_nat i) videos) in
             {| rv_video := v; rv_recentViews := recentViews |})
          videos).

(** The training rows that [index] of [utils/topChannels.ts] writes for a
    channel:
    [recentVideos = channelVideos.filter(video =>
       new Date(video.date) < new Date('2025-01-01'))], then
    [getRecentVideos(recentVideos)
       .map(v => ({ ...v.video, recentViews: v.recentViews })).slice(0, 100)].
    Parsing and comparing the dates is a collaborator, [dated_before_2025]
    on the date string. *)
Definition trainingData (env : Env) (dated_before_2025 : string -> bool)
    (channelVideos : list iVideo) : list iTrainingVideo :=
  let recentVideos :=
    List.filter (fun video : iVideo => dated_before_2025 (date video)) channelVideos in
  JS.slice 0 100
    (map (fun v => {| video := rv_video v; recentViews := rv_recentViews v |})
         (getRecentVideos env recentVideos)).

(** ** The contrast sample ([1.Describe.ts]) *)

(** [getVideos]: the twenty most viewed and the twenty least viewed
    videos; [slice(-20)] has no second argument, so it runs to the end. *)
Definition getVideos (videos : list iVideo) : list iVideo * list iVideo :=
  let sortedVideos := JS.sort (fun a b => (views b - views a)%Q) videos in
  let topVideos := JS.slice 0 20 sortedVideos in
  let bottomVideos := JS.slice (-20) (Z.of_nat (length sortedVideos)) sortedVideos in
  (topVideos, bottomVideos).

(** ** Replies of the language model ([utils/gemma.ts], [utils/ollama.ts])

    What [JSON.parse] returns is a [Json]; its objects have every key
    once. A property read can also reach [Object.prototype], whose
    properties are functions, but for [__proto__]. *)

#[local] Unset Elimination Schemes.

Inductive Json :=
| JNull
| JBoolean (b : bool)
| JNumber (q : Q)
| JString (s : string)
| JArray (entries : list Json)
| JObject (fields : list (string * Json)).

Inductive Value :=
| Data (j : Json)
| Function
| ObjectPrototype.

(** The properties that every object inherits from [Object.prototype]. *)
Definition Object_prototype_keys : list string :=
  ["constructor"; "__defineGetter__"; "__defineSetter__"; "hasOwnProperty";
   "__lookupGetter__"; "__lookupSetter__"; "isPrototypeOf"; "propertyIsEnumerable";
   "toString"; "valueOf"; "__proto__"; "toLocaleString"].

Definition own (fields : list (string * Json)) (key : string) : option Json :=
  snd <$> List.find (fun kv => fst kv =? key) fields.

(** [typeof value === 'object' && value !== null && !Array.isArray(value)] *)
Definition is_plain_object (value : Value) : bool :=
  match value with
  | Data (JObject _) | ObjectPrototype => true
  | _ => false
  end.

(** [key in value], for a [value] that is an object. *)
Definition has_property (value : Value) (key : string) : bool :=
  match value with
  | Data (JObject fields) =>
      bool_decide (is_Some (own fields key))
      || bool_decide (key ∈ Object_prototype_keys)
  | ObjectPrototype => bool_decide (key ∈ Object_prototype_keys)
  | _ => false
  end.

(** [value[key]], for a [key] that is [in] the object [value]. *)
Definition get_property (value : Value) (key : string) : Value :=
  match value with
  | Data (JObject fields) =>
      match own fields key with
      | Some j => Data j
      | None => if key =? "__proto__" then ObjectPrototype else Function
      end
  | ObjectPrototype => if key =? "__proto__" then Data JNull else Function
  | _ => Function
  end.

(** A schema as the code writes them. [minimum] and [maximum] are the
    bounds that [rankingSchema] gives to every score. *)
Inductive GeminiSchema :=
| Schema (type : option string)
         (properties : option (list (string * GeminiSchema)))
         (items : option GeminiSchema)
         (required : option (list string))
         (minimum maximum : option Q).

#[local] Set Elimination Schemes.

(** [validateAgainstSchema]; the entries of [properties] are visited in the
    order of [Object.entries]. *)
Fixpoint validateAgainstSchema (value : Value) (schema : GeminiSchema) : bool :=
  match schema with
  | Schema None _ _ _ _ _ => false
  | Schema (Some type) properties items required _ _ =>
      if type =? "object" then
        is_plain_object value
        && forallb (has_property value) (default [] required)
        && match properties with
           | None => true
           | Some entries =>
               forallb (fun entry =>
                          match entry with
                          | (key, subschema) =>
                              if has_property value key
                              then validateAgainstSchema (get_property value key) subschema
                              else true
                          end)
                       entries
           end
      else if type =? "array" then
        match value with
        | Data (JArray l) =>
            match items with
            | None => true
            | Some entrySchema =>
                forallb (fun entry => validateAgainstSchema (Data entry) entrySchema) l
            end
        | _ => false
        end
      else if type =? "string" then
        match value with Data (JString _) => true | _ => false end
      else if (type =? "number") || (type =? "integer") then
        match value with Data (JNumber _) => true | _ => false end
      else if type =? "boolean" then
        match value with Data (JBoolean _) => true | _ => false end
      else false
  end.

(** [rankingSchema] of [2.Rank.ts]. The [reduce] assigns [acc[name]] for
    every feature name: that leaves the name once among the keys of
    [properties], but for the name [__proto__], whose assignment sets the
    prototype of [acc] and adds no key. *)
Definition scoreSchema : GeminiSchema :=
  Schema (Some "number") None None None (Some 0%Q) (Some 10%Q).

Definition stringSchema : GeminiSchema :=
  Schema (Some "string") None None None None None.

Definition rankingSchema (fs : list iFeature) : GeminiSchema :=
  let featureNames := map name fs in
  Schema (Some "array") None
    (Some (Schema (Some "object")
             (Some [("title", stringSchema);
                    ("features",
                     Schema (Some "object")
                       (Some (map (fun nm => (nm, scoreSchema))
                                  (remove_dups
                                     (List.filter (fun nm => negb (nm =? "__proto__"))
                                                  featureNames))))
                       None (Some featureNames) None None)])
             None (Some ["title"; "features"]) None None))
    None None None.

(** [featureSchema] and [contrastSchema] of [1.Describe.ts]. *)
Definition featureSchema : GeminiSchema :=
  Schema (Some "object")
    (Some [("name", stringSchema); ("summary", stringSchema);
           ("description", stringSchema)])
    None (Some ["name"; "summary"; "description"]) None None.

Definition contrastSchema : GeminiSchema :=
  Schema (Some "array") None (Some featureSchema) None None None.

(** The reply that holds the features [fs], and the one that scores the
    titled rows [rows]. *)
Definition featureReply (f : iFeature) : Json :=
  JObject [("name", JString (name f)); ("summary", JString (summary f));
           ("description", JString (description f))].

Definition rankingReply (rows : list (string * list (string * Q))) : Json :=
  JArray (map (fun '(t, scores) =>
                 JObject [("title", JString t);
                          ("features",
                           JObject (map (fun '(nm, q) => (nm, JNumber q)) scores))])
              rows).

(** [extractJson] of [utils/gemma.ts] and [utils/ollama.ts]. The text is
    taken as its bytes: the four delimiters are ASCII, so they are found at
    the same places, and positions are only compared with each other.
    [-1] is the "not found" of [indexOf] and [lastIndexOf]. *)
From Stdlib Require Import Ascii.

Module Text.

Fixpoint indexOf (c : Ascii.ascii) (s : string) : Z :=
  match s with
  | EmptyString => (-1)%Z
  | String a s' =>
      if Ascii.eqb a c then 0%Z
      else let i := indexOf c s' in if (i <? 0)%Z then (-1)%Z else (i + 1)%Z
  end.

Fixpoint lastIndexOf (c : Ascii.ascii) (s : string) : Z :=
  match s with
  | EmptyString => (-1)%Z
  | String a s' =>
      let i := lastIndexOf c s' in
      if (0 <=? i)%Z then (i + 1)%Z
      else if Ascii.eqb a c then 0%Z else (-1)%Z
  end.

(** [text.substring(start, stop)] for [0 <= start <= stop]. *)
Definition substring (start stop : Z) (s : string) : string :=
  String.substring (Z.to_nat start) (Z.to_nat (stop - start)) s.

End Text.

Definition NoJsonFound : Error :=
  External "No valid JSON object or array found in response".

(** [JSON.parse] is a collaborator; each [return] of the source is a
    branch here. *)
Definition extractJson (JSON_parse : string -> outcome Json) (text : string)
  : outcome Json :=
  let firstBrace := Text.indexOf "{"%char text in
  let firstBracket := Text.indexOf "["%char text in
  let lastBrace := Text.lastIndexOf "}"%char text in
  let lastBracket := Text.lastIndexOf "]"%char text in
  if negb (firstBrace =? -1)%Z
     && ((firstBracket =? -1)%Z || (firstBrace <? firstBracket)%Z)
     && (firstBrace <? lastBrace)%Z
  then JSON_parse (Text.substring firstBrace (lastBrace + 1) text)
  else if negb (firstBracket =? -1)%Z
          && ((firstBrace =? -1)%Z || (firstBracket <? firstBrace)%Z)
          && (firstBracket <? lastBracket)%Z
  then JSON_parse (Text.substring firstBracket (lastBracket + 1) text)
  else Throw NoJsonFound.

(** Decides the comparisons of a goal by cases. *)
Ltac decide_tests :=
  repeat match goal with
         | |- context [(?a =? ?b)%Z] => destruct (Z.eqb_spec a b)
         | |- context [(?a <? ?b)%Z] => destruct (Z.ltb_spec a b)
         end;
  simpl; try done; try lia.

(** ** Further test doubles *)

(** A stand-in for [JSON.parse] that hands back the text it is given. *)
Definition echo (s : string) : outcome Json := Ok (JString s).

(** The start of the demonstration with an [undefined] in the history. *)
Definition poisoned : RunState :=
  {| run_features := run_features Demo.start;
     run_featuredVideos := run_featuredVideos Demo.start;
     run_failedFeatures := [None] |}.
(** * Properties *)

(** ** Numbers and arrays *)

Lemma ltb_lt (a b : Q) : JS.ltb a b = true <-> (a < b)%Q.
Proof.
  unfold JS.ltb. rewrite negb_true_iff, <- not_true_iff_false, Qle_bool_iff.
  split; [apply Qnot_le_lt | apply Qlt_not_le].
Qed.

Lemma ltb_ge (a b : Q) : JS.ltb a b = false <-> (b <= a)%Q.
Proof.
  unfold JS.ltb. rewrite negb_false_iff. apply Qle_bool_iff.
Qed.

Lemma slice_prefix {A} (n : nat) (l : list A) :
  JS.slice 0 (Z.of_nat n) l = take n l.
Proof.
  unfold JS.slice. simpl.
  destruct (Z.ltb_spec (Z.of_nat n) 0); [lia|].
  rewrite (Z.min_l 0) by lia. rewrite Z.sub_0_r, drop_0.
  destruct (decide (n <= length l)%nat).
  - rewrite Z.min_l by lia. by rewrite Nat2Z.id.
  - rewrite Z.min_r by lia. rewrite Nat2Z.id.
    rewrite !take_ge; [done | lia | lia].
Qed.

Lemma slice_suffix {A} (n : nat) (l : list A) :
  JS.slice (Z.of_nat n) (Z.of_nat (length l)) l = drop n l.
Proof.
  unfold JS.slice.
  destruct (Z.ltb_spec (Z.of_nat n) 0); [lia|].
  destruct (Z.ltb_spec (Z.of_nat (length l)) 0); [lia|].
  rewrite (Z.min_l (Z.of_nat (length l))) by lia.
  destruct (decide (n <= length l)%nat).
  - rewrite Z.min_l by lia. rewrite Nat2Z.id.
    apply take_ge. rewrite length_drop. lia.
  - rewrite Z.min_r by lia. rewrite Nat2Z.id.
    rewrite !drop_ge; [|lia|lia]. by rewrite take_nil.
Qed.

(** ** The importance ranker *)

Lemma featureCoefficients_length (mlr : MLR) :
  length (featureCoefficients mlr) = (length (weights mlr) - 6)%nat.
Proof.
  unfold featureCoefficients, JS.rest, JS.slice.
  rewrite length_tl, length_take, length_drop.
  generalize (length (weights mlr)) as L. intros L.
  destruct (Z.ltb_spec (Z.of_nat L - 1) 0); simpl; lia.
Qed.

Lemma featureCoefficients_nth (mlr : MLR) (i : nat) :
  (i + 6 < length (weights mlr))%nat ->
  nth i (featureCoefficients mlr) 0%Q = nth (5 + i) (weights mlr) 0%Q.
Proof.
  intros Hi. unfold featureCoefficients, JS.rest, JS.slice.
  set (L := length (weights mlr)) in *. clearbody L.
  destruct (Z.ltb_spec (Z.of_nat L - 1) 0); [lia|]. simpl.
  rewrite (Z.min_l 4) by lia. rewrite (Z.min_l (_ - 1)) by lia.
  replace (Z.to_nat (Z.of_nat L - 1 - 4)) with (L - 5)%nat by lia.
  change (Z.to_nat 4) with 4%nat.
  rewrite !nth_lookup.
  rewrite lookup_tail, lookup_take_lt by lia.
  rewrite lookup_drop. done.
Qed.

Lemma leastFeatureIdx_prefix (arr : list iFeatureValue) (k : nat) :
  (k <= length arr)%nat ->
  let m := fold_left (fun minIdx '(idx, curr) =>
                        match arr !! minIdx with
                        | Some m => if JS.ltb (importance curr) (importance m)
                                    then idx else minIdx
                        | None => minIdx
                        end)
                     (imap pair (take k arr)) 0%nat in
  (m <= pred k)%nat /\
  (forall j, (j < k)%nat -> (importance_at arr m <= importance_at arr j)%Q) /\
  (forall j, (j < m)%nat -> (importance_at arr m < importance_at arr j)%Q).
Proof.
  induction k as [|k IH]; intros Hk.
  - simpl. repeat split; intros; lia.
  - destruct (lookup_lt_is_Some_2 arr k) as [x Hx]; [lia|].
    rewrite (take_S_r _ _ _ Hx), imap_app, fold_left_app.
    specialize (IH ltac:(lia)). simpl in IH.
    set (m := fold_left _ (imap pair (take k arr)) 0%nat) in *.
    destruct IH as (Hm & Hle & Hlt).
    rewrite length_take, Nat.min_l by lia. simpl. rewrite Nat.add_0_r.
    assert (Hxk : importance_at arr k = importance x)
      by (unfold importance_at; by rewrite Hx).
    destruct (lookup_lt_is_Some_2 arr m) as [y Hy]; [lia|].
    assert (Hym : importance_at arr m = importance y)
      by (unfold importance_at; by rewrite Hy).
    rewrite Hy.
    destruct (JS.ltb (importance x) (importance y)) eqn:Hcmp.
    + apply ltb_lt in Hcmp. rewrite <- Hxk, <- Hym in Hcmp.
      repeat split; [lia | |].
      * intros j Hj. destruct (decide (j = k)) as [->|].
        -- apply Qle_refl.
        -- apply Qlt_le_weak. eapply Qlt_le_trans; [exact Hcmp|]. apply Hle. lia.
      * intros j Hj. destruct (decide (k = 0)%nat) as [->|]; [lia|].
        eapply Qlt_le_trans; [exact Hcmp|]. apply Hle. lia.
    + apply ltb_ge in Hcmp. rewrite <- Hxk, <- Hym in Hcmp.
      repeat split; [lia | | exact Hlt].
      intros j Hj. destruct (decide (j = k)) as [->|]; [exact Hcmp|].
      apply Hle. lia.
Qed.

Lemma leastFeatureIdx_spec (arr : list iFeatureValue) :
  let m := leastFeatureIdx arr in
  (m <= pred (length arr))%nat /\
  (forall j, (j < length arr)%nat -> (importance_at arr m <= importance_at arr j)%Q) /\
  (forall j, (j < m)%nat -> (importance_at arr m < importance_at arr j)%Q).
Proof.
  pose proof (leastFeatureIdx_prefix arr (length arr) (Nat.le_refl _)) as H.
  rewrite firstn_all in H. exact H.
Qed.

(** ** Stable sorting and [indexOf] *)

Lemma mapM_Ok {A B} (f : A -> outcome B) (g : A -> B) (l : list A) :
  (forall x, x ∈ l -> f x = Ok (g x)) -> mapM f l = Ok (map g l).
Proof.
  induction l as [|x l IH]; intros Hf; [done|].
  simpl. rewrite (Hf x) by apply list_elem_of_here. simpl.
  rewrite IH; [done|]. intros y Hy. apply Hf. by apply list_elem_of_further.
Qed.

Lemma mapM_Ok_Forall2 {A B} (f : A -> outcome B) (P : A -> B -> Prop) (l : list A) :
  (forall x, x ∈ l -> exists y, f x = Ok y /\ P x y) ->
  exists k, mapM f l = Ok k /\ Forall2 P l k.
Proof.
  induction l as [|x l IH]; intros Hf.
  - exists []. split; [done|constructor].
  - destruct (Hf x) as (y & Hy & HP); [apply list_elem_of_here|].
    destruct IH as (k & Hk & HF).
    { intros z Hz. apply Hf. by apply list_elem_of_further. }
    exists (y :: k). split; [|by constructor].
    simpl. rewrite Hy. simpl. by rewrite Hk.
Qed.

Lemma insert_sorted_Permutation {A} (cmp : A -> A -> Q) (x : A) (l : list A) :
  JS.insert_sorted cmp x l ≡ₚ x :: l.
Proof.
  induction l as [|y l IH]; simpl; [done|].
  destruct (Qle_bool (cmp x y) 0); [done|].
  rewrite IH. apply Permutation_swap.
Qed.

Lemma sort_Permutation {A} (cmp : A -> A -> Q) (l : list A) :
  JS.sort cmp l ≡ₚ l.
Proof.
  induction l as [|x l IH]; simpl; [done|].
  unfold JS.sort in *. simpl. rewrite insert_sorted_Permutation. by rewrite IH.
Qed.

Lemma insert_sorted_map {A B} (f : A -> B) (cmp : B -> B -> Q) (x : A) (l : list A) :
  JS.insert_sorted cmp (f x) (map f l)
  = map f (JS.insert_sorted (fun a b => cmp (f a) (f b)) x l).
Proof.
  induction l as [|y l IH]; simpl; [done|].
  destruct (Qle_bool (cmp (f x) (f y)) 0); simpl; [done|]. by rewrite IH.
Qed.

Lemma sort_map {A B} (f : A -> B) (cmp : B -> B -> Q) (l : list A) :
  JS.sort cmp (map f l) = map f (JS.sort (fun a b => cmp (f a) (f b)) l).
Proof.
  unfold JS.sort. induction l as [|x l IH]; simpl; [done|].
  rewrite IH. apply insert_sorted_map.
Qed.

Section Descending.
Context {A : Type} (key : A -> Q).

Lemma descending_not_below a b :
  Qle_bool (descending key a b) 0 = true <-> not_below key a b.
Proof.
  unfold descending, not_below. rewrite Qle_bool_iff. split; lra.
Qed.

Lemma insert_sorted_descending x l :
  StronglySorted (not_below key) l ->
  StronglySorted (not_below key) (JS.insert_sorted (descending key) x l).
Proof.
  induction 1 as [|y l Hl IH Hy]; simpl.
  - repeat constructor.
  - destruct (Qle_bool (descending key x y) 0) eqn:Hc.
    + apply descending_not_below in Hc. constructor; [by constructor|].
      constructor; [done|].
      eapply Forall_impl; [exact Hy|]. intros z Hz. unfold not_below in *.
      eapply Qle_trans; eauto.
    + constructor; [done|].
      rewrite insert_sorted_Permutation. constructor; [|done].
      unfold not_below. apply Qlt_le_weak, Qnot_le_lt. intros Hle.
      apply not_true_iff_false in Hc. apply Hc, descending_not_below. exact Hle.
Qed.

Lemma sort_descending l : StronglySorted (not_below key) (JS.sort (descending key) l).
Proof.
  unfold JS.sort. induction l as [|x l IH]; simpl; [constructor|].
  by apply insert_sorted_descending.
Qed.
End Descending.

(** ** The error analyzer *)

Lemma indexOf_first (d : nat -> Q) (l : list nat) (i : nat) :
  i ∈ l ->
  (forall j, j ∈ l -> j <> i -> ~ (d j == d i)%Q) ->
  NoDup l ->
  exists k, JS.indexOf (d i) (map d l) = Some k /\ l !! k = Some i.
Proof.
  induction l as [|x l IH]; intros Hi Hd Hnd; [by apply elem_of_nil in Hi|].
  simpl. destruct (Qeq_bool (d x) (d i)) eqn:Heq.
  - exists 0%nat. split; [done|]. simpl.
    destruct (decide (x = i)) as [->|Hne]; [done|].
    apply Qeq_bool_iff in Heq. exfalso. eapply Hd; [|exact Hne|exact Heq].
    apply list_elem_of_here.
  - apply NoDup_cons in Hnd as [Hx Hnd].
    apply elem_of_cons in Hi as [->|Hi].
    + rewrite Qeq_bool_refl in Heq. discriminate.
    + destruct IH as (k & Hk & Hlk); [done| |done|].
      * intros j Hj. apply Hd. by apply list_elem_of_further.
      * exists (S k). rewrite Hk. done.
Qed.

Lemma at_index_Ok {A} (l : list A) (i : nat) (x : A) :
  l !! i = Some x -> at_index l i = Ok x.
Proof. unfold at_index. by intros ->. Qed.

Lemma lookup_nth_lt {A} (l : list A) (i : nat) (d : A) :
  (i < length l)%nat -> l !! i = Some (nth i l d).
Proof.
  intros Hi. destruct (nth_lookup_or_length l i d) as [->|]; [done|lia].
Qed.

Lemma outcome_bind_Ok {A B} (a : A) (k : A -> outcome B) : (Ok a ≫= k) = k a.
Proof. reflexivity. Qed.

Lemma predict_rows_Ok env (mlr : MLR) (X : list (list Q)) :
  X <> [] -> predict_rows env mlr X = Ok (map (MLR_predict env mlr) X).
Proof. by destruct X. Qed.

Section WorstPredictions.
Context {V : Type} `{Titled V} (env : Env) (videos : list V) (mlr : MLR).
Context (X : list (list Q)) (Y : list Q).
Context (HY : length Y = length X).

Lemma prediction_lookup i :
  (i < length X)%nat ->
  map (MLR_predict env mlr) X !! i = Some (MLR_predict env mlr (nth i X [])).
Proof.
  intros Hi. rewrite list_lookup_fmap. by rewrite (lookup_nth_lt X i []).
Qed.

Lemma diffs_computed :
  mapM (fun '(i, pred) => y ← at_index Y i; mret (Qabs (pred - y)))
       (imap pair (map (MLR_predict env mlr) X))
  = Ok (map (absDelta env mlr X Y) (seq 0 (length X))).
Proof.
  rewrite (mapM_Ok _ (fun '(i, pred) => Qabs (pred - nth i Y 0%Q))).
  - f_equal. apply list_eq. intros i.
    rewrite !list_lookup_fmap, list_lookup_imap.
    destruct (decide (i < length X)%nat) as [Hi|Hi].
    + rewrite prediction_lookup, lookup_seq_lt by done. done.
    + rewrite lookup_seq_ge by lia.
      replace (map (MLR_predict env mlr) X !! i) with (@None Q); [done|].
      symmetry. apply lookup_ge_None. rewrite length_map. lia.
  - intros [i p] Hin. apply list_elem_of_lookup in Hin as [k Hk].
    rewrite list_lookup_imap in Hk.
    destruct (map (MLR_predict env mlr) X !! k) eqn:Hp; [|done]. simpl in Hk.
    injection Hk as <- <-.
    apply lookup_lt_Some in Hp. rewrite length_map in Hp.
    rewrite (at_index_Ok Y k (nth k Y 0%Q)); [done|].
    apply lookup_nth_lt. lia.
Qed.

Context (Hdistinct : forall i j, (i < j < length X)%nat ->
                       ~ (absDelta env mlr X Y i == absDelta env mlr X Y j)%Q).

Lemma indexOf_diffs i :
  (i < length X)%nat ->
  JS.indexOf (absDelta env mlr X Y i) (map (absDelta env mlr X Y) (seq 0 (length X)))
  = Some i.
Proof.
  intros Hi.
  destruct (indexOf_first (absDelta env mlr X Y) (seq 0 (length X)) i)
    as (k & Hk & Hlk).
  - apply elem_of_seq. lia.
  - intros j Hj Hne Heq. apply elem_of_seq in Hj.
    destruct (decide (j < i)%nat).
    + apply (Hdistinct j i); [lia|done].
    + apply (Hdistinct i j); [lia|]. by symmetry.
  - apply NoDup_seq.
  - apply lookup_seq in Hlk as [-> _]. exact Hk.
Qed.

Lemma worstIndices_computed (l : list nat) :
  Forall (fun i => (i < length X)%nat) l ->
  map (fun dv => JS.indexOf dv (map (absDelta env mlr X Y) (seq 0 (length X))))
      (map (absDelta env mlr X Y) l)
  = map Some l.
Proof.
  induction 1 as [|i l Hi _ IH]; simpl; [done|].
  by rewrite indexOf_diffs, IH.
Qed.

Context (Hvideos : length videos = length X).

Lemma entries_computed (l : list nat) :
  Forall (fun i => (i < length X)%nat) l ->
  exists preds,
    mapM (worstPrediction env videos Y (map (MLR_predict env mlr) X))
         (map Some l) = Ok preds /\
    Forall2 (fun i p => title_of <$> videos !! i = Some (p_title p)
                        /\ delta p = signedDelta env mlr X Y i) l preds.
Proof.
  intros Hl.
  edestruct (mapM_Ok_Forall2
               (worstPrediction env videos Y (map (MLR_predict env mlr) X))
               (fun (idx : option nat) p =>
                  from_option (fun i => title_of <$> videos !! i = Some (p_title p)
                                        /\ delta p = signedDelta env mlr X Y i)
                              False idx)) as (preds & Hm & Hall);
    [|exists preds; split; [exact Hm|]].
  - intros idx Hidx. apply list_elem_of_fmap in Hidx as (i & -> & Hi).
    eapply Forall_forall in Hl; [|exact Hi]. simpl in Hl.
    destruct (lookup_lt_is_Some_2 videos i) as [v Hv]; [lia|].
    eexists. split.
    + unfold worstPrediction. simpl. rewrite (at_index_Ok _ _ _ Hv). simpl.
      rewrite (at_index_Ok Y i (nth i Y 0%Q)) by (apply lookup_nth_lt; lia).
      simpl. rewrite (at_index_Ok _ _ _ (prediction_lookup i Hl)). reflexivity.
    + simpl. rewrite Hv. done.
  - apply Forall2_fmap_l in Hall. exact Hall.
Qed.
End WorstPredictions.

Lemma StronglySorted_lookup {A} (R : A -> A -> Prop) (l : list A) a b x y :
  StronglySorted R l -> (a < b)%nat -> l !! a = Some x -> l !! b = Some y -> R x y.
Proof.
  intros Hs. revert a b. induction Hs as [|z l Hs IH Hz]; intros a b Hab Ha Hb.
  - by rewrite lookup_nil in Ha.
  - destruct b as [|b]; [lia|]. simpl in Hb. destruct a as [|a].
    + simpl in Ha. injection Ha as ->.
      eapply Forall_forall in Hz; [exact Hz|]. eapply list_elem_of_lookup_2, Hb.
    + simpl in Ha. eapply IH; [|exact Ha|exact Hb]. lia.
Qed.

(** C5, amended. On at least one row and without ties among the absolute
    residuals, the analyzer returns the [min 20 n] rows of largest
    [|signedDelta|], each once, in strictly decreasing order of
    [|signedDelta|]; the number of rows returned is the constant 20, not an
    argument. *)
Theorem getWorstPredictions_without_ties {V} `{Titled V} (env : Env)
    (videos : list V) (mlr : MLR) (X : list (list Q)) (Y : list Q) :
  X <> [] ->
  length videos = length X ->
  length Y = length X ->
  (forall i j, (i < j < length X)%nat ->
     ~ (Qabs (signedDelta env mlr X Y i) == Qabs (signedDelta env mlr X Y j))%Q) ->
  exists (idxs : list nat) (preds : list iPrediction),
    getWorstPredictions env videos mlr X Y = Ok preds /\
    Forall2 (fun i p => title_of <$> videos !! i = Some (p_title p)
                        /\ delta p = signedDelta env mlr X Y i) idxs preds /\
    length idxs = Nat.min 20 (length X) /\
    NoDup idxs /\
    (forall a b i j, (a < b)%nat -> idxs !! a = Some i -> idxs !! b = Some j ->
       (Qabs (signedDelta env mlr X Y j) < Qabs (signedDelta env mlr X Y i))%Q) /\
    (forall i j, (i < length X)%nat -> i ∉ idxs -> j ∈ idxs ->
       (Qabs (signedDelta env mlr X Y i) < Qabs (signedDelta env mlr X Y j))%Q).
Proof.
  intros Hrows Hvideos HY Hdistinct.
  set (n := length X) in *.
  change (forall i j, (i < j < n)%nat ->
            ~ (absDelta env mlr X Y i == absDelta env mlr X Y j)%Q) in Hdistinct.
  change (fun i => Qabs (signedDelta env mlr X Y i)) with (absDelta env mlr X Y).
  set (d := absDelta env mlr X Y) in *.
  set (sidx := JS.sort (descending d) (seq 0 n)).
  assert (Hperm : sidx ≡ₚ seq 0 n) by apply sort_Permutation.
  assert (Hsorted : StronglySorted (not_below d) sidx) by apply sort_descending.
  assert (Hnd : NoDup sidx) by (rewrite Hperm; apply NoDup_seq).
  assert (Hlt : forall i, i ∈ sidx <-> (i < n)%nat).
  { intros i. rewrite Hperm, elem_of_seq. lia. }
  assert (Hstrict : forall a b i j, (a < b)%nat -> sidx !! a = Some i ->
            sidx !! b = Some j -> (d j < d i)%Q).
  { intros a b i j Hab Ha Hb.
    pose proof (StronglySorted_lookup _ _ _ _ _ _ Hsorted Hab Ha Hb) as Hle.
    simpl in Hle. apply Qle_lt_or_eq in Hle as [Hl|Heq]; [done|exfalso].
    assert (i <> j) as Hne.
    { intros ->. pose proof (NoDup_lookup _ _ _ _ Hnd Ha Hb). lia. }
    assert (i < n)%nat by (apply Hlt; eapply list_elem_of_lookup_2, Ha).
    assert (j < n)%nat by (apply Hlt; eapply list_elem_of_lookup_2, Hb).
    destruct (decide (i < j)%nat).
    - apply (Hdistinct i j); [lia|]. by symmetry.
    - apply (Hdistinct j i); [lia|done]. }
  assert (Hin : Forall (fun i => (i < n)%nat) (take 20 sidx)).
  { apply Forall_forall. intros i Hi. apply Hlt.
    apply elem_of_take in Hi as (k & Hk & _). eapply list_elem_of_lookup_2, Hk. }
  destruct (entries_computed env videos mlr X Y HY Hvideos (take 20 sidx) Hin)
    as (preds & Hm & Hall).
  exists (take 20 sidx), preds. repeat split.
  - unfold getWorstPredictions.
    rewrite predict_rows_Ok, outcome_bind_Ok by done. cbv beta.
    rewrite (diffs_computed env mlr X Y HY).
    cbv beta iota delta [mbind outcome_bind].
    rewrite (sort_map (absDelta env mlr X Y) (fun a b => (b - a)%Q)).
    change (JS.sort _ (seq 0 (length X))) with sidx.
    change 20%Z with (Z.of_nat 20). rewrite slice_prefix, firstn_map.
    rewrite (worstIndices_computed env mlr X Y HY Hdistinct _ Hin). exact Hm.
  - exact Hall.
  - rewrite length_take, Hperm, length_seq. done.
  - apply NoDup_alt. intros a b i Ha Hb.
    apply lookup_take_Some in Ha as [Ha _]. apply lookup_take_Some in Hb as [Hb _].
    eapply NoDup_lookup; eauto.
  - intros a b i j Hab Ha Hb.
    apply lookup_take_Some in Ha as [Ha _]. apply lookup_take_Some in Hb as [Hb _].
    eapply Hstrict; eauto.
  - intros i j Hi Hni Hj.
    apply list_elem_of_lookup in Hj as [q Hq].
    apply lookup_take_Some in Hq as [Hq Hq20].
    apply Hlt in Hi. apply list_elem_of_lookup in Hi as [p Hp].
    assert (20 <= p)%nat.
    { destruct (decide (20 <= p)%nat); [done|]. exfalso. apply Hni.
      eapply list_elem_of_lookup_2. apply lookup_take_Some. split; [exact Hp|lia]. }
    eapply (Hstrict q p); [lia|exact Hq|exact Hp].
Qed.

(** ** Reasoning about effectful code *)

Section RunSpec.
Context {A B : Type} (P : Event -> Prop).

Lemma run_spec_ret (a : A) w (R : A -> Prop) : R a -> run_spec (mret a) w P R.
Proof.
  intros HR o w' [= <- <-]. exists []. rewrite app_nil_r.
  repeat split; [constructor|]. by intros ? [= <-].
Qed.

Lemma run_spec_throw e w (R : A -> Prop) : run_spec (throw e) w P R.
Proof.
  intros o w' [= <- <-]. exists []. rewrite app_nil_r.
  repeat split; [constructor|]. intros ? [=].
Qed.

Lemma run_spec_lift (o : outcome A) w (R : A -> Prop) :
  (forall a, o = Ok a -> R a) -> run_spec (lift o) w P R.
Proof.
  intros HR o' w' [= <- <-]. exists []. rewrite app_nil_r.
  repeat split; [constructor|done].
Qed.

Lemma run_spec_bind (m : M A) (k : A -> M B) w (R1 : A -> Prop) (R : B -> Prop) :
  run_spec m w P R1 ->
  (forall a w1, R1 a -> run_spec (k a) w1 P R) ->
  run_spec (m ≫= k) w P R.
Proof.
  intros Hm Hk o w'. unfold mbind, M_bind, bind.
  destruct (m w) as [o1 w1] eqn:Hrun.
  destruct (Hm _ _ Hrun) as (evs1 & -> & HP1 & HR1).
  destruct o1 as [a|e|].
  - intros Hka. destruct (Hk a _ (HR1 a eq_refl) _ _ Hka) as (evs2 & -> & HP2 & HR2).
    exists (evs1 ++ evs2). rewrite app_assoc. repeat split; [|done].
    by apply Forall_app.
  - intros [= <- <-]. exists evs1. repeat split; [done|]. intros ? [=].
  - intros [= <- <-]. exists evs1. repeat split; [done|]. intros ? [=].
Qed.
End RunSpec.

Section RunSpecEnv.
Context (env : Env) (P : Event -> Prop).

Lemma run_spec_writeFileSync f w :
  P (WriteFile f) -> run_spec (writeFileSync env f) w P (fun _ => True).
Proof.
  intros HP o w' [= <- <-]. exists [WriteFile f].
  split; [done|]. split; [by repeat constructor|done].
Qed.

Lemma run_spec_writeFile_unawaited f w :
  P (WriteFile f) -> run_spec (writeFile_unawaited f) w P (fun _ => True).
Proof.
  intros HP o w' [= <- <-]. exists [WriteFile f].
  split; [done|]. split; [by repeat constructor|done].
Qed.

Lemma run_spec_shuffle videos w :
  P RandomSort ->
  run_spec (shuffle env videos) w P (fun r => r = random_sort env w videos).
Proof.
  intros HP o w' [= <- <-]. exists [RandomSort].
  split; [done|]. split; [by repeat constructor|]. by intros ? [= <-].
Qed.

Lemma run_spec_askRankings model batch fs w :
  P (AskRankings model batch fs) ->
  run_spec (askRankings env model batch fs) w P (fun _ => True).
Proof.
  intros HP o w' [= <- <-]. exists [AskRankings model batch fs].
  split; [done|]. split; [by repeat constructor|done].
Qed.

Lemma run_spec_askFeature fs predictions failed w :
  P (AskFeature fs predictions failed) ->
  run_spec (askFeature env fs predictions failed) w P
           (fun f => Client_feature env w fs predictions failed = Ok f).
Proof.
  intros HP o w' [= <- <-]. exists [AskFeature fs predictions failed].
  split; [done|]. split; [by repeat constructor|]. by intros ? ->.
Qed.
End RunSpecEnv.

Lemma run_spec_bind_lift {A B} (P : Event -> Prop) (o : outcome A) (k : A -> M B) w
    (R : B -> Prop) :
  (forall a, o = Ok a -> run_spec (k a) w P R) ->
  run_spec (lift o ≫= k) w P R.
Proof.
  intros Hk o' w'. unfold mbind, M_bind, bind, lift.
  destruct o as [a|e|].
  - apply Hk. done.
  - intros [= <- <-]. exists []. rewrite app_nil_r.
    split; [done|]. split; [constructor|]. intros ? [=].
  - intros [= <- <-]. exists []. rewrite app_nil_r.
    split; [done|]. split; [constructor|]. intros ? [=].
Qed.


(** A value that a run returns is the value of that run. *)
Lemma run_spec_returned {A} (P : Event -> Prop) (m : M A) w (R : A -> Prop) :
  run_spec m w P R ->
  run_spec m w P (fun a => R a /\ exists w', m w = (Ok a, w')).
Proof.
  intros Hm o w' Hrun. destruct (Hm o w' Hrun) as (evs & -> & Hevs & HR).
  exists evs. split; [done|]. split; [done|].
  intros a ->. split; [by apply HR|]. by exists (w ++ evs).
Qed.

Section Collaborations.
Context (env : Env) (P : Event -> Prop).
Context (HP : forall ev, quiet ev -> P ev).

Lemma run_spec_rankLoop {V} `{Titled V} fuel (videos : list V) fs model rankings
    failures w :
  run_spec (rankLoop env fuel videos fs model rankings failures) w P (fun _ => True).
Proof.
  revert rankings failures w.
  induction fuel as [|fuel IH]; intros rankings failures w; simpl.
  - by apply run_spec_lift.
  - case_if; [by apply run_spec_ret|].
    case_if; [by apply run_spec_ret|].
    eapply run_spec_bind with (R1 := fun _ => True).
    + case_if; [|by apply run_spec_ret].
      case_if; [apply run_spec_throw|by apply run_spec_ret].
    + intros failures' w1 _.
      eapply run_spec_bind; [by apply run_spec_askRankings, HP|].
      intros batchRankings w2 _. apply IH.
Qed.

Lemma run_spec_rankVideos {V} `{Titled V} fuel (videos : list V) fs model w :
  run_spec (rankVideos env fuel videos fs model) w P (fun _ => True).
Proof.
  unfold rankVideos.
  eapply run_spec_bind; [apply run_spec_rankLoop|].
  intros rankings w1 _.
  eapply run_spec_bind; [by apply run_spec_writeFileSync, HP|].
  intros _ w2 _. by apply run_spec_ret.
Qed.

Lemma run_spec_reportLogErrors predLog actualLog mlr w :
  run_spec (reportLogErrors env predLog actualLog mlr) w P
           (fun r => r = logErrorResults env predLog actualLog mlr).
Proof.
  unfold reportLogErrors. case_if; [apply run_spec_throw|].
  eapply run_spec_bind; [by apply run_spec_writeFileSync, HP|].
  intros _ w1 _. by apply run_spec_ret.
Qed.

Lemma run_spec_addFeature fs predictions failedFeatures w :
  (forall failed, map Some failed = failedFeatures ->
                  P (AskFeature fs predictions failed)) ->
  run_spec (addFeature env fs predictions failedFeatures) w P
           (fun f => exists failed w1,
                map Some failed = failedFeatures /\
                Client_feature env w1 fs predictions failed = Ok f).
Proof.
  intros Hask. unfold addFeature.
  apply run_spec_bind_lift. intros failed Hfailed.
  assert (map Some failed = failedFeatures) as Hall.
  { clear -Hfailed. revert failed Hfailed.
    induction failedFeatures as [|[f|] l IH]; intros failed; simpl.
    - by intros [= <-].
    - destruct (mapM _ l) as [k| |] eqn:Hk; simpl; intros [= <-].
      simpl. f_equal. by apply IH.
    - intros [=]. }
  eapply run_spec_bind; [by apply run_spec_writeFile_unawaited, HP|].
  intros _ w1 _.
  eapply run_spec_bind; [by apply run_spec_askFeature, Hask|].
  intros f w2 Hf.
  eapply run_spec_bind; [by apply run_spec_writeFileSync, HP|].
  intros _ w3 _. apply run_spec_ret. exists failed, w1. by split.
Qed.
End Collaborations.

(** ** One Reflexion step *)

Lemma quiet_askedAsDesigned env input w ev : quiet ev -> askedAsDesigned env input w ev.
Proof. by destruct ev. Qed.

Lemma reflexionStep_spec env fuel input w :
  run_spec (reflexionStep env fuel input) w (askedAsDesigned env input w)
           (fun results => exists t, StepFacts env input w results t).
Proof.
  pose proof (quiet_askedAsDesigned env input w) as HP.
  unfold reflexionStep.
  eapply run_spec_bind; [by apply run_spec_shuffle|].
  intros shuffled w1 ->. cbv zeta.
  rewrite slice_prefix, slice_suffix.
  change (random_sort env w (in_videos input)) with (shuffledData env input w).
  fold (trainingSplit env input w) (validationSplit env input w).
  apply run_spec_bind_lift. intros [[mlr X] Y] Htrain. cbv beta iota.
  apply run_spec_bind_lift. intros [best worst] Hupd. cbv beta iota.
  apply run_spec_bind_lift. intros preds Hpreds.
  apply run_spec_bind_lift. intros has Hhas.
  eapply run_spec_bind.
  { apply run_spec_addFeature; [exact HP|].
    intros failed Hfailed. simpl. exists mlr, X, Y, worst, has. by repeat split. }
  intros newF w2 (failed & wa & Hfailed & Hclient).
  eapply run_spec_bind; [by apply run_spec_returned, run_spec_rankVideos|].
  intros r1 w3 [_ [w3' Hr1]].
  apply run_spec_bind_lift. intros [[newModel X'] Y'] Hre. cbv beta iota.
  eapply run_spec_bind; [by apply run_spec_reportLogErrors|]. intros prev w4 ->.
  eapply run_spec_bind; [by apply run_spec_returned, run_spec_rankVideos|].
  intros r2 w5 [_ [w5' Hr2]].
  eapply run_spec_bind; [by apply run_spec_reportLogErrors|]. intros new w6 ->.
  eapply run_spec_bind; [by apply run_spec_writeFileSync|]. intros _ w7 _.
  eapply run_spec_bind; [by apply run_spec_writeFileSync|]. intros _ w8 _.
  eapply run_spec_bind; [by apply run_spec_writeFileSync|]. intros _ w9 _.
  apply run_spec_ret.
  exists {| t_mlr := mlr; t_X := X; t_Y := Y; t_bestFeatures := best;
            t_worstFeature := worst; t_worstPredictions := preds;
            t_hasWorstFeature := has; t_asked := failed; t_askedIn := wa;
            t_newRankings := r1; t_validation_rankings := r2;
            t_newModel := newModel |}.
  constructor; simpl; try done; [by exists fuel, w2, w3'|by exists X', Y'
                                 |by exists fuel, w4, w5'].
Qed.

Lemma reflexionStep_Ok env fuel input w results w' :
  reflexionStep env fuel input w = (Ok results, w') ->
  exists t, StepFacts env input w results t.
Proof.
  intros Hrun. destruct (reflexionStep_spec env fuel input w _ _ Hrun) as (_ & _ & _ & H).
  by apply H.
Qed.

Lemma sumAbsLogError_fold env (l : list (Q * Q)) (acc : iSums) :
  sumAbsLogError (fold_left (accumulate env) l acc)
  = fold_left Qplus (map (fun '(p, a) => Qabs (p - a)) l) (sumAbsLogError acc).
Proof.
  revert acc. induction l as [|[p a] l IH]; intros acc; simpl; [done|].
  by rewrite IH.
Qed.

Lemma averageLogError_mean env (predLog actualLog : list Q) (mlr : option MLR) :
  averageLogError (logErrorResults env predLog actualLog mlr)
  = meanAbsResidual predLog actualLog.
Proof.
  unfold logErrorResults, meanAbsResidual. simpl.
  rewrite sumAbsLogError_fold. simpl. do 2 f_equal.
  clear. revert actualLog.
  induction predLog as [|p l IH]; intros [|a k]; simpl; try done.
  by rewrite IH.
Qed.

(** ** One iteration of the run *)

(** A step that returns was given a history without [undefined], so the
    [console.log] that follows the decision reads every name. *)
Lemma completed_step_history env input w results t :
  StepFacts env input w results t ->
  forall o, o ∈ in_failedFeatures input -> is_Some o.
Proof.
  intros Ht o Ho. pose proof (fact_asked _ _ _ _ _ Ht) as Hasked.
  assert (o ∈ map Some (t_asked t)) as Hin.
  { rewrite Hasked. case_if; [done|]. apply elem_of_app. by left. }
  apply list_elem_of_fmap in Hin as (f & -> & _). eauto.
Qed.

Lemma iteration_completed env fuel dir index st w results w' :
  reflexionStep env fuel (stepInput st dir index) w = (Ok results, w') ->
  iteration env fuel dir index st w = (Ok (decide_step st results), w').
Proof.
  intros Hrun. unfold iteration. rewrite Hrun.
  destruct (reflexionStep_Ok _ _ _ _ _ _ Hrun) as [t Ht].
  destruct (improved results) eqn:Himp; [done|].
  replace (names_readable _) with true; [done|].
  symmetry. unfold decide_step. rewrite Himp. simpl.
  apply forallb_forall. intros o Ho. apply bool_decide_eq_true.
  apply list_elem_of_In, elem_of_app in Ho as [Ho| ->%list_elem_of_singleton]; [|eauto].
  by eapply (completed_step_history _ _ _ _ _ Ht).
Qed.

Lemma iteration_skipped env fuel dir index st w e w' :
  reflexionStep env fuel (stepInput st dir index) w = (Throw e, w') ->
  iteration env fuel dir index st w = (Ok st, w' ++ [ConsoleError index e]).
Proof.
  intros Hrun. unfold iteration. by rewrite Hrun.
Qed.

(** C1. When the step of an iteration returns, the iteration ends in a
    state whose active features are the candidate set if the new model's
    mean absolute log residual on the validation split is strictly below
    the old model's, and are the active features it started with if it is
    not. *)
Theorem acceptance_iff_strict_improvement env fuel dir index st w results w' :
  reflexionStep env fuel (stepInput st dir index) w = (Ok results, w') ->
  exists t st',
    StepFacts env (stepInput st dir index) w results t /\
    iteration env fuel dir index st w = (Ok st', w') /\
    let validation := validationSplit env (stepInput st dir index) w in
    let target := map (fun v : iFeaturedVideo => Math_log env (views v + 1)%Q) validation in
    let oldError :=
      meanAbsResidual
        (map (MLR_predict env (t_mlr t)) (map (inputRow (run_features st)) validation))
        target in
    let newError :=
      meanAbsResidual
        (map (MLR_predict env (t_newModel t))
             (map (inputRow (out_features results))
                  (map (scored (newFeature results) (t_validation_rankings t))
                       validation)))
        target in
    ((newError < oldError)%Q -> run_features st' = out_features results) /\
    (~ (newError < oldError)%Q -> run_features st' = run_features st).
Proof.
  intros Hrun.
  destruct (reflexionStep_Ok _ _ _ _ _ _ Hrun) as [t Ht].
  pose proof (iteration_completed _ _ _ _ _ _ _ _ Hrun) as Hit.
  exists t, (decide_step st results). split; [done|]. split; [done|].
  cbv zeta. rewrite (fact_features _ _ _ _ _ Ht).
  rewrite <- (averageLogError_mean env (map (MLR_predict env (t_mlr t)) _) _
                (Some (t_mlr t))).
  rewrite <- (averageLogError_mean env (map (MLR_predict env (t_newModel t)) _) _
                (Some (t_newModel t))).
  pose proof (fact_previous _ _ _ _ _ Ht) as Hprev.
  pose proof (fact_new _ _ _ _ _ Ht) as Hnew. simpl in Hprev.
  rewrite <- Hprev, <- Hnew.
  unfold decide_step, improved.
  destruct (JS.ltb _ _) eqn:Hcmp; simpl.
  - split; [intros _; apply (fact_features _ _ _ _ _ Ht)|].
    intros Hn. exfalso. apply Hn. by apply ltb_lt.
  - split; [|done]. intros Hl. apply ltb_lt in Hl. congruence.
Qed.

(** C6. When anything inside the step of an iteration throws, the
    iteration catches it: the active features, the rejected history and the
    video store are what they were, and the loop goes on with the next
    index. *)
Theorem failed_step_is_skipped env fuel dir index st w e w' :
  reflexionStep env fuel (stepInput st dir index) w = (Throw e, w') ->
  iteration env fuel dir index st w = (Ok st, w' ++ [ConsoleError index e]) /\
  forall count,
    reflexionLoop env fuel dir (S count) index st w
    = reflexionLoop env fuel dir count (S index) st (w' ++ [ConsoleError index e]).
Proof.
  intros Hrun. pose proof (iteration_skipped _ _ _ _ _ _ _ _ Hrun) as Hit.
  split; [exact Hit|]. intros count. simpl.
  unfold mbind, M_bind, bind. by rewrite Hit.
Qed.

Lemma some_named_true nm l :
  some_named nm l = Ok true -> exists g, Some g ∈ l /\ name g = nm.
Proof.
  induction l as [|[f|] l IH]; simpl; [done| |done].
  destruct (name f =? nm) eqn:Heq.
  - intros _. exists f. split; [apply list_elem_of_here|]. by apply String.eqb_eq.
  - intros H. destruct (IH H) as (g & Hg & Hn). exists g.
    split; [by apply list_elem_of_further|done].
Qed.


Lemma scored_has_score f rankings v :
  is_Some (features (scored f rankings v) !! name f).
Proof. unfold scored. simpl. rewrite lookup_insert_eq. eauto. Qed.


(** ** The invariant of the run *)

Lemma updateFeatures_Ok fs mlr best worst :
  updateFeatures fs mlr = Ok (best, worst) ->
  exists i, fs !! i = Some worst /\ best = JS.remove_index i fs.
Proof.
  unfold updateFeatures. case_if; [done|].
  unfold at_index. destruct (fs !! _) as [x|] eqn:Hx; [|done].
  simpl. intros [= <- <-]. eauto.
Qed.

Lemma find_after_prefix {A} (p : A -> bool) (l1 l2 : list A) (x : A) :
  (forall y, y ∈ l1 -> p y = false) -> p x = true ->
  List.find p (l1 ++ x :: l2) = Some x.
Proof.
  intros Hl1 Hx. induction l1 as [|y l1 IH]; simpl.
  - by rewrite Hx.
  - rewrite (Hl1 y) by apply list_elem_of_here. apply IH.
    intros z Hz. apply Hl1. by apply list_elem_of_further.
Qed.

Lemma existsb_name_true (fs : list iFeature) (f : iFeature) :
  f ∈ fs -> existsb (fun uf => name uf =? name f) fs = true.
Proof.
  intros Hf. apply existsb_exists. exists f. split.
  - by apply list_elem_of_In.
  - apply String.eqb_refl.
Qed.

Lemma existsb_name_false (fs : list iFeature) (f : iFeature) :
  name f ∉ map name fs -> existsb (fun uf => name uf =? name f) fs = false.
Proof.
  intros Hf. apply not_true_iff_false. intros He.
  apply existsb_exists in He as (g & Hg & Heq). apply Hf.
  apply String.eqb_eq in Heq. rewrite <- Heq.
  apply list_elem_of_fmap. exists g. split; [done|]. by apply list_elem_of_In.
Qed.

Section Pruned.
Context (fs : list iFeature) (i : nat) (worst : iFeature).
Context (Hi : fs !! i = Some worst) (Hnd : NoDup (map name fs)).

Lemma pruned_split : fs = take i fs ++ worst :: drop (S i) fs.
Proof. symmetry. by apply take_drop_middle. Qed.

Lemma pruned_names :
  map name fs = map name (take i fs) ++ name worst :: map name (drop (S i) fs).
Proof. rewrite pruned_split at 1. by rewrite map_app. Qed.

Lemma pruned_NoDup : NoDup (map name (JS.remove_index i fs)).
Proof.
  rewrite pruned_names in Hnd. unfold JS.remove_index. rewrite map_app.
  apply NoDup_app in Hnd as (H1 & H2 & H3). apply NoDup_cons in H3 as [H3 H4].
  apply NoDup_app. repeat split; [done| |done].
  intros x Hx Hx'. eapply H2; [exact Hx|]. by apply list_elem_of_further.
Qed.

Lemma pruned_worst_name : name worst ∉ map name (JS.remove_index i fs).
Proof.
  rewrite pruned_names in Hnd. unfold JS.remove_index. rewrite map_app.
  apply NoDup_app in Hnd as (H1 & H2 & H3). apply NoDup_cons in H3 as [H3 H4].
  intros [Hx|Hx]%elem_of_app; [|done].
  eapply H2; [exact Hx|]. apply list_elem_of_here.
Qed.

Lemma pruned_length : S (length (JS.remove_index i fs)) = length fs.
Proof.
  unfold JS.remove_index.
  rewrite length_app, length_take, length_drop.
  pose proof (lookup_lt_Some _ _ _ Hi). lia.
Qed.

Lemma pruned_elem f : f ∈ fs <-> f = worst \/ f ∈ JS.remove_index i fs.
Proof.
  rewrite pruned_split at 1. unfold JS.remove_index.
  rewrite !elem_of_app, elem_of_cons. tauto.
Qed.

Lemma pruned_find (newF : iFeature) :
  name newF <> name worst ->
  List.find (fun f => negb (existsb (fun uf => name uf =? name f)
                                    (JS.remove_index i fs ++ [newF])))
            fs
  = Some worst.
Proof.
  intros Hne. rewrite pruned_split at 1. apply find_after_prefix.
  - intros y Hy. apply negb_false_iff, existsb_name_true.
    apply elem_of_app. left. unfold JS.remove_index.
    apply elem_of_app. by left.
  - apply negb_true_iff, existsb_name_false. rewrite map_app.
    intros [Hx|Hx]%elem_of_app; [by apply pruned_worst_name|].
    apply list_elem_of_singleton in Hx. congruence.
Qed.
End Pruned.

Lemma find_single {A} (p : A -> bool) (l1 l2 : list A) (x : A) :
  (forall y, y ∈ l1 ++ l2 -> p y = false) ->
  List.find p (l1 ++ x :: l2) = if p x then Some x else None.
Proof.
  intros Hl. induction l1 as [|y l1 IH]; simpl.
  - destruct (p x); [done|]. induction l2 as [|z l2 IH2]; simpl; [done|].
    rewrite (Hl z) by apply list_elem_of_here. apply IH2.
    intros u Hu. apply Hl. by apply list_elem_of_further.
  - rewrite (Hl y) by apply list_elem_of_here. apply IH.
    intros z Hz. apply Hl. by apply list_elem_of_further.
Qed.

(** What a returned step reports as the evicted feature: the pruned
    feature, unless its name is borne by a feature of the candidate set;
    then [undefined]. *)
Lemma evicted_feature_or_undefined env input w results t :
  StepFacts env input w results t ->
  failedFeature results
  = if existsb (fun uf => name uf =? name (t_worstFeature t)) (out_features results)
    then None
    else Some (t_worstFeature t).
Proof.
  intros Ht.
  destruct (updateFeatures_Ok _ _ _ _ (fact_pruned _ _ _ _ _ Ht)) as (i & Hi & Hbest).
  rewrite (fact_failed _ _ _ _ _ Ht), (fact_features _ _ _ _ _ Ht).
  rewrite <- (take_drop_middle _ _ _ Hi) at 1.
  rewrite find_single.
  - by destruct (existsb _ _).
  - intros y Hy. apply negb_false_iff, existsb_name_true.
    apply elem_of_app. left. by rewrite Hbest.
Qed.


Lemma iteration_cases env fuel dir index st w st' w' :
  iteration env fuel dir index st w = (Ok st', w') ->
  st' = st \/
  exists results w1,
    reflexionStep env fuel (stepInput st dir index) w = (Ok results, w1) /\
    st' = decide_step st results.
Proof.
  unfold iteration.
  destruct (reflexionStep _ _ _ _) as [[results|e|] w1]; [| |done].
  - case_if; intros [= <- _]; right; by exists results, w1.
  - intros [= <- _]. by left.
Qed.

Lemma decide_step_well_formed env K st dir index w results t :
  proposer_contract env ->
  well_formed K st ->
  StepFacts env (stepInput st dir index) w results t ->
  well_formed K (decide_step st results).
Proof.
  intros Hcontract (Hlen & Hnd & Hsome & Hdisj) Ht.
  destruct (updateFeatures_Ok _ _ _ _ (fact_pruned _ _ _ _ _ Ht)) as (i & Hi & Hbest).
  simpl in Hi, Hbest.
  set (newF := newFeature results) in *.
  set (worst := t_worstFeature t) in *.
  set (fs := run_features st) in *.
  set (failed := run_failedFeatures st) in *.
  destruct (Hcontract _ _ _ _ _ (fact_proposed _ _ _ _ _ Ht)) as [Hfresh1 Hfresh2].
  fold newF in Hfresh1, Hfresh2. rewrite Hbest in Hfresh1.
  pose proof (fact_asked _ _ _ _ _ Ht) as Hasked.
  pose proof (fact_has _ _ _ _ _ Ht) as Hhas. simpl in Hasked, Hhas.
  fold failed worst in Hasked, Hhas.
  assert (Hfailed_asked : forall g, Some g ∈ failed -> g ∈ t_asked t).
  { intros g Hg. apply (list_elem_of_fmap_inj_2 Some).
    change (Some g ∈ map Some (t_asked t)). rewrite Hasked.
    case_if; [done|]. apply elem_of_app. by left. }
  assert (Hworst_asked : name worst ∈ map name (t_asked t)).
  { destruct (t_hasWorstFeature t).
    - destruct (some_named_true _ _ Hhas) as (g & Hg & <-).
      apply list_elem_of_fmap_2, Hfailed_asked, Hg.
    - apply list_elem_of_fmap_2, (list_elem_of_fmap_inj_2 Some).
      change (Some worst ∈ map Some (t_asked t)). rewrite Hasked.
      apply elem_of_app. right. apply list_elem_of_here. }
  assert (Hnew_worst : name newF <> name worst) by (intros Heq; by rewrite Heq in Hfresh2).
  assert (Hnew_failed : forall g, Some g ∈ failed -> name newF <> name g).
  { intros g Hg Heq. apply Hfresh2. rewrite Heq.
    by apply list_elem_of_fmap_2, Hfailed_asked. }
  assert (Hnew_active : forall f, f ∈ fs -> name f <> name newF).
  { intros f [->|Hf]%(pruned_elem fs i worst Hi); [done|].
    intros Heq. apply Hfresh1. rewrite <- Heq. by apply list_elem_of_fmap_2. }
  pose proof (fact_features _ _ _ _ _ Ht) as Hout.
  pose proof (fact_failed _ _ _ _ _ Ht) as Hff. simpl in Hff.
  rewrite Hbest in Hout, Hff. fold newF fs in Hff, Hout.
  rewrite (pruned_find fs i worst Hi Hnd newF Hnew_worst) in Hff.
  unfold decide_step. fold failed fs. rewrite Hout, Hff.
  destruct (improved results); unfold well_formed; simpl.
  - repeat split.
    + rewrite length_app. simpl. pose proof (pruned_length fs i worst Hi). lia.
    + rewrite map_app. apply NoDup_app. repeat split.
      * by apply (pruned_NoDup fs i worst).
      * intros x Hx ->%list_elem_of_singleton. done.
      * apply NoDup_singleton.
    + intros o [Ho| ->%list_elem_of_singleton]%elem_of_app; [by apply Hsome|eauto].
    + intros f g [Hf| ->%list_elem_of_singleton]%elem_of_app
                 [Hg| [= ->]%list_elem_of_singleton]%elem_of_app.
      * apply Hdisj; [|done]. apply (pruned_elem fs i worst Hi). by right.
      * intros Heq. apply (pruned_worst_name fs i worst Hi Hnd). rewrite <- Heq.
        by apply list_elem_of_fmap_2.
      * by apply Hnew_failed.
      * done.
  - repeat split; [done|done| |].
    + intros o [Ho| ->%list_elem_of_singleton]%elem_of_app; [by apply Hsome|eauto].
    + intros f g Hf [Hg| [= ->]%list_elem_of_singleton]%elem_of_app.
      * by apply Hdisj.
      * by apply Hnew_active.
Qed.

Lemma iteration_well_formed env K fuel dir index st w st' w' :
  proposer_contract env ->
  well_formed K st ->
  iteration env fuel dir index st w = (Ok st', w') ->
  well_formed K st'.
Proof.
  intros Hcontract Hwf [->|(results & w1 & Hrun & ->)]%iteration_cases; [done|].
  destruct (reflexionStep_Ok _ _ _ _ _ _ Hrun) as [t Ht].
  by eapply decide_step_well_formed.
Qed.

(** C4. From an initial state with an empty rejected history and [K]
    active features of pairwise distinct names, and with a proposer that
    honours its contract, every state reached by iterating the Controller
    has [K] active features, no two of the same name, and no active feature
    bears the name of an entry of the rejected history: a feature is its
    name, as every membership test of the code has it. *)
Theorem reachable_invariant env st0 st :
  proposer_contract env ->
  NoDup (map name (run_features st0)) ->
  run_failedFeatures st0 = [] ->
  reachable env st0 st ->
  length (run_features st) = length (run_features st0) /\
  NoDup (map name (run_features st)) /\
  (forall f g, f ∈ run_features st -> Some g ∈ run_failedFeatures st ->
               name f <> name g).
Proof.
  intros Hcontract Hnd Hempty Hreach.
  assert (well_formed (length (run_features st0)) st) as (Hlen & Hn & _ & Hdisj).
  { induction Hreach as [|fuel dir index st w st' w' _ IH Hit].
    - repeat split; [done| |]; rewrite Hempty.
      + by intros o ?%elem_of_nil.
      + by intros f g _ ?%elem_of_nil.
    - by eapply iteration_well_formed. }
  repeat split; [done|done|exact Hdisj].
Qed.

Lemma reflexionLoop_reachable env fuel dir count index st0 st w st' w' :
  reachable env st0 st ->
  reflexionLoop env fuel dir count index st w = (Ok st', w') ->
  reachable env st0 st'.
Proof.
  revert index st w. induction count as [|count IH]; intros index st w Hreach; simpl.
  - by intros [= <- _].
  - unfold mbind, M_bind, bind.
    destruct (iteration env fuel dir index st w) as [[st1|e|] w1] eqn:Hit; [|done|done].
    apply IH. by eapply reach_iteration.
Qed.

(** ** The importance ranker, continued *)

Lemma featuresValue_lookup fs mlr j f :
  length (weights mlr) = (length fs + 6)%nat ->
  fs !! j = Some f ->
  featuresValue fs mlr !! j
  = Some {| fv_name := name f;
            importance := Qabs (nth (5 + j) (weights mlr) 0%Q) |}.
Proof.
  intros HL Hj. unfold featuresValue.
  rewrite list_lookup_imap, list_lookup_fmap, Hj. simpl.
  rewrite featureCoefficients_nth; [done|].
  apply lookup_lt_Some in Hj. lia.
Qed.

Lemma featuresValue_length fs mlr : length (featuresValue fs mlr) = length fs.
Proof. unfold featuresValue. by rewrite length_imap, length_map. Qed.

(** C2, amended. [updateFeatures] has no auxiliary-dimension argument: it
    expects five auxiliary weights first and the intercept last. For a
    non-empty feature list and [length fs + 6] weights it returns; the
    importance of feature [j] is [|weights[5 + j]|], and the feature it
    drops is the first one of least importance. *)
Theorem updateFeatures_least_important (fs : list iFeature) (mlr : MLR) :
  fs <> [] ->
  length (weights mlr) = (length fs + 6)%nat ->
  exists i worst,
    updateFeatures fs mlr = Ok (JS.remove_index i fs, worst) /\
    fs !! i = Some worst /\
    (forall j f, fs !! j = Some f ->
       featuresValue fs mlr !! j
       = Some {| fv_name := name f;
                 importance := Qabs (nth (5 + j) (weights mlr) 0%Q) |}) /\
    (forall j, (j < length fs)%nat ->
       (Qabs (nth (5 + i) (weights mlr) 0) <= Qabs (nth (5 + j) (weights mlr) 0))%Q) /\
    (forall j, (j < i)%nat ->
       (Qabs (nth (5 + i) (weights mlr) 0) < Qabs (nth (5 + j) (weights mlr) 0))%Q).
Proof.
  intros Hne HL.
  set (arr := featuresValue fs mlr).
  destruct (leastFeatureIdx_spec arr) as (Hle & Hmin & Hfirst).
  set (i := leastFeatureIdx arr) in *.
  assert (length arr = length fs) as Hlen by apply featuresValue_length.
  assert (0 < length fs)%nat by (destruct fs; [done|simpl; lia]).
  assert (Himp : forall j, (j < length fs)%nat ->
            importance_at arr j = Qabs (nth (5 + j) (weights mlr) 0%Q)).
  { intros j Hj. destruct (lookup_lt_is_Some_2 fs j Hj) as [f Hf].
    unfold importance_at, arr. by rewrite (featuresValue_lookup _ _ _ _ HL Hf). }
  destruct (lookup_lt_is_Some_2 fs i) as [worst Hworst]; [lia|].
  exists i, worst. repeat split.
  - unfold updateFeatures. rewrite featureCoefficients_length, HL, length_map.
    replace (length fs + 6 - 6)%nat with (length fs) by lia.
    rewrite Nat.eqb_refl. simpl. fold arr i. unfold at_index. by rewrite Hworst.
  - done.
  - intros j f Hf. by apply featuresValue_lookup.
  - intros j Hj. rewrite <- !Himp by lia. apply Hmin. lia.
  - intros j Hj. rewrite <- !Himp by lia. by apply Hfirst.
Qed.

(** ** The scorer batching loop *)

Lemma filter_all {A} (p : A -> bool) (l : list A) :
  (forall x, p x = true) -> List.filter p l = l.
Proof.
  intros Hp. induction l as [|x l IH]; simpl; [done|]. by rewrite Hp, IH.
Qed.

(** A scorer that keeps answering with no ranking starves the loop as soon
    as a full batch is left: no failure is counted and no fuel suffices. *)
Lemma rankLoop_starves {V} `{Titled V} env fuel (videos : list V) fs model failures w :
  (forall w' batch, Client_rankings env w' model batch fs = Ok []) ->
  (0 < batchSizeOf fs model <= length videos)%nat ->
  rankLoop env fuel videos fs model [] failures w
  = (Diverge,
     w ++ repeat (AskRankings model
                    (map title_of (take (batchSizeOf fs model) videos)) fs) fuel).
Proof.
  intros Hsilent [Hpos Hfull]. revert w.
  induction fuel as [|fuel IH]; intros w; simpl.
  - unfold lift. by rewrite app_nil_r.
  - replace (0 <? length videos)%nat with true
      by (symmetry; apply Nat.ltb_lt; lia).
    simpl. rewrite filter_all by done.
    replace (length videos =? 0)%nat with false
      by (symmetry; apply Nat.eqb_neq; lia).
    replace (length videos <? batchSizeOf fs model)%nat with false
      by (symmetry; apply Nat.ltb_ge; lia).
    rewrite slice_prefix.
    unfold mbind, M_bind, bind, mret, M_ret, ret, askRankings. cbv beta iota.
    rewrite Hsilent. cbn [List.filter app].
    rewrite IH, <- app_assoc. done.
Qed.

(** With less than a full batch in all and a scorer that always answers,
    the retry budget does end the loop: four units of fuel suffice. *)
Lemma rankLoop_partial_batch_ends {V} `{Titled V} env fuel (videos : list V) fs model
    rankings failures w :
  (forall w' batch, Client_rankings env w' model batch fs <> Diverge) ->
  (length videos < batchSizeOf fs model)%nat ->
  (failures <= MAX_TRIES)%nat ->
  (MAX_TRIES < fuel + failures)%nat ->
  fst (rankLoop env fuel videos fs model rankings failures w) <> Diverge.
Proof.
  unfold MAX_TRIES. intros Hanswers Hsmall. revert rankings failures w.
  induction fuel as [|fuel IH]; intros rankings failures w Hle Hfuel; [lia|].
  cbn [rankLoop]. case_if; [done|].
  set (unranked := List.filter _ videos).
  assert (length unranked <= length videos)%nat by apply filter_length_le.
  case_if; [done|].
  replace (length unranked <? batchSizeOf fs model)%nat with true
    by (symmetry; apply Nat.ltb_lt; lia).
  unfold MAX_TRIES, mbind, M_bind, bind.
  destruct (3 <=? failures)%nat eqn:Hmax; [done|].
  apply Nat.leb_gt in Hmax. cbn [mret M_ret ret askRankings].
  destruct (Client_rankings env w model _ fs) eqn:Hreply;
    [|done|by apply Hanswers in Hreply].
  apply IH; lia.
Qed.

(** C7 at its failing input: forty videos, one feature, a scorer that
    answers every request with an empty list. Whatever the fuel, the loop
    has not returned and has not thrown; it has sent one request per
    iteration. *)
Theorem rankVideos_never_returns (fuel : nat) :
  rankVideos Demo.silent fuel
             Demo.forty [Demo.feature "f"] None []
  = (Diverge,
     repeat (AskRankings None (map title_of Demo.forty) [Demo.feature "f"]) fuel).
Proof.
  unfold rankVideos, mbind, M_bind, bind.
  rewrite rankLoop_starves; [done|done|].
  vm_compute. lia.
Qed.

(** ** Scenarios *)

(** Two videos and a scorer that ranks the first one twice: the loop ends
    as soon as it holds two rankings, and the second video has none. *)
Example repeated_ranking_ends_the_loop :
  map r_title <$> fst (rankVideos Demo.repeating 5 Demo.tie_videos
                         [Demo.feature "f"] None [])
  = Ok ["idx0"; "idx0"].
Proof. vm_compute. reflexivity. Qed.

Lemma length_append (s1 s2 : string) :
  String.length (s1 +:+ s2) = (String.length s1 + String.length s2)%nat.
Proof. induction s1 as [|c s1 IH]; simpl; [done|]. by rewrite IH. Qed.

Lemma fresh_name_nonempty (names : list string) :
  (0 < String.length (Demo.fresh_name names))%nat.
Proof.
  induction names as [|x names IH]; simpl; [lia|]. rewrite length_append. lia.
Qed.

Lemma fresh_name_longer (names : list string) (s : string) :
  s ∈ names -> (String.length s < String.length (Demo.fresh_name names))%nat.
Proof.
  induction names as [|x names IH]; [by intros ?%elem_of_nil|].
  simpl. rewrite length_append. intros [->|Hs]%elem_of_cons.
  - pose proof (fresh_name_nonempty names). unfold Demo.fresh_name in *. lia.
  - specialize (IH Hs). unfold Demo.fresh_name in *. lia.
Qed.

Lemma propose_fresh_contract rank :
  proposer_contract (Demo.env rank Demo.propose_fresh).
Proof.
  intros w fs predictions failed f [= <-]. simpl.
  split; intros Hin;
    (assert (Demo.fresh_name (map name fs ++ map name failed)
             ∈ map name fs ++ map name failed) as Hlt%fresh_name_longer
       by (apply elem_of_app; eauto); lia).
Qed.

Lemma acceptance_iff_strict_improvement_witness :
  exists results w',
    reflexionStep Demo.accepting 5 (stepInput Demo.start "d" 0) [] = (Ok results, w') /\
    exists t st',
      StepFacts Demo.accepting (stepInput Demo.start "d" 0) [] results t /\
      iteration Demo.accepting 5 "d" 0 Demo.start [] = (Ok st', w') /\
      let validation := validationSplit Demo.accepting (stepInput Demo.start "d" 0) [] in
      let target := map (fun v : iFeaturedVideo => (views v + 1)%Q) validation in
      let oldError :=
        meanAbsResidual
          (map (Demo.predict (t_mlr t))
               (map (inputRow (run_features Demo.start)) validation))
          target in
      let newError :=
        meanAbsResidual
          (map (Demo.predict (t_newModel t))
               (map (inputRow (out_features results))
                    (map (scored (newFeature results) (t_validation_rankings t))
                         validation)))
          target in
      ((newError < oldError)%Q -> run_features st' = out_features results) /\
      (~ (newError < oldError)%Q -> run_features st' = run_features Demo.start).
Proof.
  run_first_step Demo.accepting.
  exists results, w'. split; [reflexivity|].
  exact (acceptance_iff_strict_improvement _ _ _ _ _ _ _ _ Hrun).
Defined.



(** C3 at its failing input: the proposer answers [a], the name of the
    feature being pruned, and the candidate wins. [undefined] is pushed on
    the rejected history instead of the pruned feature; every later step
    then throws, and the run itself ends with a [TypeError]. *)
Theorem pruned_name_proposed_again :
  run_features <$> fst (iteration Demo.colliding_pruned 5 "d" 0 Demo.start [])
  = Ok [Demo.feature "b"; Demo.proposal "a"]
  /\ run_failedFeatures <$> fst (iteration Demo.colliding_pruned 5 "d" 0 Demo.start [])
     = Ok [None]
  /\ fst (runReflexion Demo.colliding_pruned 5 [] "d" []) = Throw TypeError.
Proof. repeat split; vm_compute; reflexivity. Qed.

Lemma failed_step_is_skipped_witness :
  exists e w',
    reflexionStep Demo.failing 5 (stepInput Demo.start "d" 0) [] = (Throw e, w') /\
    iteration Demo.failing 5 "d" 0 Demo.start []
    = (Ok Demo.start, w' ++ [ConsoleError 0 e]) /\
    forall count,
      reflexionLoop Demo.failing 5 "d" (S count) 0 Demo.start []
      = reflexionLoop Demo.failing 5 "d" count 1 Demo.start (w' ++ [ConsoleError 0 e]).
Proof.
  assert (thrown (fst (reflexionStep Demo.failing 5 (stepInput Demo.start "d" 0) []))
          = Some (External "proposal failed")) as Hthrown by (vm_compute; reflexivity).
  destruct (reflexionStep Demo.failing 5 (stepInput Demo.start "d" 0) [])
    as [[results|e|] w'] eqn:Hrun; [discriminate Hthrown| |discriminate Hthrown].
  exists e, w'. split; [reflexivity|].
  exact (failed_step_is_skipped _ _ _ _ _ _ _ _ Hrun).
Defined.

(** The requests of two rejected iterations: the second history holds the
    first proposal, and the pruned feature [a] is appended to it again. *)
Example requests_of_two_rejections :
  Demo.requests (snd (reflexionLoop Demo.rejecting 5 "d" 2 0 Demo.start []))
  = [(["b"], ["a"]); (["b"], ["ba'"; "a"])].
Proof. vm_compute. reflexivity. Qed.

(** C2 as stated fails. On Scenario A, three weights for two features,
    [updateFeatures] throws. With the claim's layout and the five auxiliary
    weights the code expects (intercept 1, auxiliary weights 9, then 0.1 for
    [len] and 5 for [caps]) it reads 9 and 0.1 as the importances and drops
    [caps], not [len]. *)
Lemma scenario_A_throws :
  updateFeatures Demo.scenarioA_features Demo.scenarioA_mlr = Throw FeatureLengthMismatch
  /\ map importance (featuresValue Demo.scenarioA_features Demo.intercept_first_mlr)
     = [9; 0.1]%Q
  /\ updateFeatures Demo.scenarioA_features Demo.intercept_first_mlr
     = Ok ([Demo.feature "len"], Demo.feature "caps").
Proof. repeat split; vm_compute; reflexivity. Qed.

Lemma updateFeatures_least_important_witness :
  exists i worst,
    updateFeatures Demo.scenarioA_features Demo.scenarioA_library_mlr
    = Ok (JS.remove_index i Demo.scenarioA_features, worst) /\
    Demo.scenarioA_features !! i = Some worst /\
    (forall j f, Demo.scenarioA_features !! j = Some f ->
       featuresValue Demo.scenarioA_features Demo.scenarioA_library_mlr !! j
       = Some {| fv_name := name f;
                 importance :=
                   Qabs (nth (5 + j) (weights Demo.scenarioA_library_mlr) 0%Q) |}) /\
    (forall j, (j < length Demo.scenarioA_features)%nat ->
       (Qabs (nth (5 + i) (weights Demo.scenarioA_library_mlr) 0)
        <= Qabs (nth (5 + j) (weights Demo.scenarioA_library_mlr) 0))%Q) /\
    (forall j, (j < i)%nat ->
       (Qabs (nth (5 + i) (weights Demo.scenarioA_library_mlr) 0)
        < Qabs (nth (5 + j) (weights Demo.scenarioA_library_mlr) 0))%Q).
Proof.
  apply (updateFeatures_least_important Demo.scenarioA_features
           Demo.scenarioA_library_mlr).
  - discriminate.
  - reflexivity.
Defined.

(** Scenario A with the weights laid out as the code expects them. *)
Example scenario_A_library_layout :
  updateFeatures Demo.scenarioA_features Demo.scenarioA_library_mlr
  = Ok ([Demo.feature "caps"], Demo.feature "len")
  /\ featuresValue Demo.scenarioA_features Demo.scenarioA_library_mlr
     = [{| fv_name := "len"; importance := 0.1 |};
        {| fv_name := "caps"; importance := 5 |}].
Proof. split; vm_compute; reflexivity. Qed.

(** C5 as stated fails. On Scenario B the analyzer returns all five rows:
    the number of rows it keeps is the constant 20, and nothing can ask it
    for three. *)
Lemma scenario_B_returns_five :
  map p_title <$> getWorstPredictions Demo.accepting Demo.scenarioB_videos
                    Demo.scenarioB_mlr Demo.scenarioB_X Demo.scenarioB_Y
  = Ok ["idx2"; "idx0"; "idx4"; "idx1"; "idx3"].
Proof. vm_compute. reflexivity. Qed.

(** Two rows of equal absolute residual: the first is listed twice, the
    second not at all. *)
Example tied_rows_listed_twice :
  map p_title <$> getWorstPredictions Demo.accepting Demo.tie_videos
                    Demo.scenarioB_mlr Demo.tie_X Demo.tie_Y
  = Ok ["idx0"; "idx0"].
Proof. vm_compute. reflexivity. Qed.

Lemma getWorstPredictions_without_ties_witness :
  exists (idxs : list nat) (preds : list iPrediction),
    getWorstPredictions Demo.accepting Demo.scenarioB_videos Demo.scenarioB_mlr
      Demo.scenarioB_X Demo.scenarioB_Y = Ok preds /\
    Forall2 (fun i p =>
               title_of <$> Demo.scenarioB_videos !! i = Some (p_title p)
               /\ delta p = signedDelta Demo.accepting Demo.scenarioB_mlr
                              Demo.scenarioB_X Demo.scenarioB_Y i) idxs preds /\
    length idxs = Nat.min 20 (length Demo.scenarioB_X) /\
    NoDup idxs /\
    (forall a b i j, (a < b)%nat -> idxs !! a = Some i -> idxs !! b = Some j ->
       (Qabs (signedDelta Demo.accepting Demo.scenarioB_mlr
                Demo.scenarioB_X Demo.scenarioB_Y j)
        < Qabs (signedDelta Demo.accepting Demo.scenarioB_mlr
                  Demo.scenarioB_X Demo.scenarioB_Y i))%Q) /\
    (forall i j, (i < length Demo.scenarioB_X)%nat -> i ∉ idxs -> j ∈ idxs ->
       (Qabs (signedDelta Demo.accepting Demo.scenarioB_mlr
                Demo.scenarioB_X Demo.scenarioB_Y i)
        < Qabs (signedDelta Demo.accepting Demo.scenarioB_mlr
                  Demo.scenarioB_X Demo.scenarioB_Y j))%Q).
Proof.
  apply (getWorstPredictions_without_ties Demo.accepting Demo.scenarioB_videos
           Demo.scenarioB_mlr Demo.scenarioB_X Demo.scenarioB_Y).
  - discriminate.
  - reflexivity.
  - reflexivity.
  - intros i j [Hij Hj]. simpl in Hj.
    do 5 (destruct i as [|i];
          [do 5 (destruct j as [|j]; [try lia; vm_compute; discriminate|]); lia|]).
    lia.
Defined.

Lemma reachable_invariant_witness :
  exists st w,
    iteration Demo.accepting 5 "d" 0 Demo.start [] = (Ok st, w) /\
    map name (run_features st) = ["b"; "ba'"] /\
    map (fmap name) (run_failedFeatures st) = [Some "a"] /\
    length (run_features st) = length (run_features Demo.start) /\
    NoDup (map name (run_features st)) /\
    (forall f g, f ∈ run_features st -> Some g ∈ run_failedFeatures st ->
                 name f <> name g).
Proof.
  assert ((fun st => (map name (run_features st),
                      map (fmap name) (run_failedFeatures st)))
            <$> fst (iteration Demo.accepting 5 "d" 0 Demo.start [])
          = Ok (["b"; "ba'"], [Some "a"])) as Hok by (vm_compute; reflexivity).
  destruct (iteration Demo.accepting 5 "d" 0 Demo.start [])
    as [[st| |] w] eqn:Hit; [|discriminate Hok|discriminate Hok].
  injection Hok as Hactive Hhistory.
  exists st, w. split; [reflexivity|].
  split; [exact Hactive|]. split; [exact Hhistory|].
  apply (reachable_invariant Demo.accepting Demo.start st).
  - apply propose_fresh_contract.
  - apply (bool_decide_unpack _). vm_compute. reflexivity.
  - reflexivity.
  - eapply reach_iteration; [apply reach_start|exact Hit].
Defined.

(** Scenario C of the specification: three iterations, every proposal
    rejected. The active features are those of the start and the history
    holds the three proposals. *)
Example three_rejections :
  run_features <$> fst (reflexionLoop Demo.rejecting 5 "d" 3 0 Demo.start [])
  = Ok (run_features Demo.start)
  /\ (fun st => map (fmap name) (run_failedFeatures st))
       <$> fst (reflexionLoop Demo.rejecting 5 "d" 3 0 Demo.start [])
     = Ok [Some "ba'"; Some "bba'a'"; Some "bba'bba'a'a'"].
Proof. split; vm_compute; reflexivity. Qed.

(** * Further properties of the code *)

(** ** The scorer batching loop, continued *)

Lemma existsb_title {V} `{Titled V} (rankings : list iRanking) (v : V) :
  existsb (fun r => r_title r =? title_of v) rankings = true
  <-> title_of v ∈ map r_title rankings.
Proof.
  rewrite existsb_exists. split.
  - intros (r & Hr & Heq). apply String.eqb_eq in Heq. rewrite <- Heq.
    apply list_elem_of_fmap_2. by apply list_elem_of_In.
  - intros (r & -> & Hr)%list_elem_of_fmap. exists r.
    split; [by apply list_elem_of_In|apply String.eqb_refl].
Qed.

Lemma filter_none {A} (p : A -> bool) (l : list A) :
  (forall x, x ∈ l -> p x = false) -> List.filter p l = [].
Proof.
  induction l as [|x l IH]; intros Hp; simpl; [done|].
  rewrite (Hp x) by apply list_elem_of_here. apply IH.
  intros y Hy. apply Hp. by apply list_elem_of_further.
Qed.

Lemma filter_every {A} (p : A -> bool) (l : list A) :
  (forall x, x ∈ l -> p x = true) -> List.filter p l = l.
Proof.
  induction l as [|x l IH]; intros Hp; simpl; [done|].
  rewrite (Hp x) by apply list_elem_of_here. f_equal. apply IH.
  intros y Hy. apply Hp. by apply list_elem_of_further.
Qed.

(** With distinct titles, the videos still to rank after the first [k]
    have been ranked are the videos after the first [k]. *)
Lemma unranked_after_prefix {V} `{Titled V} (videos : list V) (rankings : list iRanking)
    (k : nat) :
  NoDup (map title_of videos) ->
  map r_title rankings = map title_of (take k videos) ->
  List.filter (fun v => negb (existsb (fun r => r_title r =? title_of v) rankings)) videos
  = drop k videos.
Proof.
  intros Hnd Htitles.
  rewrite <- (take_drop k videos) at 1. rewrite List.filter_app.
  rewrite <- (take_drop k videos), map_app in Hnd.
  apply NoDup_app in Hnd as (_ & Hdisj & _).
  rewrite filter_none, filter_every; [done| |].
  - intros v Hv. apply negb_true_iff, not_true_iff_false.
    rewrite existsb_title, Htitles. intros Hin.
    eapply Hdisj; [exact Hin|]. by apply list_elem_of_fmap_2.
  - intros v Hv. apply negb_false_iff, existsb_title. rewrite Htitles.
    by apply list_elem_of_fmap_2.
Qed.

Lemma take_plus {A} (l : list A) (k b : nat) :
  take (k + b) l = take k l ++ take b (drop k l).
Proof.
  revert l. induction k as [|k IH]; intros [|x l]; simpl; try done.
  - by rewrite take_nil.
  - by rewrite IH.
Qed.

Lemma batchSizeOf_positive fs model : (0 < batchSizeOf fs model)%nat.
Proof. unfold batchSizeOf. destruct model; [lia|]. case_if; lia. Qed.

Lemma rankLoop_exact {V} `{Titled V} env (videos : list V) fs model :
  NoDup (map title_of videos) ->
  exact_scorer env model fs ->
  forall fuel k rankings failures w,
    (length videos - k < fuel)%nat ->
    (k <= length videos)%nat ->
    map r_title rankings = map title_of (take k videos) ->
    failures = 0%nat \/ k = length videos ->
    exists rankings' w',
      rankLoop env fuel videos fs model rankings failures w = (Ok rankings', w') /\
      map r_title rankings' = map title_of videos.
Proof.
  intros Hnd Hexact.
  induction fuel as [|fuel IH]; intros k rankings failures w Hfuel Hk Htitles Hfail;
    [lia|].
  assert (length rankings = k) as Hlen.
  { rewrite <- (length_map r_title), Htitles, length_map, length_take. lia. }
  cbn [rankLoop]. rewrite Hlen.
  destruct (k <? length videos)%nat eqn:Hlt; simpl.
  2:{ apply Nat.ltb_ge in Hlt. exists rankings, w. split; [done|].
      rewrite Htitles, take_ge by lia. done. }
  apply Nat.ltb_lt in Hlt. destruct Hfail as [->|]; [|lia].
  rewrite (unranked_after_prefix videos rankings k Hnd Htitles).
  rewrite length_drop.
  replace (length videos - k =? 0)%nat with false by (symmetry; apply Nat.eqb_neq; lia).
  set (B := batchSizeOf fs model).
  pose proof (batchSizeOf_positive fs model) as HB. fold B in HB.
  rewrite slice_prefix.
  destruct (Hexact w (map title_of (take B (drop k videos)))) as (rs & Hrs & Hts).
  assert (Hvalid :
    List.filter (fun br => existsb (fun v => normalize_NFKC env (title_of v)
                                             =? normalize_NFKC env (r_title br))
                                   (take B (drop k videos))) rs = rs).
  { apply filter_every. intros r Hr. apply existsb_exists.
    assert (r_title r ∈ map title_of (take B (drop k videos))) as Hin
      by (rewrite <- Hts; by apply list_elem_of_fmap_2).
    apply list_elem_of_fmap in Hin as (v & Hv & Hin). exists v.
    split; [by apply list_elem_of_In|]. rewrite Hv. apply String.eqb_refl. }
  assert (Hnext : map r_title (rankings ++ rs)
                  = map title_of (take (Nat.min (k + B) (length videos)) videos)).
  { rewrite map_app, Htitles, Hts, <- map_app, <- take_plus.
    destruct (decide (k + B <= length videos)%nat).
    - by rewrite Nat.min_l by lia.
    - rewrite Nat.min_r by lia. rewrite !take_ge by lia. done. }
  unfold mbind, M_bind, bind, mret, M_ret, ret, askRankings.
  destruct (length videos - k <? B)%nat eqn:Hpartial; unfold MAX_TRIES; simpl;
    rewrite Hrs, Hvalid.
  - apply Nat.ltb_lt in Hpartial.
    apply (IH (Nat.min (k + B) (length videos))); [lia|lia|exact Hnext|lia].
  - apply Nat.ltb_ge in Hpartial.
    apply (IH (Nat.min (k + B) (length videos))); [lia|lia|exact Hnext|by left].
Qed.

(** X1. With pairwise distinct titles, a scorer that ranks exactly the
    titles it is asked about and a disk that takes the rankings file,
    [rankVideos] returns one ranking per video, in the order of the videos;
    one unit of fuel per video and one more suffice. *)
Theorem rankVideos_scores_every_video {V} `{Titled V} env fuel (videos : list V)
    fs model w :
  NoDup (map title_of videos) ->
  exact_scorer env model fs ->
  (forall w1, fs_write env w1 RankingsFile = Ok tt) ->
  (length videos < fuel)%nat ->
  exists rankings w',
    rankVideos env fuel videos fs model w = (Ok rankings, w') /\
    map r_title rankings = map title_of videos.
Proof.
  intros Hnd Hexact Hdisk Hfuel.
  destruct (rankLoop_exact env videos fs model Hnd Hexact fuel 0 [] 0 w)
    as (rankings & w1 & Hloop & Htitles); [lia|lia|done|by left|].
  exists rankings, (w1 ++ [WriteFile RankingsFile]). split; [|done].
  unfold rankVideos, mbind, M_bind, bind. rewrite Hloop.
  unfold writeFileSync. by rewrite Hdisk.
Qed.

Lemma score_all_exact s propose fs model :
  exact_scorer (Demo.env (Demo.score_all s) propose) model fs.
Proof.
  intros w batch. eexists. split; [reflexivity|].
  rewrite map_map. simpl. apply map_id.
Qed.

Lemma rankVideos_scores_every_video_witness :
  exists rankings w',
    rankVideos Demo.accepting 6 Demo.videos [Demo.feature "a"] None []
    = (Ok rankings, w') /\
    map r_title rankings = map title_of Demo.videos.
Proof.
  apply (rankVideos_scores_every_video Demo.accepting 6 Demo.videos
           [Demo.feature "a"] None []).
  - apply (bool_decide_unpack _). vm_compute. reflexivity.
  - apply score_all_exact.
  - reflexivity.
  - simpl. lia.
Defined.

Lemma rankLoop_partial_batch_requests {V} `{Titled V} env (videos : list V) fs model :
  (length videos < batchSizeOf fs model)%nat ->
  forall fuel rankings failures w o w',
    (failures <= MAX_TRIES)%nat ->
    rankLoop env fuel videos fs model rankings failures w = (o, w') ->
    exists evs, w' = w ++ evs /\
      (length (List.filter is_rank_request evs) + failures <= MAX_TRIES)%nat.
Proof.
  unfold MAX_TRIES. intros Hsmall.
  induction fuel as [|fuel IH]; intros rankings failures w o w' Hle Hrun.
  { injection Hrun as <- <-. exists []. rewrite app_nil_r. simpl. split; [done|lia]. }
  cbn [rankLoop] in Hrun. revert Hrun.
  case_if.
  { intros [= <- <-]. exists []. rewrite app_nil_r. simpl. split; [done|lia]. }
  set (unranked := List.filter _ videos).
  assert (length unranked <= length videos)%nat by apply filter_length_le.
  case_if.
  { intros [= <- <-]. exists []. rewrite app_nil_r. simpl. split; [done|lia]. }
  replace (length unranked <? batchSizeOf fs model)%nat with true
    by (symmetry; apply Nat.ltb_lt; lia).
  unfold MAX_TRIES, mbind, M_bind, bind.
  destruct (3 <=? failures)%nat eqn:Hmax.
  { intros [= <- <-]. exists []. rewrite app_nil_r. simpl. split; [done|lia]. }
  apply Nat.leb_gt in Hmax. cbn [mret M_ret ret askRankings].
  destruct (Client_rankings env w model _ fs) eqn:Hreply.
  - intros Hrun. apply IH in Hrun as (evs & -> & Hcount); [|lia].
    eexists (_ :: evs). split; [by rewrite <- app_assoc|]. simpl. lia.
  - intros [= <- <-]. eexists [_]. split; [done|]. simpl. lia.
  - intros [= <- <-]. eexists [_]. split; [done|]. simpl. lia.
Qed.

(** X2. With fewer videos than one batch, [rankVideos] sends at most
    [MAX_TRIES] = 3 requests to the scorer, whatever the scorer answers;
    if the scorer and the disk answer each time, four units of fuel are
    enough for it to return or throw. *)
Theorem rankVideos_partial_batch_budget {V} `{Titled V} env fuel (videos : list V)
    fs model w :
  (length videos < batchSizeOf fs model)%nat ->
  exists o evs,
    rankVideos env fuel videos fs model w = (o, w ++ evs) /\
    (length (List.filter is_rank_request evs) <= MAX_TRIES)%nat /\
    ((forall w1 batch, Client_rankings env w1 model batch fs <> Diverge) ->
     (forall w1, fs_write env w1 RankingsFile <> Diverge) ->
     (MAX_TRIES < fuel)%nat ->
     o <> Diverge).
Proof.
  intros Hsmall. unfold rankVideos, mbind, M_bind, bind.
  pose proof (rankLoop_partial_batch_ends env fuel videos fs model [] 0 w) as Hends.
  destruct (rankLoop env fuel videos fs model [] 0 w) as [o w1] eqn:Hloop.
  destruct (rankLoop_partial_batch_requests env videos fs model Hsmall
              fuel [] 0%nat w o w1) as (evs & -> & Hcount);
    [unfold MAX_TRIES; lia|done|].
  rewrite Nat.add_0_r in Hcount.
  destruct o as [rankings|e|].
  - unfold writeFileSync.
    destruct (fs_write env (w ++ evs) RankingsFile) as [[]|e|] eqn:Hdisk.
    + exists (Ok rankings), (evs ++ [WriteFile RankingsFile]).
      rewrite app_assoc, List.filter_app, length_app. simpl.
      split; [done|]. split; [lia|done].
    + exists (Throw e), (evs ++ [WriteFile RankingsFile]).
      rewrite app_assoc, List.filter_app, length_app. simpl.
      split; [done|]. split; [lia|done].
    + exists Diverge, (evs ++ [WriteFile RankingsFile]).
      rewrite app_assoc, List.filter_app, length_app. simpl.
      split; [done|]. split; [lia|]. intros _ Hd _. by apply Hd in Hdisk.
  - exists (Throw e), evs. split; [done|]. split; [done|done].
  - exists Diverge, evs. split; [done|]. split; [done|].
    intros Hanswers _ Hfuel. apply Hends; try done; unfold MAX_TRIES in *; lia.
Qed.

Lemma rankVideos_partial_batch_budget_witness :
  exists o evs,
    rankVideos Demo.silent 4 Demo.videos [Demo.feature "a"] None [] = (o, [] ++ evs) /\
    (length (List.filter is_rank_request evs) <= MAX_TRIES)%nat /\
    ((forall w1 batch,
        Client_rankings Demo.silent w1 None batch [Demo.feature "a"] <> Diverge) ->
     (forall w1, fs_write Demo.silent w1 RankingsFile <> Diverge) ->
     (MAX_TRIES < 4)%nat ->
     o <> Diverge).
Proof.
  apply (rankVideos_partial_batch_budget Demo.silent 4 Demo.videos
           [Demo.feature "a"] None []).
  vm_compute. lia.
Defined.

Lemma rankLoop_valid_titles {V} `{Titled V} env (videos : list V) fs model :
  forall fuel rankings failures w rankings' w',
    (forall r, r ∈ rankings ->
       exists v, v ∈ videos /\
         normalize_NFKC env (title_of v) = normalize_NFKC env (r_title r)) ->
    rankLoop env fuel videos fs model rankings failures w = (Ok rankings', w') ->
    forall r, r ∈ rankings' ->
      exists v, v ∈ videos /\
        normalize_NFKC env (title_of v) = normalize_NFKC env (r_title r).
Proof.
  induction fuel as [|fuel IH]; intros rankings failures w rankings' w' Hinv Hrun;
    [done|].
  cbn [rankLoop] in Hrun. revert Hrun.
  case_if; [by intros [= <- <-]|].
  case_if; [by intros [= <- <-]|].
  unfold mbind, M_bind, bind.
  set (unranked := List.filter _ videos).
  set (batch := JS.slice 0 _ unranked).
  assert (forall v, v ∈ batch -> v ∈ videos) as Hbatch.
  { intros v Hv. unfold batch in Hv. rewrite slice_prefix in Hv.
    apply elem_of_take in Hv as (i & Hv%list_elem_of_lookup_2 & _).
    apply list_elem_of_In, filter_In in Hv as [Hv _]. by apply list_elem_of_In. }
  destruct ((if (length unranked <? batchSizeOf fs model)%nat
             then if (MAX_TRIES <=? failures)%nat then throw MaxRankingRetries
                  else mret (S failures)
             else mret failures) w) as [[failures'| |] w1] eqn:Hcount; [|done|done].
  unfold askRankings.
  destruct (Client_rankings env w1 model _ fs) as [rs| |]; [|done|done].
  apply IH. intros r [Hr|Hr]%elem_of_app; [by apply Hinv|].
  apply list_elem_of_In, filter_In in Hr as [_ Hvalid].
  apply existsb_exists in Hvalid as (v & Hv & Heq).
  exists v. split; [by apply Hbatch, list_elem_of_In|by apply String.eqb_eq].
Qed.

(** X3. Every ranking that [rankVideos] returns bears, up to NFKC
    normalisation, the title of one of the videos it was given: whatever
    else the scorer answers is filtered out. *)
Theorem rankVideos_keeps_only_known_titles {V} `{Titled V} env fuel (videos : list V)
    fs model w rankings w' :
  rankVideos env fuel videos fs model w = (Ok rankings, w') ->
  forall r, r ∈ rankings ->
    exists v, v ∈ videos /\
      normalize_NFKC env (title_of v) = normalize_NFKC env (r_title r).
Proof.
  unfold rankVideos, mbind, M_bind, bind. intros Hrun.
  destruct (rankLoop env fuel videos fs model [] 0 w) as [[rs| |] w1] eqn:Hloop;
    [|done|done].
  destruct (writeFileSync env RankingsFile w1) as [[[]| |] w2]; [|done|done].
  injection Hrun as <- <-.
  eapply rankLoop_valid_titles; [|exact Hloop]. by intros r Hr%elem_of_nil.
Qed.

Lemma rankVideos_keeps_only_known_titles_witness :
  exists rankings w',
    rankVideos Demo.accepting 6 Demo.videos [Demo.feature "a"] None []
    = (Ok rankings, w') /\
    forall r, r ∈ rankings ->
      exists v, v ∈ Demo.videos /\ title_of v = r_title r.
Proof.
  assert (returned (fst (rankVideos Demo.accepting 6 Demo.videos
                           [Demo.feature "a"] None [])) = true)
    as Hok by (vm_compute; reflexivity).
  destruct (rankVideos Demo.accepting 6 Demo.videos [Demo.feature "a"] None [])
    as [[rankings| |] w'] eqn:Hrun; [clear Hok|discriminate Hok|discriminate Hok].
  exists rankings, w'. split; [reflexivity|].
  exact (rankVideos_keeps_only_known_titles _ _ _ _ _ _ _ _ Hrun).
Defined.

(** ** The evaluation report *)

Lemma sum_from (l : list Q) (acc : Q) :
  (fold_left Qplus l acc == acc + fold_left Qplus l 0)%Q.
Proof.
  revert acc. induction l as [|x l IH]; intros acc; simpl; [ring|].
  rewrite (IH (acc + x)%Q), (IH (0 + x)%Q). ring.
Qed.

Lemma sum_nonneg (l : list Q) :
  Forall (fun x => (0 <= x)%Q) l -> (0 <= fold_left Qplus l 0)%Q.
Proof.
  induction 1 as [|x l Hx _ IH]; simpl; [lra|].
  rewrite sum_from. lra.
Qed.

Lemma sum_zero (l : list Q) :
  Forall (fun x => (0 <= x)%Q) l ->
  (fold_left Qplus l 0 == 0)%Q <-> Forall (fun x => (x == 0)%Q) l.
Proof.
  induction 1 as [|x l Hx Hl IH]; simpl; [split; [constructor|reflexivity]|].
  pose proof (sum_nonneg l Hl) as Hs.
  rewrite sum_from. split.
  - intros Hsum. constructor; [lra|]. apply IH. lra.
  - intros Hall. apply Forall_cons in Hall as [Hx0 Hall]. apply IH in Hall. lra.
Qed.

Lemma Qabs_zero_iff (x : Q) : (Qabs x == 0)%Q <-> (x == 0)%Q.
Proof.
  split.
  - apply Qabs_case; intros; lra.
  - intros ->. reflexivity.
Qed.

Lemma residuals_nonneg (predLog actualLog : list Q) :
  Forall (fun x => (0 <= x)%Q) (zip_with (fun p a => Qabs (p - a)) predLog actualLog).
Proof.
  revert actualLog. induction predLog as [|p l IH]; intros [|a k]; cbn [zip_with];
    try (by constructor).
  constructor; [apply Qabs_nonneg|apply IH].
Qed.

Lemma residuals_zero (predLog actualLog : list Q) :
  length predLog = length actualLog ->
  Forall (fun x => (x == 0)%Q) (zip_with (fun p a => Qabs (p - a)) predLog actualLog)
  <-> Forall2 Qeq predLog actualLog.
Proof.
  revert actualLog. induction predLog as [|p l IH]; intros [|a k] Hlen;
    cbn [zip_with length] in *; try discriminate.
  - split; constructor.
  - injection Hlen as Hlen. rewrite Forall_cons, Forall2_cons, (IH k Hlen).
    rewrite Qabs_zero_iff. split; intros [Hpa Hrest]; (split; [lra|done]).
Qed.

(** X4. A report that [reportLogErrors] returns is over as many
    predictions as targets, its average log error is not negative, and on
    a non-empty input the average is zero exactly when every prediction
    equals its target. *)
Theorem reportLogErrors_zero_iff_exact env (predLog actualLog : list Q) mlr w
    results w' :
  reportLogErrors env predLog actualLog mlr w = (Ok results, w') ->
  videoCount results = length actualLog /\
  (0 <= averageLogError results)%Q /\
  (predLog <> [] ->
   (averageLogError results == 0)%Q <-> Forall2 Qeq predLog actualLog).
Proof.
  unfold reportLogErrors. case_if; [done|].
  unfold mbind, M_bind, bind, writeFileSync.
  destruct (fs_write env w EvaluationFile) as [[]| |]; [|done|done].
  intros [= <- <-].
  match goal with
  | Hl : negb _ = false |- _ => apply negb_false_iff, Nat.eqb_eq in Hl; rename Hl into Hlen
  end.
  rewrite averageLogError_mean. unfold meanAbsResidual.
  pose proof (residuals_nonneg predLog actualLog) as Hnn.
  pose proof (sum_nonneg _ Hnn) as Hsum.
  set (total := fold_left Qplus _ 0%Q) in *.
  split; [done|].
  destruct predLog as [|p l].
  { split; [|done]. subst total. vm_compute. discriminate. }
  assert (0 < inject_Z (Z.of_nat (length (p :: l))))%Q as Hn.
  { change 0%Q with (inject_Z 0). rewrite <- Zlt_Qlt. simpl. lia. }
  set (n := inject_Z _) in *. clearbody n.
  split.
  - apply Qle_shift_div_l; [done|]. lra.
  - intros _. rewrite <- (residuals_zero (p :: l) actualLog Hlen).
    rewrite <- (sum_zero _ Hnn). fold total. clearbody total. split.
    + intros Hz. assert (total == total / n * n)%Q as ->; [field; lra|]. rewrite Hz. ring.
    + intros ->. field. lra.
Qed.

Lemma reportLogErrors_zero_iff_exact_witness :
  exists results w',
    reportLogErrors Demo.accepting [1; 2]%Q [1; 3]%Q None [] = (Ok results, w') /\
    videoCount results = 2%nat /\
    (0 <= averageLogError results)%Q /\
    ([1; 2]%Q <> [] ->
     (averageLogError results == 0)%Q <-> Forall2 Qeq [1; 2]%Q [1; 3]%Q).
Proof.
  assert (returned (fst (reportLogErrors Demo.accepting [1; 2]%Q [1; 3]%Q None []))
          = true) as Hok by (vm_compute; reflexivity).
  destruct (reportLogErrors Demo.accepting [1; 2]%Q [1; 3]%Q None [])
    as [[results| |] w'] eqn:Hrun; [clear Hok|discriminate Hok|discriminate Hok].
  exists results, w'. split; [reflexivity|].
  exact (reportLogErrors_zero_iff_exact _ _ _ _ _ _ _ Hrun).
Defined.

(** ** The error analyzer, with ties *)

Lemma indexOf_spec (x : Q) (l : list Q) :
  (exists y, y ∈ l /\ (y == x)%Q) ->
  exists k y, JS.indexOf x l = Some k /\ l !! k = Some y /\ (y == x)%Q /\
    forall j z, (j < k)%nat -> l !! j = Some z -> ~ (z == x)%Q.
Proof.
  induction l as [|a l IH]; intros (y & Hy & Heq); [by apply elem_of_nil in Hy|].
  cbn [JS.indexOf]. destruct (Qeq_bool a x) eqn:Ha.
  - exists 0%nat, a. split; [done|]. split; [done|].
    split; [by apply Qeq_bool_iff|]. intros j z Hj. lia.
  - destruct IH as (k & z & Hk & Hz & Hzx & Hfirst).
    { apply elem_of_cons in Hy as [->|Hy]; [|by exists y].
      apply Qeq_bool_iff in Heq. congruence. }
    exists (S k), z. rewrite Hk. split; [done|]. split; [done|]. split; [done|].
    intros [|j] u Hj Hu.
    + injection Hu as <-. intros Hax. apply Qeq_bool_iff in Hax. congruence.
    + apply (Hfirst j u); [lia|done].
Qed.

Lemma indexOf_residuals (d : nat -> Q) (n i : nat) :
  (i < n)%nat ->
  exists k, JS.indexOf (d i) (map d (seq 0 n)) = Some k /\ (k < n)%nat /\
    (d k == d i)%Q /\ forall j, (j < k)%nat -> ~ (d j == d i)%Q.
Proof.
  intros Hi.
  destruct (indexOf_spec (d i) (map d (seq 0 n))) as (k & y & Hk & Hy & Heq & Hfirst).
  { exists (d i). split; [|reflexivity]. apply list_elem_of_fmap_2, elem_of_seq. lia. }
  rewrite list_lookup_fmap in Hy.
  destruct (seq 0 n !! k) as [k'|] eqn:Hseq; [|done].
  apply lookup_seq in Hseq as [-> Hkn]. simpl in Hy. injection Hy as <-.
  exists k. split; [done|]. split; [done|]. split; [done|].
  intros j Hj. apply (Hfirst j (d j)); [done|].
  rewrite list_lookup_fmap, lookup_seq_lt by lia. done.
Qed.

Lemma worstIndices_first (d : nat -> Q) (n : nat) (l : list nat) :
  Forall (fun i => (i < n)%nat) l ->
  exists idxs,
    map (fun dv => JS.indexOf dv (map d (seq 0 n))) (map d l) = map Some idxs /\
    Forall2 (fun i k => (k < n)%nat /\ (d k == d i)%Q /\
                        forall j, (j < k)%nat -> ~ (d j == d i)%Q) l idxs.
Proof.
  induction 1 as [|i l Hi _ (idxs & Hmap & Hall)].
  - exists []. split; [done|constructor].
  - destruct (indexOf_residuals d n i Hi) as (k & Hk & Hprops).
    exists (k :: idxs). split; [|by constructor].
    cbn [map]. by rewrite Hk, Hmap.
Qed.

(** X5. With at least one row, and one target and one video per row, the
    analyzer does not throw, ties or not. It returns [min 20 n] entries,
    each the title and the [signedDelta] of a row, in non-increasing order
    of [|signedDelta|]; a row it lists is the first row of its magnitude;
    and a magnitude that exceeds a listed one is itself listed. With no row
    at all it throws, as [predict] does. *)
Theorem getWorstPredictions_with_ties {V} `{Titled V} (env : Env)
    (videos : list V) (mlr : MLR) (X : list (list Q)) (Y : list Q) :
  length videos = length X ->
  length Y = length X ->
  (X = [] -> getWorstPredictions env videos mlr X Y = Throw TypeError) /\
  (X <> [] ->
  exists (idxs : list nat) (preds : list iPrediction),
    getWorstPredictions env videos mlr X Y = Ok preds /\
    Forall2 (fun i p => title_of <$> videos !! i = Some (p_title p)
                        /\ delta p = signedDelta env mlr X Y i) idxs preds /\
    length idxs = Nat.min 20 (length X) /\
    (forall a b i j, (a < b)%nat -> idxs !! a = Some i -> idxs !! b = Some j ->
       (Qabs (signedDelta env mlr X Y j) <= Qabs (signedDelta env mlr X Y i))%Q) /\
    (forall i j, i ∈ idxs -> (j < i)%nat ->
       ~ (Qabs (signedDelta env mlr X Y j) == Qabs (signedDelta env mlr X Y i))%Q) /\
    (forall r i, (r < length X)%nat -> i ∈ idxs ->
       (Qabs (signedDelta env mlr X Y i) < Qabs (signedDelta env mlr X Y r))%Q ->
       exists j, j ∈ idxs /\
         (Qabs (signedDelta env mlr X Y j) == Qabs (signedDelta env mlr X Y r))%Q)).
Proof.
  intros Hvideos HY. split; [by intros ->|]. intros Hrows.
  set (n := length X) in *.
  change (fun i => Qabs (signedDelta env mlr X Y i)) with (absDelta env mlr X Y).
  set (d := absDelta env mlr X Y) in *.
  set (sidx := JS.sort (descending d) (seq 0 n)).
  assert (Hperm : sidx ≡ₚ seq 0 n) by apply sort_Permutation.
  assert (Hsorted : StronglySorted (not_below d) sidx) by apply sort_descending.
  assert (Hlt : forall i, i ∈ sidx <-> (i < n)%nat).
  { intros i. rewrite Hperm, elem_of_seq. lia. }
  assert (Hin : Forall (fun i => (i < n)%nat) (take 20 sidx)).
  { apply Forall_forall. intros i Hi. apply Hlt.
    apply elem_of_take in Hi as (k & Hk & _). eapply list_elem_of_lookup_2, Hk. }
  destruct (worstIndices_first d n (take 20 sidx) Hin) as (idxs & Hidxs & Hfirst).
  assert (Hbound : Forall (fun i => (i < n)%nat) idxs).
  { apply Forall_forall. intros k Hk. apply list_elem_of_lookup in Hk as [a Ha].
    destruct (Forall2_lookup_r _ _ _ _ _ Hfirst Ha) as (i & _ & Hlt' & _). exact Hlt'. }
  destruct (entries_computed env videos mlr X Y HY Hvideos idxs Hbound)
    as (preds & Hm & Hall).
  exists idxs, preds. split; [|split; [exact Hall|split; [|split; [|split]]]].
  - unfold getWorstPredictions.
    rewrite predict_rows_Ok, outcome_bind_Ok by done. cbv beta.
    rewrite (diffs_computed env mlr X Y HY).
    cbv beta iota delta [mbind outcome_bind].
    rewrite (sort_map (absDelta env mlr X Y) (fun a b => (b - a)%Q)).
    change (JS.sort _ (seq 0 (length X))) with sidx.
    change 20%Z with (Z.of_nat 20). rewrite slice_prefix, firstn_map.
    fold d. fold n. rewrite Hidxs. exact Hm.
  - rewrite <- (Forall2_length _ _ _ Hfirst), length_take, Hperm, length_seq. done.
  - intros a b i j Hab Ha Hb.
    destruct (Forall2_lookup_r _ _ _ _ _ Hfirst Ha) as (i' & Ha' & _ & Hi & _).
    destruct (Forall2_lookup_r _ _ _ _ _ Hfirst Hb) as (j' & Hb' & _ & Hj & _).
    apply lookup_take_Some in Ha' as [Ha' _]. apply lookup_take_Some in Hb' as [Hb' _].
    pose proof (StronglySorted_lookup _ _ _ _ _ _ Hsorted Hab Ha' Hb') as Hle.
    unfold not_below in Hle.
    change (d j <= d i)%Q. rewrite Hi, Hj. exact Hle.
  - intros i j Hi Hj. apply list_elem_of_lookup in Hi as [a Ha].
    destruct (Forall2_lookup_r _ _ _ _ _ Hfirst Ha) as (i' & _ & _ & Heq & Hnone).
    change (~ (d j == d i)%Q). rewrite Heq. by apply Hnone.
  - intros r i Hr Hi Hless. change (d i < d r)%Q in Hless.
    apply list_elem_of_lookup in Hi as [a Ha].
    destruct (Forall2_lookup_r _ _ _ _ _ Hfirst Ha) as (i' & Ha' & _ & Heq & _).
    apply lookup_take_Some in Ha' as [Ha' Ha20].
    apply Hlt in Hr. apply list_elem_of_lookup in Hr as [c Hc].
    assert (c < 20)%nat as Hc20.
    { destruct (decide (c < 20)%nat); [done|]. exfalso.
      pose proof (StronglySorted_lookup _ _ a c _ _ Hsorted ltac:(lia) Ha' Hc) as Hle.
      unfold not_below in Hle. rewrite <- Heq in Hle. lra. }
    destruct (Forall2_lookup_l _ _ _ c r Hfirst) as (j & Hj & _ & Hjr & _).
    { apply lookup_take_Some. by split. }
    exists j. split; [by eapply list_elem_of_lookup_2|]. exact Hjr.
Qed.

Lemma getWorstPredictions_with_ties_witness :
  exists (idxs : list nat) (preds : list iPrediction),
    getWorstPredictions Demo.accepting Demo.tie_videos Demo.scenarioB_mlr
      Demo.tie_X Demo.tie_Y = Ok preds /\
    Forall2 (fun i p =>
               title_of <$> Demo.tie_videos !! i = Some (p_title p)
               /\ delta p = signedDelta Demo.accepting Demo.scenarioB_mlr
                              Demo.tie_X Demo.tie_Y i) idxs preds /\
    length idxs = Nat.min 20 (length Demo.tie_X) /\
    (forall a b i j, (a < b)%nat -> idxs !! a = Some i -> idxs !! b = Some j ->
       (Qabs (signedDelta Demo.accepting Demo.scenarioB_mlr Demo.tie_X Demo.tie_Y j)
        <= Qabs (signedDelta Demo.accepting Demo.scenarioB_mlr Demo.tie_X Demo.tie_Y i))%Q) /\
    (forall i j, i ∈ idxs -> (j < i)%nat ->
       ~ (Qabs (signedDelta Demo.accepting Demo.scenarioB_mlr Demo.tie_X Demo.tie_Y j)
          == Qabs (signedDelta Demo.accepting Demo.scenarioB_mlr Demo.tie_X Demo.tie_Y i))%Q) /\
    (forall r i, (r < length Demo.tie_X)%nat -> i ∈ idxs ->
       (Qabs (signedDelta Demo.accepting Demo.scenarioB_mlr Demo.tie_X Demo.tie_Y i)
        < Qabs (signedDelta Demo.accepting Demo.scenarioB_mlr Demo.tie_X Demo.tie_Y r))%Q ->
       exists j, j ∈ idxs /\
         (Qabs (signedDelta Demo.accepting Demo.scenarioB_mlr Demo.tie_X Demo.tie_Y j)
          == Qabs (signedDelta Demo.accepting Demo.scenarioB_mlr Demo.tie_X Demo.tie_Y r))%Q).
Proof.
  apply (getWorstPredictions_with_ties Demo.accepting Demo.tie_videos
           Demo.scenarioB_mlr Demo.tie_X Demo.tie_Y); [reflexivity|reflexivity|].
  discriminate.
Defined.

(** ** The importance ranker, every outcome *)

Lemma remove_index_Permutation {A} (l : list A) (i : nat) (x : A) :
  l !! i = Some x -> l ≡ₚ x :: JS.remove_index i l.
Proof.
  intros Hi. unfold JS.remove_index.
  rewrite <- (take_drop_middle l i x Hi) at 1.
  symmetry. apply Permutation_middle.
Qed.

(** X6. The three ways [updateFeatures] can end. It returns exactly when
    the feature list is not empty and the model has six weights more than
    there are features, and then the features it keeps, with the one it
    drops, are the features it was given; it throws [Feature length
    mismatch] exactly when the weights beyond the sixth are not as many as
    the features; with no feature and at most six weights it reads the
    name of [undefined]. *)
Theorem updateFeatures_outcomes (fs : list iFeature) (mlr : MLR) :
  match updateFeatures fs mlr with
  | Ok (best, worst) =>
      fs <> [] /\ length (weights mlr) = (length fs + 6)%nat /\
      fs ≡ₚ worst :: best
  | Throw e =>
      (e = FeatureLengthMismatch /\ (length (weights mlr) - 6)%nat <> length fs)
      \/ (e = TypeError /\ fs = [] /\ (length (weights mlr) <= 6)%nat)
  | Diverge => False
  end.
Proof.
  unfold updateFeatures. rewrite featureCoefficients_length, length_map.
  destruct (length (weights mlr) - 6 =? length fs)%nat eqn:Hlen; simpl.
  2:{ apply Nat.eqb_neq in Hlen. by left. }
  apply Nat.eqb_eq in Hlen.
  destruct (leastFeatureIdx_spec (featuresValue fs mlr)) as (Hle & _).
  rewrite featuresValue_length in Hle.
  set (i := leastFeatureIdx (featuresValue fs mlr)) in *. clearbody i.
  unfold at_index. destruct (fs !! i) as [worst|] eqn:Hi; simpl.
  - assert (fs <> []) as Hne by (intros ->; by rewrite lookup_nil in Hi).
    split; [done|]. split; [|by apply remove_index_Permutation].
    destruct fs; [done|]. simpl in *. lia.
  - right. apply lookup_ge_None in Hi.
    destruct fs as [|f fs]; [|simpl in *; lia].
    split; [done|]. split; [done|]. simpl in Hlen. lia.
Qed.

(** ** One step and the video store *)

Lemma scored_same_video f rankings v :
  training_video (scored f rankings v) = training_video v.
Proof. reflexivity. Qed.

Lemma scored_other_scores f rankings v key :
  key <> name f -> features (scored f rankings v) !! key = features v !! key.
Proof. intros Hkey. unfold scored. simpl. by rewrite lookup_insert_ne. Qed.

(** X7. When the shuffle of a step permutes the videos it is given, a
    step that returns hands back every one of them, once, in the order of
    the shuffle: the same video data, and the same score on every feature
    but the new one. *)
Theorem reflexionStep_keeps_every_video env fuel input w results w' :
  reflexionStep env fuel input w = (Ok results, w') ->
  shuffledData env input w ≡ₚ in_videos input ->
  map training_video (out_videos results) ≡ₚ map training_video (in_videos input) /\
  Forall2 (fun v v' => training_video v' = training_video v /\
                       forall key, key <> name (newFeature results) ->
                         features v' !! key = features v !! key)
          (shuffledData env input w) (out_videos results).
Proof.
  intros Hrun Hshuffle. destruct (reflexionStep_Ok _ _ _ _ _ _ Hrun) as [t Ht].
  rewrite (fact_videos _ _ _ _ _ Ht). unfold trainingSplit, validationSplit.
  set (data := shuffledData env input w) in *.
  set (k := JS.floor_080 (length data)).
  split.
  - transitivity (map training_video data); [|by apply Permutation_map].
    rewrite map_app, !map_map. rewrite <- (take_drop k data) at 3.
    rewrite map_app. by f_equal; apply map_ext.
  - rewrite <- (take_drop k data) at 1.
    apply Forall2_app; apply Forall2_fmap_r, Forall_Forall2_diag, Forall_forall;
      intros v _; (split; [apply scored_same_video|]);
      intros key Hkey; by apply scored_other_scores.
Qed.

Lemma reflexionStep_keeps_every_video_witness :
  exists results w',
    reflexionStep Demo.accepting 5 (stepInput Demo.start "d" 0) [] = (Ok results, w') /\
    map training_video (out_videos results)
    ≡ₚ map training_video (run_featuredVideos Demo.start) /\
    Forall2 (fun v v' => training_video v' = training_video v /\
                         forall key, key <> name (newFeature results) ->
                           features v' !! key = features v !! key)
            (shuffledData Demo.accepting (stepInput Demo.start "d" 0) [])
            (out_videos results).
Proof.
  run_first_step Demo.accepting.
  exists results, w'. split; [reflexivity|].
  exact (reflexionStep_keeps_every_video _ _ _ _ _ _ Hrun (Permutation_refl _)).
Defined.

(** ** The run, continued *)

Lemma iteration_history env fuel dir index st w :
  (forall e, fst (iteration env fuel dir index st w) <> Throw e) /\
  forall st' w', iteration env fuel dir index st w = (Ok st', w') ->
    exists rejected,
      run_failedFeatures st' = run_failedFeatures st ++ rejected /\
      (length rejected <= 1)%nat.
Proof.
  unfold iteration.
  destruct (reflexionStep _ _ _ _) as [[results|e|] w1]; simpl.
  - split; [by case_if|]. intros st' w'.
    assert (exists rejected,
              run_failedFeatures (decide_step st results)
              = run_failedFeatures st ++ rejected /\ (length rejected <= 1)%nat) as Hd.
    { unfold decide_step. case_if; simpl; eexists [_]; (split; [done|simpl; lia]). }
    case_if; by intros [= <- _].
  - split; [done|]. intros st' w' [= <- _]. exists []. rewrite app_nil_r.
    split; [done|simpl; lia].
  - split; done.
Qed.

(** X8. The loop of [runReflexion] never throws: an error of a step is
    caught and logged. A run of [count] iterations only ever appends to the
    rejected-feature history, at most one entry per iteration. *)
Theorem reflexionLoop_never_throws env fuel dir count index st w :
  (forall e, fst (reflexionLoop env fuel dir count index st w) <> Throw e) /\
  forall st' w', reflexionLoop env fuel dir count index st w = (Ok st', w') ->
    exists rejected,
      run_failedFeatures st' = run_failedFeatures st ++ rejected /\
      (length rejected <= count)%nat.
Proof.
  revert index st w. induction count as [|count IH]; intros index st w.
  - simpl. split; [done|]. intros st' w' [= <- _]. exists []. rewrite app_nil_r.
    split; [done|simpl; lia].
  - cbn [reflexionLoop]. unfold mbind, M_bind, bind.
    destruct (iteration_history env fuel dir index st w) as [Hno Hhist].
    destruct (iteration env fuel dir index st w) as [[st1|e|] w1] eqn:Hit.
    + destruct (IH (S index) st1 w1) as [Hno' Hhist'].
      destruct (Hhist st1 w1 eq_refl) as (r1 & Hr1 & Hl1).
      split; [exact Hno'|]. intros st' w' Hloop.
      destruct (Hhist' st' w' Hloop) as (r2 & Hr2 & Hl2).
      exists (r1 ++ r2). rewrite Hr2, Hr1, <- app_assoc. split; [done|].
      rewrite length_app. lia.
    + by destruct (Hno e).
    + split; done.
Qed.

Lemma proposal_is_fresh env st dir index w results t :
  proposer_contract env ->
  StepFacts env (stepInput st dir index) w results t ->
  name (newFeature results) <> name (t_worstFeature t) /\
  (forall g, Some g ∈ run_failedFeatures st -> name (newFeature results) <> name g).
Proof.
  intros Hcontract Ht.
  destruct (Hcontract _ _ _ _ _ (fact_proposed _ _ _ _ _ Ht)) as [_ Hfresh].
  pose proof (fact_asked _ _ _ _ _ Ht) as Hasked.
  pose proof (fact_has _ _ _ _ _ Ht) as Hhas. simpl in Hasked, Hhas.
  assert (Hfailed_asked : forall g, Some g ∈ run_failedFeatures st -> g ∈ t_asked t).
  { intros g Hg. apply (list_elem_of_fmap_inj_2 Some).
    change (Some g ∈ map Some (t_asked t)). rewrite Hasked.
    case_if; [done|]. apply elem_of_app. by left. }
  split.
  - intros Heq. apply Hfresh. rewrite Heq.
    destruct (t_hasWorstFeature t).
    + destruct (some_named_true _ _ Hhas) as (g & Hg & <-).
      apply list_elem_of_fmap_2, Hfailed_asked, Hg.
    + apply list_elem_of_fmap_2, (list_elem_of_fmap_inj_2 Some).
      change (Some (t_worstFeature t) ∈ map Some (t_asked t)). rewrite Hasked.
      apply elem_of_app. right. apply list_elem_of_here.
  - intros g Hg Heq. apply Hfresh. rewrite Heq.
    by apply list_elem_of_fmap_2, Hfailed_asked.
Qed.

Lemma step_decision env st dir index w results t :
  StepFacts env (stepInput st dir index) w results t ->
  NoDup (map name (run_features st)) ->
  name (newFeature results) <> name (t_worstFeature t) ->
  decide_step st results
  = if improved results
    then {| run_features := t_bestFeatures t ++ [newFeature results];
            run_featuredVideos := out_videos results;
            run_failedFeatures := run_failedFeatures st ++ [Some (t_worstFeature t)] |}
    else {| run_features := run_features st;
            run_featuredVideos := out_videos results;
            run_failedFeatures := run_failedFeatures st ++ [Some (newFeature results)] |}.
Proof.
  intros Ht Hnd Hnew.
  destruct (updateFeatures_Ok _ _ _ _ (fact_pruned _ _ _ _ _ Ht)) as (i & Hi & Hbest).
  simpl in Hi, Hbest.
  pose proof (fact_features _ _ _ _ _ Ht) as Hout.
  pose proof (fact_failed _ _ _ _ _ Ht) as Hff. simpl in Hff.
  rewrite Hbest in Hff.
  rewrite (pruned_find _ i _ Hi Hnd _ Hnew) in Hff.
  unfold decide_step. by rewrite Hout, Hff.
Qed.

(** X9. What a completed iteration does when the active names are
    pairwise distinct and the proposal does not bear the name of the pruned
    feature: the store is replaced; on a strict improvement the kept
    features followed by the proposal become the active set and the pruned
    feature joins the history; otherwise the active set stays and the
    proposal joins the history. *)
Theorem completed_iteration_on_distinct_names env fuel dir index st w results w'
    mlr X Y best worst :
  reflexionStep env fuel (stepInput st dir index) w = (Ok results, w') ->
  trainFeatureModel env (run_features st)
    (trainingSplit env (stepInput st dir index) w) = Ok (mlr, X, Y) ->
  updateFeatures (run_features st) mlr = Ok (best, worst) ->
  NoDup (map name (run_features st)) ->
  name (newFeature results) <> name worst ->
  exists st',
    iteration env fuel dir index st w = (Ok st', w') /\
    run_featuredVideos st' = out_videos results /\
    if improved results
    then run_features st' = best ++ [newFeature results] /\
         run_failedFeatures st' = run_failedFeatures st ++ [Some worst]
    else run_features st' = run_features st /\
         run_failedFeatures st' = run_failedFeatures st ++ [Some (newFeature results)].
Proof.
  intros Hrun Htrain Hprune Hnd Hnew.
  destruct (reflexionStep_Ok _ _ _ _ _ _ Hrun) as [t Ht].
  pose proof (fact_trained _ _ _ _ _ Ht) as Htrain'. simpl in Htrain'.
  rewrite Htrain in Htrain'. injection Htrain' as -> -> ->.
  pose proof (fact_pruned _ _ _ _ _ Ht) as Hprune'. simpl in Hprune'.
  rewrite Hprune in Hprune'. injection Hprune' as -> ->.
  exists (decide_step st results). split; [by apply iteration_completed|].
  rewrite (step_decision _ _ _ _ _ _ _ Ht Hnd Hnew).
  by destruct (improved results).
Qed.

Lemma completed_iteration_on_distinct_names_witness :
  exists results w' mlr X Y best worst st',
    reflexionStep Demo.accepting 5 (stepInput Demo.start "d" 0) [] = (Ok results, w') /\
    trainFeatureModel Demo.accepting (run_features Demo.start)
      (trainingSplit Demo.accepting (stepInput Demo.start "d" 0) []) = Ok (mlr, X, Y) /\
    updateFeatures (run_features Demo.start) mlr = Ok (best, worst) /\
    iteration Demo.accepting 5 "d" 0 Demo.start [] = (Ok st', w') /\
    run_featuredVideos st' = out_videos results /\
    if improved results
    then run_features st' = best ++ [newFeature results] /\
         run_failedFeatures st' = run_failedFeatures Demo.start ++ [Some worst]
    else run_features st' = run_features Demo.start /\
         run_failedFeatures st'
         = run_failedFeatures Demo.start ++ [Some (newFeature results)].
Proof.
  run_first_step Demo.accepting.
  destruct (reflexionStep_Ok _ _ _ _ _ _ Hrun) as [t Ht].
  pose proof (fact_trained _ _ _ _ _ Ht) as Htrain.
  pose proof (fact_pruned _ _ _ _ _ Ht) as Hprune.
  destruct (proposal_is_fresh _ _ _ _ _ _ _ (propose_fresh_contract _) Ht) as [Hnew _].
  destruct (completed_iteration_on_distinct_names _ _ _ _ _ _ _ _ _ _ _ _ _
              Hrun Htrain Hprune) as (st' & Hst'); [|exact Hnew|].
  { apply (bool_decide_unpack _). vm_compute. reflexivity. }
  exists results, w', (t_mlr t), (t_X t), (t_Y t), (t_bestFeatures t),
         (t_worstFeature t), st'.
  split; [reflexivity|]. split; [exact Htrain|]. split; [exact Hprune|]. exact Hst'.
Defined.

Lemma history_defined (l : list (option iFeature)) :
  (forall o, o ∈ l -> is_Some o) -> l = map Some (omap (fun o => o) l).
Proof.
  induction l as [|[f|] l IH]; intros Hl; simpl.
  - done.
  - f_equal. apply IH. intros o Ho. apply Hl. by apply list_elem_of_further.
  - destruct (Hl None) as [x Hx]; [apply list_elem_of_here|done].
Qed.

Lemma decide_step_distinct_history env K st dir index w results t :
  proposer_contract env ->
  well_formed K st ->
  NoDup (map (fmap name) (run_failedFeatures st)) ->
  StepFacts env (stepInput st dir index) w results t ->
  NoDup (map (fmap name) (run_failedFeatures (decide_step st results))).
Proof.
  intros Hcontract (_ & Hnd & _ & Hdisj) Hhist Ht.
  destruct (proposal_is_fresh _ _ _ _ _ _ _ Hcontract Ht) as [Hnew Hnew_failed].
  destruct (updateFeatures_Ok _ _ _ _ (fact_pruned _ _ _ _ _ Ht)) as (i & Hi & _).
  simpl in Hi. apply list_elem_of_lookup_2 in Hi.
  assert (forall x, (forall g, Some g ∈ run_failedFeatures st -> name x <> name g) ->
            NoDup (map (fmap name) (run_failedFeatures st ++ [Some x]))) as Hext.
  { intros x Hx. rewrite map_app. apply NoDup_app. split; [done|]. split.
    - intros nm Hnm ->%list_elem_of_singleton.
      apply list_elem_of_fmap in Hnm as ([g|] & Hg & Hin); [|done].
      injection Hg as Hg. by apply (Hx g).
    - apply NoDup_singleton. }
  rewrite (step_decision _ _ _ _ _ _ _ Ht Hnd Hnew).
  destruct (improved results); simpl; apply Hext.
  - intros g Hg. by apply Hdisj.
  - exact Hnew_failed.
Qed.

Lemma reachable_well_formed env st0 st :
  proposer_contract env ->
  NoDup (map name (run_features st0)) ->
  run_failedFeatures st0 = [] ->
  reachable env st0 st ->
  well_formed (length (run_features st0)) st /\
  NoDup (map (fmap name) (run_failedFeatures st)).
Proof.
  intros Hcontract Hnd Hempty Hreach.
  induction Hreach as [|fuel dir index st w st' w' _ [IHwf IHnd] Hit].
  - split; [|rewrite Hempty; apply NoDup_nil_2].
    repeat split; [done| |]; rewrite Hempty.
    + by intros o ?%elem_of_nil.
    + by intros f g _ ?%elem_of_nil.
  - split; [by eapply iteration_well_formed|].
    apply iteration_cases in Hit as [->|(results & w1 & Hrun & ->)]; [done|].
    destruct (reflexionStep_Ok _ _ _ _ _ _ Hrun) as [t Ht].
    by eapply decide_step_distinct_history.
Qed.

(** X10. Under the proposer contract, and from [K] active features of
    pairwise distinct names and an empty history, the rejected-feature
    history of every reachable state holds no [undefined], no two features
    of one name, and no name that is active. *)
Theorem rejected_names_stay_distinct env st0 st :
  proposer_contract env ->
  NoDup (map name (run_features st0)) ->
  run_failedFeatures st0 = [] ->
  reachable env st0 st ->
  exists rejected,
    run_failedFeatures st = map Some rejected /\
    NoDup (map name rejected) /\
    (forall f g, f ∈ run_features st -> g ∈ rejected -> name f <> name g).
Proof.
  intros Hcontract Hnd Hempty Hreach.
  destruct (reachable_well_formed env st0 st Hcontract Hnd Hempty Hreach)
    as [(_ & _ & Hsome & Hdisj) Hhist].
  pose proof (history_defined _ Hsome) as Hrej.
  exists (omap (fun o => o) (run_failedFeatures st)). split; [exact Hrej|]. split.
  - rewrite Hrej in Hhist. rewrite map_map in Hhist. simpl in Hhist.
    rewrite <- (map_map name Some) in Hhist.
    by apply (NoDup_fmap_1 Some) in Hhist.
  - intros f g Hf Hg. apply Hdisj; [done|]. rewrite Hrej.
    by apply list_elem_of_fmap_2.
Qed.

Lemma rejected_names_stay_distinct_witness :
  exists st w rejected,
    reflexionLoop Demo.rejecting 5 "d" 3 0 Demo.start [] = (Ok st, w) /\
    run_failedFeatures st = map Some rejected /\
    NoDup (map name rejected) /\
    (forall f g, f ∈ run_features st -> g ∈ rejected -> name f <> name g).
Proof.
  assert (returned (fst (reflexionLoop Demo.rejecting 5 "d" 3 0 Demo.start [])) = true)
    as Hok by (vm_compute; reflexivity).
  destruct (reflexionLoop Demo.rejecting 5 "d" 3 0 Demo.start [])
    as [[st| |] w] eqn:Hloop; [clear Hok|discriminate Hok|discriminate Hok].
  destruct (rejected_names_stay_distinct Demo.rejecting Demo.start st)
    as (rejected & Hrej); [apply propose_fresh_contract| |reflexivity| |].
  - apply (bool_decide_unpack _). vm_compute. reflexivity.
  - eapply reflexionLoop_reachable; [apply reach_start|exact Hloop].
  - exists st, w, rejected. split; [reflexivity|exact Hrej].
Defined.

(** X11. [runReflexion] end to end: when the bootstrap hands over features
    of pairwise distinct names and the proposer honours its contract, a
    run that returns hands back as many features as the bootstrap gave,
    again of pairwise distinct names. *)
Theorem runReflexion_keeps_feature_count env fuel videos dir w vs0 fs0 fs vs w' :
  proposer_contract env ->
  featureVideos env (w ++ [WriteFile (ReflexionDir dir)]) videos = Ok (vs0, fs0) ->
  NoDup (map name fs0) ->
  runReflexion env fuel videos dir w = (Ok (fs, vs), w') ->
  length fs = length fs0 /\ NoDup (map name fs).
Proof.
  intros Hcontract Hboot Hnd. unfold runReflexion, mbind, M_bind, bind.
  unfold writeFileSync at 1.
  destruct (fs_write env w (ReflexionDir dir)) as [[]| |]; [|done|done].
  unfold bootstrap. rewrite Hboot.
  set (st0 := {| run_features := fs0; run_featuredVideos := vs0;
                 run_failedFeatures := [] |}).
  destruct (reflexionLoop env fuel dir 10 0 st0 _) as [[st| |] w1] eqn:Hloop;
    [|done|done].
  destruct (writeFileSync env (FeaturesFile dir) w1) as [[[]| |] w2]; [|done|done].
  destruct (writeFileSync env (ReflexionVideosFile dir) w2) as [[[]| |] w3];
    [|done|done].
  case_if; [|done]. intros [= <- <- <-].
  destruct (reachable_well_formed env st0 st Hcontract Hnd eq_refl)
    as [(Hlen & Hnames & _) _]; [|done].
  eapply reflexionLoop_reachable; [apply reach_start|exact Hloop].
Qed.

Lemma runReflexion_keeps_feature_count_witness :
  exists fs vs w',
    runReflexion Demo.rejecting 5 [] "d" [] = (Ok (fs, vs), w') /\
    length fs = 2%nat /\ NoDup (map name fs).
Proof.
  assert (returned (fst (runReflexion Demo.rejecting 5 [] "d" [])) = true)
    as Hok by (vm_compute; reflexivity).
  destruct (runReflexion Demo.rejecting 5 [] "d" [])
    as [[[fs vs]| |] w'] eqn:Hrun; [clear Hok|discriminate Hok|discriminate Hok].
  exists fs, vs, w'. split; [reflexivity|].
  apply (runReflexion_keeps_feature_count Demo.rejecting 5 [] "d" []
           Demo.videos [Demo.feature "a"; Demo.feature "b"] fs vs w').
  - apply propose_fresh_contract.
  - reflexivity.
  - apply (bool_decide_unpack _). vm_compute. reflexivity.
  - exact Hrun.
Defined.

(** ** Training and pruning together *)

(** X12. The two places that count five recent views. When the
    regression returns one weight per input column and the intercept, the
    model trained on a non-empty feature list is pruned without error
    exactly when the first video carries five recent views; with any other
    number [updateFeatures] throws [Feature length mismatch]. *)
Theorem pruning_needs_five_recent_views env fs v videos mlr X Y :
  fs <> [] ->
  trainFeatureModel env fs (v :: videos) = Ok (mlr, X, Y) ->
  length (weights mlr) = S (length (hd [] X)) ->
  (length (recentViews v) = 5%nat ->
   exists best worst, updateFeatures fs mlr = Ok (best, worst)) /\
  (length (recentViews v) <> 5%nat ->
   updateFeatures fs mlr = Throw FeatureLengthMismatch).
Proof.
  intros Hne Htrain Hlayout.
  unfold trainFeatureModel in Htrain.
  destruct (MLR_new env _ _) as [m| |] eqn:Hfit; [|done|done].
  simpl in Htrain. injection Htrain as -> <- <-.
  simpl in Hlayout. rewrite length_app, !length_map in Hlayout.
  assert (0 < length fs)%nat as Hfs by (destruct fs; [done|simpl; lia]).
  unfold updateFeatures. rewrite featureCoefficients_length, length_map, Hlayout.
  split.
  - intros Hfive.
    replace (S (length (recentViews v) + length fs) - 6)%nat with (length fs) by lia.
    rewrite Nat.eqb_refl. simpl.
    destruct (leastFeatureIdx_spec (featuresValue fs mlr)) as (Hle & _).
    rewrite featuresValue_length in Hle.
    destruct (lookup_lt_is_Some_2 fs (leastFeatureIdx (featuresValue fs mlr)))
      as [worst Hworst]; [lia|].
    unfold at_index. rewrite Hworst. simpl. eauto.
  - intros Hother.
    replace (S (length (recentViews v) + length fs) - 6 =? length fs)%nat with false;
      [done|]. symmetry. apply Nat.eqb_neq. lia.
Qed.

Lemma pruning_needs_five_recent_views_witness :
  exists mlr X Y,
    trainFeatureModel Demo.accepting (run_features Demo.start) Demo.videos
    = Ok (mlr, X, Y) /\
    exists best worst, updateFeatures (run_features Demo.start) mlr = Ok (best, worst).
Proof.
  eexists _, _, _. split; [reflexivity|].
  eapply (pruning_needs_five_recent_views Demo.accepting (run_features Demo.start)
            (Demo.video "v0" 0 [("a", 1%Q); ("b", 1%Q)]) (List.tl Demo.videos)).
  - discriminate.
  - reflexivity.
  - reflexivity.
  - reflexivity.
Defined.

(** ** The data preparation *)

Lemma slice_window {A} (a b : nat) (l : list A) :
  (a <= b <= length l)%nat ->
  JS.slice (Z.of_nat a) (Z.of_nat b) l = take (b - a) (drop a l).
Proof.
  intros Hab. unfold JS.slice.
  destruct (Z.ltb_spec (Z.of_nat a) 0); [lia|].
  destruct (Z.ltb_spec (Z.of_nat b) 0); [lia|].
  rewrite (Z.min_l (Z.of_nat a)), (Z.min_l (Z.of_nat b)) by lia.
  rewrite Nat2Z.id. f_equal. lia.
Qed.

Lemma slice_tail {A} (n : nat) (l : list A) :
  (0 < n)%nat ->
  JS.slice (- Z.of_nat n) (Z.of_nat (length l)) l = drop (length l - n) l.
Proof.
  intros Hn. unfold JS.slice.
  destruct (Z.ltb_spec (Z.of_nat (length l)) 0); [lia|].
  rewrite (Z.min_l (Z.of_nat (length l))) by lia.
  destruct (Z.ltb_spec (- Z.of_nat n) 0); [|lia].
  replace (Z.to_nat (Z.max (Z.of_nat (length l) + - Z.of_nat n) 0))
    with (length l - n)%nat by lia.
  apply take_ge. rewrite length_drop. lia.
Qed.

Lemma recent_row_length (videos : list iVideo) (i : nat) :
  (i <= length videos)%nat ->
  JS.slice (Z.max 0 (Z.of_nat i - Z.of_nat RECENT_VIDEOS_COUNT)) (Z.of_nat i) videos
  = take (Nat.min i 5) (drop (i - 5) videos).
Proof.
  intros Hi. unfold RECENT_VIDEOS_COUNT.
  replace (Z.max 0 (Z.of_nat i - Z.of_nat 5)) with (Z.of_nat (i - 5)) by lia.
  rewrite slice_window by lia. f_equal. lia.
Qed.

Lemma getRecentVideos_rows env (videos : list iVideo) :
  getRecentVideos env videos
  = imap (fun k v =>
            {| rv_video := v;
               rv_recentViews :=
                 map (fun v2 : iVideo => Math_log env (views v2 + 1)%Q)
                     (take 5 (drop k videos)) |})
         (drop 5 videos).
Proof.
  unfold getRecentVideos.
  set (F := fun (i : nat) (v : iVideo) => {| rv_video := v; rv_recentViews := _ |}).
  assert (imap F videos
          = imap F (take 5 videos)
            ++ imap (fun n => F (length (take 5 videos) + n)%nat) (drop 5 videos)) as ->
    by (rewrite <- imap_app; by rewrite take_drop).
  rewrite List.filter_app, filter_none, filter_every.
  - simpl. apply list_eq. intros k. rewrite !list_lookup_imap.
    destruct (drop 5 videos !! k) as [v|] eqn:Hk; [|done]. simpl. f_equal.
    apply lookup_lt_Some in Hk. rewrite length_drop in Hk.
    rewrite length_take, Nat.min_l by lia.
    unfold F. f_equal. rewrite recent_row_length by lia.
    replace (Nat.min (5 + k) 5) with 5%nat by lia.
    by replace (5 + k - 5)%nat with k by lia.
  - intros r (k & v & -> & Hk)%elem_of_lookup_imap.
    apply lookup_lt_Some in Hk. rewrite length_drop in Hk.
    rewrite length_take, Nat.min_l by lia.
    unfold F, RECENT_VIDEOS_COUNT. simpl.
    rewrite length_map, recent_row_length by lia.
    rewrite length_take, length_drop. apply Nat.eqb_eq. lia.
  - intros r (i & v & -> & Hi)%elem_of_lookup_imap.
    apply lookup_lt_Some in Hi. rewrite length_take in Hi.
    unfold F, RECENT_VIDEOS_COUNT. simpl.
    rewrite length_map, recent_row_length by lia.
    rewrite length_take, length_drop. apply Nat.eqb_neq. lia.
Qed.

(** X13. [getRecentVideos] drops the first five videos and keeps every
    other one, in order; the video at position [k] of the result carries
    exactly five recent views, the log views of the five videos that
    precede it in the input, in input order. With five videos or fewer the
    result is empty. *)
Theorem getRecentVideos_windows env (videos : list iVideo) :
  map rv_video (getRecentVideos env videos) = drop 5 videos /\
  forall k r, getRecentVideos env videos !! k = Some r ->
    videos !! (k + 5)%nat = Some (rv_video r) /\
    rv_recentViews r
    = map (fun v : iVideo => Math_log env (views v + 1)%Q) (take 5 (drop k videos)) /\
    length (rv_recentViews r) = 5%nat.
Proof.
  rewrite getRecentVideos_rows. split.
  - apply list_eq. intros k. rewrite list_lookup_fmap, list_lookup_imap.
    by destruct (drop 5 videos !! k).
  - intros k r. rewrite list_lookup_imap.
    destruct (drop 5 videos !! k) as [v|] eqn:Hk; [|done]. simpl. intros [= <-]. simpl.
    pose proof (lookup_lt_Some _ _ _ Hk) as Hlt. rewrite length_drop in Hlt.
    rewrite lookup_drop in Hk. split; [by rewrite Nat.add_comm|]. split; [done|].
    rewrite length_map, length_take, length_drop. lia.
Qed.

Lemma getRecentVideos_videos env (videos : list iVideo) :
  map rv_video (getRecentVideos env videos) = drop 5 videos.
Proof.
  rewrite getRecentVideos_rows. apply list_eq. intros k.
  rewrite list_lookup_fmap, list_lookup_imap. by destruct (drop 5 videos !! k).
Qed.

Lemma getRecentVideos_five env (videos : list iVideo) :
  Forall (fun r => length (rv_recentViews r) = 5%nat) (getRecentVideos env videos).
Proof.
  rewrite getRecentVideos_rows. apply Forall_forall.
  intros r (k & v & -> & Hk)%elem_of_lookup_imap. simpl.
  apply lookup_lt_Some in Hk. rewrite length_drop in Hk.
  rewrite length_map, length_take, length_drop. lia.
Qed.

(** X14. The training rows written for a channel are taken from the
    channel's videos dated before 2025, in their order: those at positions
    5 to 104 of that selection, at most a hundred of them, and every row
    carries five recent views, which is what training and pruning
    expect. *)
Theorem trainingData_rows env (dated_before_2025 : string -> bool)
    (videos : list iVideo) :
  map video (trainingData env dated_before_2025 videos)
  = take 100 (drop 5 (List.filter (fun v : iVideo => dated_before_2025 (date v))
                                  videos)) /\
  Forall (fun tv : iTrainingVideo => length (recentViews tv) = 5%nat)
         (trainingData env dated_before_2025 videos).
Proof.
  unfold trainingData. cbv zeta.
  change 100%Z with (Z.of_nat 100). rewrite slice_prefix.
  split.
  - rewrite <- (getRecentVideos_videos env), <- !firstn_map. f_equal.
    by rewrite map_map.
  - apply Forall_take, Forall_fmap.
    eapply Forall_impl; [apply getRecentVideos_five|]. by intros r Hr.
Qed.

(** ** The contrast sample *)

Lemma getVideos_sorted (videos : list iVideo) :
  getVideos videos
  = (take 20 (JS.sort (descending views) videos),
     drop (length videos - 20) (JS.sort (descending views) videos)).
Proof.
  unfold getVideos. change (fun a b : iVideo => (views b - views a)%Q)
                      with (descending views).
  set (sorted := JS.sort (descending views) videos).
  assert (length sorted = length videos) as Hlen
    by (unfold sorted; by rewrite sort_Permutation).
  change 20%Z with (Z.of_nat 20). rewrite slice_prefix.
  change (-20)%Z with (- (Z.of_nat 20))%Z. rewrite slice_tail by lia.
  by rewrite Hlen.
Qed.

Lemma sorted_split_ordered (sorted : list iVideo) (k : nat) :
  StronglySorted (not_below views) sorted ->
  forall a b, a ∈ take k sorted -> b ∈ drop k sorted -> (views b <= views a)%Q.
Proof.
  intros Hsorted a b Ha Hb.
  apply elem_of_take in Ha as (i & Hi & Hik).
  apply list_elem_of_lookup in Hb as [j Hj]. rewrite lookup_drop in Hj.
  apply (StronglySorted_lookup _ _ i (k + j) a b Hsorted); [lia|done|done].
Qed.

(** X15. The contrast sample. Both lists have [min 20 n] videos; no video
    outside the top list has more views than one inside it, and none
    outside the bottom list has fewer views than one inside it. *)
Theorem getVideos_extremes (videos : list iVideo) :
  length (fst (getVideos videos)) = Nat.min 20 (length videos) /\
  length (snd (getVideos videos)) = Nat.min 20 (length videos) /\
  (exists rest, videos ≡ₚ fst (getVideos videos) ++ rest /\
     forall a b, a ∈ fst (getVideos videos) -> b ∈ rest -> (views b <= views a)%Q) /\
  (exists rest, videos ≡ₚ rest ++ snd (getVideos videos) /\
     forall a b, a ∈ rest -> b ∈ snd (getVideos videos) -> (views b <= views a)%Q).
Proof.
  rewrite getVideos_sorted. cbn [fst snd].
  set (sorted := JS.sort (descending views) videos).
  assert (Hperm : sorted ≡ₚ videos) by apply sort_Permutation.
  assert (Hsorted : StronglySorted (not_below views) sorted) by apply sort_descending.
  assert (length sorted = length videos) as Hlen by (by rewrite Hperm).
  clearbody sorted.
  split; [rewrite length_take; lia|]. split; [rewrite length_drop; lia|]. split.
  - exists (drop 20 sorted). split; [by rewrite take_drop|].
    by apply sorted_split_ordered.
  - exists (take (length videos - 20) sorted). split; [by rewrite take_drop|].
    by apply sorted_split_ordered.
Qed.

(** X16. How the two lists of the contrast sample overlap. Up to twenty
    videos they are the same list; from twenty to forty videos the last
    [40 - n] videos of the top list are the first ones of the bottom list;
    from forty videos on they are apart in the sorted order. *)
Theorem getVideos_overlap (videos : list iVideo) :
  ((length videos <= 20)%nat -> fst (getVideos videos) = snd (getVideos videos)) /\
  ((20 <= length videos <= 40)%nat ->
   drop (length videos - 20) (fst (getVideos videos))
   = take (40 - length videos) (snd (getVideos videos))) /\
  ((40 <= length videos)%nat ->
   exists middle,
     JS.sort (fun a b : iVideo => (views b - views a)%Q) videos
     = fst (getVideos videos) ++ middle ++ snd (getVideos videos)).
Proof.
  rewrite getVideos_sorted. cbn [fst snd].
  change (fun a b : iVideo => (views b - views a)%Q) with (descending views).
  set (sorted := JS.sort (descending views) videos).
  assert (length sorted = length videos) as Hlen
    by (unfold sorted; by rewrite sort_Permutation).
  clearbody sorted.
  split; [|split].
  - intros Hn. replace (length videos - 20)%nat with 0%nat by lia.
    rewrite drop_0. apply take_ge. lia.
  - intros Hn. rewrite take_drop_commute. do 2 f_equal. lia.
  - intros Hn. exists (take (length videos - 40) (drop 20 sorted)).
    rewrite <- (take_drop 20 sorted) at 1. f_equal.
    rewrite <- (take_drop (length videos - 40) (drop 20 sorted)) at 1. f_equal.
    rewrite drop_drop. f_equal. lia.
Qed.

(** ** What the validator lets through *)

Lemma validate_string (v : Value) :
  validateAgainstSchema v stringSchema = true <-> exists s, v = Data (JString s).
Proof.
  simpl. split.
  - destruct v as [[]| |]; try done. eauto.
  - by intros [s ->].
Qed.

Lemma validate_score (v : Value) :
  validateAgainstSchema v scoreSchema = true <-> exists q, v = Data (JNumber q).
Proof.
  simpl. split.
  - destruct v as [[]| |]; try done. eauto.
  - by intros [q ->].
Qed.

(** A key that is required and has a schema: the object has it as a
    property of its own, when what it would inherit under that key does not
    fit the schema. *)
Lemma field_validated (fields : list (string * Json)) (key : string)
    (schema : GeminiSchema) (P : Json -> Prop) :
  validateAgainstSchema Function schema = false ->
  (key = "__proto__" -> validateAgainstSchema ObjectPrototype schema = false) ->
  (forall j, validateAgainstSchema (Data j) schema = true <-> P j) ->
  (has_property (Data (JObject fields)) key = true /\
   (if has_property (Data (JObject fields)) key
    then validateAgainstSchema (get_property (Data (JObject fields)) key) schema
    else true) = true)
  <-> exists j, own fields key = Some j /\ P j.
Proof.
  intros Hfun Hproto Hschema. split.
  - intros [Hhas Hvalid]. rewrite Hhas in Hvalid. cbn [get_property] in Hvalid.
    destruct (own fields key) as [j|]; [apply Hschema in Hvalid; eauto|].
    destruct (String.eqb_spec key "__proto__") as [Hkey|_].
    + rewrite (Hproto Hkey) in Hvalid. done.
    + rewrite Hfun in Hvalid. done.
  - intros (j & Hown & Hj).
    assert (has_property (Data (JObject fields)) key = true) as Hhas.
    { simpl. rewrite Hown. apply orb_true_iff. left. apply bool_decide_eq_true. eauto. }
    rewrite Hhas. split; [done|]. cbn [get_property]. rewrite Hown. by apply Hschema.
Qed.

Lemma string_field (fields : list (string * Json)) (key : string) :
  (has_property (Data (JObject fields)) key = true /\
   (if has_property (Data (JObject fields)) key
    then validateAgainstSchema (get_property (Data (JObject fields)) key) stringSchema
    else true) = true)
  <-> exists s, own fields key = Some (JString s).
Proof.
  rewrite (field_validated fields key stringSchema (fun j => exists s, j = JString s));
    [| done | done |].
  - split; [intros (j & Hj & s & ->); eauto|intros [s Hs]; eauto].
  - intros j. rewrite validate_string. split; [intros [s [= ->]]; eauto|intros [s ->]; eauto].
Qed.

Lemma score_field (fields : list (string * Json)) (key : string) :
  (has_property (Data (JObject fields)) key = true /\
   (if has_property (Data (JObject fields)) key
    then validateAgainstSchema (get_property (Data (JObject fields)) key) scoreSchema
    else true) = true)
  <-> exists q, own fields key = Some (JNumber q).
Proof.
  rewrite (field_validated fields key scoreSchema (fun j => exists q, j = JNumber q));
    [| done | done |].
  - split; [intros (j & Hj & q & ->); eauto|intros [q Hq]; eauto].
  - intros j. rewrite validate_score. split; [intros [q [= ->]]; eauto|intros [q ->]; eauto].
Qed.

Lemma feature_object_validated (j : Json) :
  validateAgainstSchema (Data j) featureSchema = true
  <-> exists fields n s d,
        j = JObject fields /\
        own fields "name" = Some (JString n) /\
        own fields "summary" = Some (JString s) /\
        own fields "description" = Some (JString d).
Proof.
  destruct j as [| | | | |fields];
    try (split; [done|by intros (? & ? & ? & ? & ? & _)]).
  pose proof (string_field fields "name") as Hn.
  pose proof (string_field fields "summary") as Hs.
  pose proof (string_field fields "description") as Hd.
  cbn [validateAgainstSchema featureSchema String.eqb Ascii.eqb Bool.eqb
       is_plain_object default from_option Datatypes.id forallb andb].
  rewrite !andb_true_iff. split.
  - intros [[Hn1 [Hs1 [Hd1 _]]] [Hn2 [Hs2 [Hd2 _]]]].
    destruct (proj1 Hn (conj Hn1 Hn2)) as [n Hn'].
    destruct (proj1 Hs (conj Hs1 Hs2)) as [s Hs'].
    destruct (proj1 Hd (conj Hd1 Hd2)) as [d Hd'].
    by exists fields, n, s, d.
  - intros (? & n & s & d & [= <-] & Hn' & Hs' & Hd').
    destruct (proj2 Hn (ex_intro _ n Hn')) as [Hn1 Hn2].
    destruct (proj2 Hs (ex_intro _ s Hs')) as [Hs1 Hs2].
    destruct (proj2 Hd (ex_intro _ d Hd')) as [Hd1 Hd2].
    done.
Qed.

(** X17. What passes for the features of the bootstrap. A reply is valid
    for [contrastSchema] exactly when it is an array whose entries are
    objects with a string [name], [summary] and [description] of their own;
    other keys are let through. Nothing is asked of the number of entries
    or of their names: the reply that holds any list of features, empty or
    with a name repeated, is valid. *)
Theorem contrastSchema_accepts (j : Json) :
  (validateAgainstSchema (Data j) contrastSchema = true
   <-> exists entries,
         j = JArray entries /\
         Forall (fun e => exists fields n s d,
                   e = JObject fields /\
                   own fields "name" = Some (JString n) /\
                   own fields "summary" = Some (JString s) /\
                   own fields "description" = Some (JString d)) entries) /\
  forall fs : list iFeature,
    validateAgainstSchema (Data (JArray (map featureReply fs))) contrastSchema = true.
Proof.
  assert (Harray : forall entries,
            validateAgainstSchema (Data (JArray entries)) contrastSchema = true
            <-> Forall (fun e => validateAgainstSchema (Data e) featureSchema = true)
                       entries).
  { intros entries. cbn [validateAgainstSchema contrastSchema String.eqb Ascii.eqb
                         Bool.eqb].
    rewrite forallb_forall, Forall_forall. split; intros Hall e He; apply Hall;
      by apply list_elem_of_In. }
  split.
  - destruct j as [| | | |entries|]; try (split; [done|by intros (? & ? & _)]).
    rewrite Harray. split.
    + intros Hall. exists entries. split; [done|].
      eapply Forall_impl; [exact Hall|]. intros e He. by apply feature_object_validated.
    + intros (? & [= <-] & Hall).
      eapply Forall_impl; [exact Hall|]. intros e He. by apply feature_object_validated.
  - intros fs. apply Harray, Forall_forall.
    intros e (f & -> & _)%list_elem_of_fmap.
    apply feature_object_validated.
    by exists [("name", JString (name f)); ("summary", JString (summary f));
               ("description", JString (description f))],
              (name f), (summary f), (description f).
Qed.

Lemma own_scores (scores : list (string * Q)) (key : string) :
  own (map (fun '(nm, q) => (nm, JNumber q)) scores) key
  = JNumber <$> (snd <$> List.find (fun kv => fst kv =? key) scores).
Proof.
  unfold own. induction scores as [|[nm q] scores IH]; simpl; [done|].
  destruct (nm =? key); [done|exact IH].
Qed.

Lemma scores_validated (scores : list (string * Json)) (names : list string) :
  forallb (has_property (Data (JObject scores))) names
  && forallb (fun entry : string * GeminiSchema =>
                let (key, subschema) := entry in
                if has_property (Data (JObject scores)) key
                then validateAgainstSchema (get_property (Data (JObject scores)) key)
                       subschema
                else true)
             (map (fun nm => (nm, scoreSchema))
                  (remove_dups (List.filter (fun nm => negb (nm =? "__proto__")) names)))
     = true
  <-> Forall (fun nm => nm <> "__proto__" ->
                        exists q, own scores nm = Some (JNumber q)) names.
Proof.
  rewrite andb_true_iff, !forallb_forall, Forall_forall. split.
  - intros [Hreq Hprops] nm Hnm Hproto. apply score_field.
    split; [by apply Hreq, list_elem_of_In|].
    apply (Hprops (nm, scoreSchema)), list_elem_of_In.
    apply (list_elem_of_fmap_2 (fun nm => (nm, scoreSchema))).
    apply elem_of_remove_dups, list_elem_of_In, filter_In.
    split; [by apply list_elem_of_In|]. by apply negb_true_iff, String.eqb_neq.
  - intros Hall. split.
    + intros nm Hnm%list_elem_of_In.
      destruct (String.eqb_spec nm "__proto__") as [->|Hproto].
      * unfold has_property. apply orb_true_iff. right. by vm_compute.
      * by destruct (proj2 (score_field scores nm) (Hall nm Hnm Hproto)).
    + intros [nm sub] Hin%list_elem_of_In.
      apply list_elem_of_fmap in Hin as (nm' & [= -> ->] & Hnm).
      apply (proj1 (elem_of_remove_dups _ _)) in Hnm.
      apply list_elem_of_In, filter_In in Hnm as [Hnm Hproto].
      apply negb_true_iff, String.eqb_neq in Hproto. apply list_elem_of_In in Hnm.
      by destruct (proj2 (score_field scores nm') (Hall nm' Hnm Hproto)).
Qed.

Lemma Forall_names (P : string -> Prop) (fs : list iFeature) :
  Forall P (map name fs) <-> Forall (fun f => P (name f)) fs.
Proof.
  rewrite !Forall_forall. split.
  - intros Hall f Hf. by apply Hall, (list_elem_of_fmap_2 name).
  - intros Hall nm (f & -> & Hf)%list_elem_of_fmap. by apply Hall.
Qed.

Lemma ranking_object_validated (fs : list iFeature) (j : Json) :
  validateAgainstSchema (Data j)
    (Schema (Some "object")
       (Some [("title", stringSchema);
              ("features",
               Schema (Some "object")
                 (Some (map (fun nm => (nm, scoreSchema))
                            (remove_dups
                               (List.filter (fun nm => negb (nm =? "__proto__"))
                                            (map name fs)))))
                 None (Some (map name fs)) None None)])
       None (Some ["title"; "features"]) None None) = true
  <-> exists fields t scores,
        j = JObject fields /\
        own fields "title" = Some (JString t) /\
        own fields "features" = Some (JObject scores) /\
        Forall (fun f => name f <> "__proto__" ->
                         exists q, own scores (name f) = Some (JNumber q)) fs.
Proof.
  set (scoresSchema := Schema (Some "object") (Some (map _ _)) None _ None None).
  assert (Hobj : forall j', validateAgainstSchema (Data j') scoresSchema = true
                   <-> exists scores, j' = JObject scores /\
                         Forall (fun f => name f <> "__proto__" ->
                                          exists q,
                                            own scores (name f) = Some (JNumber q)) fs).
  { intros j'. unfold scoresSchema.
    cbn [validateAgainstSchema String.eqb Ascii.eqb Bool.eqb default from_option
         Datatypes.id].
    rewrite <- andb_assoc, andb_true_iff. split.
    - intros [Hplain Hscores]. destruct j' as [| | | | |scores]; try done.
      apply scores_validated in Hscores.
      exists scores. split; [done|]. by apply Forall_names in Hscores.
    - intros (scores & -> & Hall). split; [done|].
      apply scores_validated.
      by apply (Forall_names (fun nm => nm <> "__proto__" ->
                                        exists q, own scores nm = Some (JNumber q))). }
  destruct j as [| | | | |fields];
    try (split; [done|by intros (? & ? & ? & ? & _)]).
  pose proof (string_field fields "title") as Ht.
  pose proof (field_validated fields "features" scoresSchema _ eq_refl
                ltac:(discriminate) Hobj) as Hf.
  cbn [validateAgainstSchema String.eqb Ascii.eqb Bool.eqb
       is_plain_object default from_option Datatypes.id forallb andb].
  fold scoresSchema.
  rewrite !andb_true_iff. split.
  - intros [[Ht1 [Hf1 _]] [Ht2 [Hf2 _]]].
    destruct (proj1 Ht (conj Ht1 Ht2)) as [t Ht'].
    destruct (proj1 Hf (conj Hf1 Hf2)) as (? & Hf' & scores & -> & Hall).
    by exists fields, t, scores.
  - intros (? & t & scores & [= <-] & Ht' & Hf' & Hall).
    destruct (proj2 Ht (ex_intro _ t Ht')) as [Ht1 Ht2].
    destruct (proj2 Hf (ex_intro _ _ (conj Hf' (ex_intro _ scores (conj eq_refl Hall)))))
      as [Hf1 Hf2].
    done.
Qed.

Lemma ranking_array_validated (fs : list iFeature) (entries : list Json) :
  validateAgainstSchema (Data (JArray entries)) (rankingSchema fs) = true
  <-> Forall (fun e => exists fields t scores,
                e = JObject fields /\
                own fields "title" = Some (JString t) /\
                own fields "features" = Some (JObject scores) /\
                Forall (fun f => name f <> "__proto__" ->
                                 exists q, own scores (name f) = Some (JNumber q)) fs)
             entries.
Proof.
  cbn [validateAgainstSchema rankingSchema String.eqb Ascii.eqb Bool.eqb].
  rewrite forallb_forall, Forall_forall. split.
  - intros Hall e He. apply ranking_object_validated, Hall. by apply list_elem_of_In.
  - intros Hall e He. apply ranking_object_validated, Hall. by apply list_elem_of_In.
Qed.

(** X18. What passes for rankings. A reply is valid for [rankingSchema]
    exactly when it is an array of objects that have, as properties of
    their own, a string [title] and an object [features] holding a number
    under the name of every feature; for a feature named [__proto__]
    nothing is checked, since the schema has no entry for it. The number of
    entries and their titles are not compared with the videos asked
    about. *)
Theorem rankingSchema_accepts (fs : list iFeature) (j : Json) :
  validateAgainstSchema (Data j) (rankingSchema fs) = true
  <-> exists entries,
        j = JArray entries /\
        Forall (fun e => exists fields t scores,
                  e = JObject fields /\
                  own fields "title" = Some (JString t) /\
                  own fields "features" = Some (JObject scores) /\
                  Forall (fun f => name f <> "__proto__" ->
                                   exists q, own scores (name f) = Some (JNumber q)) fs)
               entries.
Proof.
  destruct j as [| | | |entries|]; try (split; [done|by intros (? & ? & _)]).
  rewrite ranking_array_validated. split.
  - intros Hall. by exists entries.
  - by intros (? & [= <-] & Hall).
Qed.

Lemma own_score_found (scores : list (string * Q)) (key : string) :
  key ∈ map fst scores ->
  exists q, own (map (fun '(nm, q) => (nm, JNumber q)) scores) key = Some (JNumber q).
Proof.
  rewrite own_scores. intros Hkey.
  destruct (List.find (fun kv => fst kv =? key) scores) as [[nm q]|] eqn:Hfind;
    [by exists q|].
  apply list_elem_of_fmap in Hkey as ([nm q] & -> & Hin).
  eapply find_none in Hfind; [|by apply list_elem_of_In].
  simpl in Hfind. by rewrite String.eqb_refl in Hfind.
Qed.

(** X19. The bounds of [rankingSchema] are not checked: a reply that gives
    every feature a score is valid whatever the scores are, also below 0
    and above the 10 that the schema and the prompt ask for. *)
Theorem rankingSchema_ignores_bounds (fs : list iFeature)
    (rows : list (string * list (string * Q))) :
  Forall (fun row => Forall (fun f => name f ∈ map fst (snd row)) fs) rows ->
  validateAgainstSchema (Data (rankingReply rows)) (rankingSchema fs) = true.
Proof.
  intros Hrows. apply ranking_array_validated, Forall_forall.
  intros e ([t scores] & -> & Hrow)%list_elem_of_fmap.
  eapply Forall_forall in Hrows; [|exact Hrow]. simpl in Hrows.
  eexists _, t, _. split; [reflexivity|]. split; [reflexivity|]. split; [reflexivity|].
  eapply Forall_impl; [exact Hrows|]. intros f Hf _. by apply own_score_found.
Qed.

Lemma rankingSchema_ignores_bounds_witness :
  validateAgainstSchema
    (Data (rankingReply [("v0", [("a", 11%Q)]); ("v1", [("a", (-3)%Q)])]))
    (rankingSchema [Demo.feature "a"]) = true.
Proof.
  apply (rankingSchema_ignores_bounds [Demo.feature "a"]
           [("v0", [("a", 11%Q)]); ("v1", [("a", (-3)%Q)])]).
  repeat constructor.
Defined.

(** ** Finding the JSON in a reply *)

Lemma indexOf_range (c : Ascii.ascii) (s : string) :
  (-1 <= Text.indexOf c s < Z.of_nat (String.length s))%Z.
Proof.
  induction s as [|a s IH]; cbn [Text.indexOf String.length]; [lia|].
  destruct (Ascii.eqb a c); [lia|].
  destruct (Z.ltb_spec (Text.indexOf c s) 0); lia.
Qed.

Lemma lastIndexOf_range (c : Ascii.ascii) (s : string) :
  (-1 <= Text.lastIndexOf c s < Z.of_nat (String.length s))%Z.
Proof.
  induction s as [|a s IH]; cbn [Text.lastIndexOf String.length]; [lia|].
  destruct (Z.leb_spec 0 (Text.lastIndexOf c s)); [lia|].
  destruct (Ascii.eqb a c); lia.
Qed.

Lemma append_nil (s : string) : EmptyString +:+ s = s.
Proof. reflexivity. Qed.

Lemma append_cons (a : Ascii.ascii) (s t : string) :
  String a s +:+ t = String a (s +:+ t).
Proof. reflexivity. Qed.

Lemma append_assoc_cons (s : string) (a : Ascii.ascii) (t u : string) :
  (s +:+ String a t) +:+ u = s +:+ String a (t +:+ u).
Proof.
  induction s as [|b s IH]; rewrite ?append_nil, ?append_cons; [done|]. by rewrite IH.
Qed.

Lemma indexOf_app_found (c : Ascii.ascii) (pre rest : string) :
  Text.indexOf c pre = (-1)%Z ->
  Text.indexOf c (pre +:+ String c rest) = Z.of_nat (String.length pre).
Proof.
  induction pre as [|a pre IH]; rewrite ?append_nil, ?append_cons;
    cbn [Text.indexOf String.length].
  - intros _. by rewrite Ascii.eqb_refl.
  - destruct (Ascii.eqb a c); [done|].
    pose proof (indexOf_range c pre).
    destruct (Z.ltb_spec (Text.indexOf c pre) 0); [|lia].
    intros _. rewrite IH by lia.
    destruct (Z.ltb_spec (Z.of_nat (String.length pre)) 0); lia.
Qed.

Lemma indexOf_app_other (c a : Ascii.ascii) (pre rest : string) :
  Text.indexOf c pre = (-1)%Z ->
  a <> c ->
  Text.indexOf c (pre +:+ String a rest) = (-1)%Z
  \/ (Z.of_nat (String.length pre) < Text.indexOf c (pre +:+ String a rest))%Z.
Proof.
  intros Hpre Hac. induction pre as [|b pre IH];
    rewrite ?append_nil, ?append_cons; cbn [Text.indexOf String.length] in *.
  - apply Ascii.eqb_neq in Hac. rewrite Hac.
    pose proof (indexOf_range c rest).
    destruct (Z.ltb_spec (Text.indexOf c rest) 0); [by left|right; lia].
  - destruct (Ascii.eqb b c); [done|].
    pose proof (indexOf_range c pre).
    destruct (Z.ltb_spec (Text.indexOf c pre) 0); [|lia].
    destruct IH as [IH|IH]; [lia| |].
    + rewrite IH. simpl. by left.
    + destruct (Z.ltb_spec (Text.indexOf c (pre +:+ String a rest)) 0); [lia|].
      right. lia.
Qed.

Lemma lastIndexOf_app_found (c : Ascii.ascii) (s post : string) :
  Text.lastIndexOf c post = (-1)%Z ->
  Text.lastIndexOf c (s +:+ String c post) = Z.of_nat (String.length s).
Proof.
  intros Hpost. induction s as [|a s IH];
    rewrite ?append_nil, ?append_cons; cbn [Text.lastIndexOf String.length].
  - rewrite Hpost. simpl. by rewrite Ascii.eqb_refl.
  - rewrite IH. destruct (Z.leb_spec 0 (Z.of_nat (String.length s))); lia.
Qed.

Lemma lastIndexOf_app_absent (c : Ascii.ascii) (s rest : string) :
  Text.lastIndexOf c rest = (-1)%Z ->
  Text.lastIndexOf c (s +:+ rest) = Text.lastIndexOf c s.
Proof.
  intros Hrest. induction s as [|a s IH];
    rewrite ?append_nil, ?append_cons; cbn [Text.lastIndexOf]; [done|]. by rewrite IH.
Qed.

Lemma substring_prefix (mid post : string) :
  String.substring 0 (String.length mid) (mid +:+ post) = mid.
Proof.
  induction mid as [|a mid IH]; rewrite ?append_nil, ?append_cons; simpl.
  - by destruct post.
  - by rewrite IH.
Qed.

Lemma substring_middle (pre mid post : string) :
  Text.substring (Z.of_nat (String.length pre))
                 (Z.of_nat (String.length pre) + Z.of_nat (String.length mid))
                 (pre +:+ mid +:+ post) = mid.
Proof.
  unfold Text.substring.
  replace (Z.to_nat (Z.of_nat (String.length pre) + Z.of_nat (String.length mid)
                     - Z.of_nat (String.length pre))) with (String.length mid) by lia.
  rewrite Nat2Z.id.
  induction pre as [|a pre IH]; rewrite ?append_nil, ?append_cons; simpl;
    [apply substring_prefix|exact IH].
Qed.

Lemma length_String_append (a : Ascii.ascii) (s : string) (b : Ascii.ascii) :
  String.length (String a (s +:+ String b EmptyString)) = (String.length s + 2)%nat.
Proof. simpl. rewrite length_append. simpl. lia. Qed.

Section ExtractJson.
Context (JSON_parse : string -> outcome Json).
Context (pre : string).
Context (Hbrace : Text.indexOf "{" pre = (-1)%Z).
Context (Hbracket : Text.indexOf "[" pre = (-1)%Z).

Lemma extractJson_delimited (first last other : Ascii.ascii) (body post : string) :
  first <> other ->
  Text.indexOf first pre = (-1)%Z ->
  Text.indexOf other pre = (-1)%Z ->
  Text.lastIndexOf last post = (-1)%Z ->
  let text := pre +:+ String first (body +:+ String last post) in
  Text.indexOf first text = Z.of_nat (String.length pre) /\
  (Text.indexOf other text = (-1)%Z
   \/ (Z.of_nat (String.length pre) < Text.indexOf other text)%Z) /\
  Text.lastIndexOf last text = Z.of_nat (String.length pre + 1 + String.length body) /\
  Text.substring (Text.indexOf first text) (Text.lastIndexOf last text + 1) text
  = String first (body +:+ String last EmptyString).
Proof.
  intros Hne Hfirst Hother Hlast text.
  assert (Text.indexOf first text = Z.of_nat (String.length pre)) as H1
    by (by apply indexOf_app_found).
  assert (Text.lastIndexOf last text
          = Z.of_nat (String.length pre + 1 + String.length body)) as H2.
  { unfold text.
    rewrite <- append_assoc_cons.
    rewrite lastIndexOf_app_found by done. rewrite length_append. simpl.
    f_equal. lia. }
  split; [done|]. split; [by apply indexOf_app_other|]. split; [done|].
  rewrite H1, H2.
  pose proof (substring_middle pre (String first (body +:+ String last EmptyString))
                post) as Hmid.
  rewrite length_String_append in Hmid.
  replace (Z.of_nat (String.length pre + 1 + String.length body) + 1)%Z
    with (Z.of_nat (String.length pre) + Z.of_nat (String.length body + 2))%Z by lia.
  etransitivity; [|exact Hmid]. f_equal. unfold text.
  by rewrite append_cons, append_assoc_cons, append_nil.
Qed.

(** X20. Prose around the JSON is dropped. When no brace or bracket
    comes before it, an object that is followed by no other closing brace,
    and likewise an array followed by no other closing bracket, is what
    [JSON.parse] is given, from its opening to its closing delimiter. *)
Theorem extractJson_drops_prose (body post : string) :
  (Text.lastIndexOf "}" post = (-1)%Z ->
   extractJson JSON_parse (pre +:+ String "{" (body +:+ String "}" post))
   = JSON_parse (String "{" (body +:+ String "}" EmptyString))) /\
  (Text.lastIndexOf "]" post = (-1)%Z ->
   extractJson JSON_parse (pre +:+ String "[" (body +:+ String "]" post))
   = JSON_parse (String "[" (body +:+ String "]" EmptyString))).
Proof.
  split; intros Hpost.
  - pose proof (extractJson_delimited "{" "}" "[" body post
                  ltac:(discriminate) Hbrace Hbracket Hpost) as Hd.
    cbv zeta in Hd. destruct Hd as (H1 & H2 & H3 & H4).
    unfold extractJson. cbv zeta. rewrite H4, H1, H3.
    set (k := Text.indexOf "[" _) in *. clearbody k.
    set (n := Z.of_nat (String.length pre)) in *.
    set (m := Z.of_nat (String.length pre + 1 + String.length body)) in *.
    assert (0 <= n < m)%Z by lia. clearbody n m.
    decide_tests.
  - pose proof (extractJson_delimited "[" "]" "{" body post
                  ltac:(discriminate) Hbracket Hbrace Hpost) as Hd.
    cbv zeta in Hd. destruct Hd as (H1 & H2 & H3 & H4).
    unfold extractJson. cbv zeta. rewrite H4, H1, H3.
    set (k := Text.indexOf "{" _) in *. clearbody k.
    set (n := Z.of_nat (String.length pre)) in *.
    set (m := Z.of_nat (String.length pre + 1 + String.length body)) in *.
    assert (0 <= n < m)%Z by lia. clearbody n m.
    decide_tests.
Qed.

(** X21. An opening brace that is never closed hides whatever follows it:
    when the first delimiter of the text is a brace and no closing brace
    comes after it, [extractJson] throws, also when a complete array
    follows. *)
Theorem extractJson_unclosed_brace (rest : string) :
  Text.lastIndexOf "}" rest = (-1)%Z ->
  extractJson JSON_parse (pre +:+ String "{" rest) = Throw NoJsonFound.
Proof.
  intros Hrest.
  assert (Text.indexOf "{" (pre +:+ String "{" rest) = Z.of_nat (String.length pre))
    as H1 by (by apply indexOf_app_found).
  assert (Text.indexOf "[" (pre +:+ String "{" rest) = (-1)%Z
          \/ (Z.of_nat (String.length pre)
              < Text.indexOf "[" (pre +:+ String "{" rest))%Z) as H2
    by (by apply indexOf_app_other).
  assert (Text.lastIndexOf "}" (pre +:+ String "{" rest)
          < Z.of_nat (String.length pre))%Z as H3.
  { rewrite lastIndexOf_app_absent; [apply lastIndexOf_range|].
    cbn [Text.lastIndexOf]. rewrite Hrest. done. }
  unfold extractJson. cbv zeta. rewrite H1.
  set (k := Text.indexOf "[" _) in *. clearbody k.
  set (e := Text.lastIndexOf "}" _) in *. clearbody e.
  set (n := Z.of_nat (String.length pre)) in *.
  assert (0 <= n)%Z by lia. clearbody n.
  decide_tests.
Qed.
End ExtractJson.

Lemma extractJson_drops_prose_witness :
  extractJson echo "Sure: {a} ok" = echo "{a}" /\
  extractJson echo "Sure: [a] ok" = echo "[a]".
Proof.
  destruct (extractJson_drops_prose echo "Sure: " eq_refl eq_refl "a" " ok")
    as [Hobject Harray].
  split; [exact (Hobject eq_refl)|exact (Harray eq_refl)].
Defined.

Lemma extractJson_unclosed_brace_witness :
  extractJson echo "{ see [1, 2]" = Throw NoJsonFound.
Proof.
  exact (extractJson_unclosed_brace echo "" eq_refl eq_refl " see [1, 2]" eq_refl).
Defined.

(** ** An [undefined] in the history *)

Lemma iteration_on_undefined env fuel dir index st w st' w' :
  None ∈ run_failedFeatures st ->
  iteration env fuel dir index st w = (Ok st', w') ->
  st' = st.
Proof.
  intros Hnone [->|(results & w1 & Hrun & _)]%iteration_cases; [done|].
  destruct (reflexionStep_Ok _ _ _ _ _ _ Hrun) as [t Ht].
  by destruct (completed_step_history _ _ _ _ _ Ht None Hnone).
Qed.

(** X22. Once the rejected-feature history holds an [undefined], no later
    step completes: each one throws before it returns, is caught, and the
    loop ends with the features, the videos and the history it had. *)
Theorem undefined_in_history_stops_the_run env fuel dir count index st w st' w' :
  None ∈ run_failedFeatures st ->
  reflexionLoop env fuel dir count index st w = (Ok st', w') ->
  st' = st.
Proof.
  intros Hnone. revert index w.
  induction count as [|count IH]; intros index w; cbn [reflexionLoop].
  - by intros [= <- _].
  - unfold mbind, M_bind, bind.
    destruct (iteration env fuel dir index st w) as [[st1| |] w1] eqn:Hit; [|done|done].
    apply (iteration_on_undefined _ _ _ _ _ _ _ _ Hnone) in Hit as ->. apply IH.
Qed.

Lemma undefined_in_history_stops_the_run_witness :
  exists w', reflexionLoop Demo.accepting 5 "d" 3 0 poisoned [] = (Ok poisoned, w').
Proof.
  assert (returned (fst (reflexionLoop Demo.accepting 5 "d" 3 0 poisoned [])) = true)
    as Hok by (vm_compute; reflexivity).
  destruct (reflexionLoop Demo.accepting 5 "d" 3 0 poisoned [])
    as [[st| |] w'] eqn:Hloop; [clear Hok|discriminate Hok|discriminate Hok].
  exists w'. f_equal. f_equal.
  apply (undefined_in_history_stops_the_run Demo.accepting 5 "d" 3 0 poisoned [] st w');
    [|exact Hloop].
  apply list_elem_of_here.
Defined.

(** ** What the scorer is asked *)




(** * The proposer's request and the scores of the store *)

(** ** Stepping through a run *)







(** ** The scores that reach the store *)

(** With distinct titles and a scorer that answers title by title, what
    the loop returns is the scorer's answer for every video, in order. *)
Lemma rankLoop_answers {V} `{Titled V} env (videos : list V) fs model answer :
  NoDup (map title_of videos) ->
  scorer_answers env model fs answer ->
  forall fuel k rankings failures w rs w',
    (k <= length videos)%nat ->
    rankings = map answer (map title_of (take k videos)) ->
    rankLoop env fuel videos fs model rankings failures w = (Ok rs, w') ->
    rs = map answer (map title_of videos).
Proof.
  intros Hnd [Htitle Hanswer].
  induction fuel as [|fuel IH]; intros k rankings failures w rs w' Hk Hrankings Hrun;
    [done|].
  assert (map r_title rankings = map title_of (take k videos)) as Htitles.
  { rewrite Hrankings, map_map. rewrite <- (map_id (map title_of (take k videos))) at 2.
    apply map_ext. intros t. apply Htitle. }
  assert (length rankings = k) as Hlen.
  { rewrite <- (length_map r_title), Htitles, length_map, length_take. lia. }
  cbn [rankLoop] in Hrun. rewrite Hlen in Hrun. revert Hrun.
  destruct (k <? length videos)%nat eqn:Hlt; cbn [negb].
  2:{ apply Nat.ltb_ge in Hlt. intros [= <- _].
      rewrite Hrankings, take_ge by lia. done. }
  apply Nat.ltb_lt in Hlt.
  rewrite (unranked_after_prefix videos rankings k Hnd Htitles).
  rewrite length_drop.
  replace (length videos - k =? 0)%nat with false by (symmetry; apply Nat.eqb_neq; lia).
  set (B := batchSizeOf fs model).
  pose proof (batchSizeOf_positive fs model) as HB. fold B in HB.
  rewrite slice_prefix.
  assert (Hvalid :
    List.filter (fun br => existsb (fun v => normalize_NFKC env (title_of v)
                                             =? normalize_NFKC env (r_title br))
                                   (take B (drop k videos)))
                (map answer (map title_of (take B (drop k videos))))
    = map answer (map title_of (take B (drop k videos)))).
  { apply filter_every. intros r Hr. apply existsb_exists.
    apply list_elem_of_fmap in Hr as (t & -> & Ht).
    apply list_elem_of_fmap in Ht as (v & -> & Hv). exists v.
    split; [by apply list_elem_of_In|]. rewrite Htitle. apply String.eqb_refl. }
  assert (Hnext : rankings ++ map answer (map title_of (take B (drop k videos)))
                  = map answer (map title_of
                                  (take (Nat.min (k + B) (length videos)) videos))).
  { rewrite Hrankings, <- !map_app, <- take_plus.
    destruct (decide (k + B <= length videos)%nat).
    - by rewrite Nat.min_l by lia.
    - rewrite Nat.min_r by lia. rewrite !take_ge by lia. done. }
  unfold mbind, M_bind, bind, mret, M_ret, ret, throw, askRankings.
  destruct (length videos - k <? B)%nat.
  - destruct (MAX_TRIES <=? failures)%nat; simpl; [by intros [=]|].
    rewrite Hanswer, Hvalid, Hnext.
    apply IH with (k := Nat.min (k + B) (length videos)); [lia|done].
  - simpl. rewrite Hanswer, Hvalid, Hnext.
    apply IH with (k := Nat.min (k + B) (length videos)); [lia|done].
Qed.

Lemma rankVideos_answers {V} `{Titled V} env fuel (videos : list V) fs model answer
    w rs w' :
  NoDup (map title_of videos) ->
  scorer_answers env model fs answer ->
  rankVideos env fuel videos fs model w = (Ok rs, w') ->
  rs = map answer (map title_of videos).
Proof.
  intros Hnd Hscorer. unfold rankVideos, mbind, M_bind, bind.
  destruct (rankLoop env fuel videos fs model [] 0 w) as [[rs1| |] w1] eqn:Hloop;
    [|done|done].
  destruct (writeFileSync env RankingsFile w1) as [[[]| |] w2]; [|done|done].
  intros [= <- _].
  by apply (rankLoop_answers env videos fs model answer Hnd Hscorer fuel 0 [] 0%nat
              w rs1 w1); [lia| |].
Qed.

Lemma find_answer (answer : string -> iRanking) (titles : list string) (t : string) :
  (forall t', r_title (answer t') = t') ->
  t ∈ titles ->
  List.find (fun r => r_title r =? t) (map answer titles) = Some (answer t).
Proof.
  intros Htitle. induction titles as [|t' titles IH]; intros Ht;
    [by apply elem_of_nil in Ht|].
  simpl. rewrite Htitle. destruct (String.eqb_spec t' t) as [->|Hne]; [done|].
  apply IH. apply elem_of_cons in Ht as [->|Ht]; done.
Qed.

Lemma scored_rescored (f : iFeature) (rankings : list iRanking) (v : iFeaturedVideo) :
  rescored f (score_in rankings f) v (scored f rankings v).
Proof.
  split; [done|]. unfold scored, score_in. simpl.
  by destruct (List.find _ rankings).
Qed.

Lemma score_in_answer (answer : string -> iRanking) (f : iFeature)
    (titles : list string) (t : string) :
  (forall t', r_title (answer t') = t') ->
  t ∈ titles ->
  score_in (map answer titles) f t = JS.or_zero (r_features (answer t) !! name f).
Proof.
  intros Htitle Ht. unfold score_in. by rewrite (find_answer answer titles t Htitle Ht).
Qed.

Lemma NoDup_titles_split (videos : list iFeaturedVideo) (k : nat) :
  NoDup (map title_of videos) ->
  NoDup (map title_of (take k videos)) /\ NoDup (map title_of (drop k videos)).
Proof.
  intros Hnd. rewrite <- (take_drop k videos), map_app in Hnd.
  by apply NoDup_app in Hnd as (? & _ & ?).
Qed.

Lemma rescored_answers (answer : string -> iRanking) (f : iFeature)
    (videos : list iFeaturedVideo) :
  (forall t, r_title (answer t) = t) ->
  Forall2 (rescored f (fun t => JS.or_zero (r_features (answer t) !! name f)))
          videos
          (map (scored f (map answer (map title_of videos))) videos).
Proof.
  intros Htitle. apply Forall2_fmap_r, Forall_Forall2_diag, Forall_forall.
  intros v Hv. unfold compose.
  destruct (scored_rescored f (map answer (map title_of videos)) v) as [Hvideo Hscores].
  split; [done|]. rewrite Hscores. f_equal.
  apply score_in_answer; [done|].
  change (title_of v ∈ title_of <$> videos). by apply list_elem_of_fmap_2.
Qed.

(** C10. When the step of an iteration returns, accepted or not, the
    video store is replaced by the training videos of the step followed by
    its validation videos, each one re-scored: it is the video it was, its
    other scores as they were, with, under the name of the proposed
    feature, the score held for its title by the rankings that [rankVideos]
    returned for its part (0 if they hold none). When titles tell the
    videos apart and the scorer answers title by title, that score is the
    one the scorer gives the title. After a rejection the active features
    are the old ones all the same, so the store carries the scores of a
    feature that is not active. *)
Theorem store_keeps_candidate_scores env fuel dir index st w results w' :
  reflexionStep env fuel (stepInput st dir index) w = (Ok results, w') ->
  exists st' newRankings validation_rankings newVideos validationVideos,
    iteration env fuel dir index st w = (Ok st', w') /\
    run_featuredVideos st' = newVideos ++ validationVideos /\
    (exists fuel1 w1 w2,
       rankVideos env fuel1 (trainingSplit env (stepInput st dir index) w)
         [newFeature results] None w1 = (Ok newRankings, w2)) /\
    (exists fuel2 w3 w4,
       rankVideos env fuel2 (validationSplit env (stepInput st dir index) w)
         [newFeature results] None w3 = (Ok validation_rankings, w4)) /\
    Forall2 (rescored (newFeature results) (score_in newRankings (newFeature results)))
            (trainingSplit env (stepInput st dir index) w) newVideos /\
    Forall2 (rescored (newFeature results)
               (score_in validation_rankings (newFeature results)))
            (validationSplit env (stepInput st dir index) w) validationVideos /\
    (improved results = false -> run_features st' = run_features st) /\
    (forall answer,
       scorer_answers env None [newFeature results] answer ->
       NoDup (map title_of (shuffledData env (stepInput st dir index) w)) ->
       Forall2 (rescored (newFeature results)
                  (fun t => JS.or_zero (r_features (answer t)
                                          !! name (newFeature results))))
               (shuffledData env (stepInput st dir index) w)
               (run_featuredVideos st')).
Proof.
  intros Hrun.
  destruct (reflexionStep_Ok _ _ _ _ _ _ Hrun) as [t Ht].
  pose proof (iteration_completed _ _ _ _ _ _ _ _ Hrun) as Hit.
  pose proof (fact_ranked _ _ _ _ _ Ht) as Hr1.
  pose proof (fact_validation_ranked _ _ _ _ _ Ht) as Hr2.
  exists (decide_step st results), (t_newRankings t), (t_validation_rankings t),
    (map (scored (newFeature results) (t_newRankings t))
         (trainingSplit env (stepInput st dir index) w)),
    (map (scored (newFeature results) (t_validation_rankings t))
         (validationSplit env (stepInput st dir index) w)).
  assert (run_featuredVideos (decide_step st results) = out_videos results) as ->.
  { unfold decide_step. by case_if. }
  rewrite (fact_videos _ _ _ _ _ Ht).
  split; [done|]. split; [done|]. split; [exact Hr1|]. split; [exact Hr2|].
  split; [|split; [|split]].
  - apply Forall2_fmap_r, Forall_Forall2_diag, Forall_forall.
    intros v _. apply scored_rescored.
  - apply Forall2_fmap_r, Forall_Forall2_diag, Forall_forall.
    intros v _. apply scored_rescored.
  - intros Hno. unfold decide_step. by rewrite Hno.
  - intros answer Hscorer Hnd.
    destruct Hr1 as (fuel1 & w1 & w2 & Hr1). destruct Hr2 as (fuel2 & w3 & w4 & Hr2).
    unfold trainingSplit, validationSplit in *.
    set (data := shuffledData env (stepInput st dir index) w) in *.
    set (k := JS.floor_080 (length data)) in *.
    destruct (NoDup_titles_split data k Hnd) as [Hnd1 Hnd2].
    apply (rankVideos_answers _ _ _ _ _ answer _ _ _ Hnd1 Hscorer) in Hr1.
    apply (rankVideos_answers _ _ _ _ _ answer _ _ _ Hnd2 Hscorer) in Hr2.
    rewrite Hr1, Hr2. destruct Hscorer as [Htitle _].
    rewrite <- (take_drop k data) at 1.
    apply Forall2_app; by apply rescored_answers.
Qed.

Lemma store_keeps_candidate_scores_witness :
  exists results w' st',
    reflexionStep Demo.overrating 5 (stepInput Demo.start "d" 0) [] = (Ok results, w') /\
    improved results = false /\
    iteration Demo.overrating 5 "d" 0 Demo.start [] = (Ok st', w') /\
    Forall2 (rescored (newFeature results)
               (fun t => JS.or_zero
                           (r_features
                              (Demo.answer_each Demo.high_for_last
                                 [newFeature results] t)
                            !! name (newFeature results))))
            (shuffledData Demo.overrating (stepInput Demo.start "d" 0) [])
            (run_featuredVideos st') /\
    run_features st' = run_features Demo.start.
Proof.
  assert (improved <$> fst (reflexionStep Demo.overrating 5
                              (stepInput Demo.start "d" 0) [])
          = Ok false) as Hrejected by (vm_compute; reflexivity).
  destruct (reflexionStep Demo.overrating 5 (stepInput Demo.start "d" 0) [])
    as [[results| |] w'] eqn:Hrun; [|discriminate Hrejected|discriminate Hrejected].
  injection Hrejected as Hrejected.
  destruct (store_keeps_candidate_scores Demo.overrating 5 "d" 0 Demo.start []
              results w' Hrun)
    as (st' & r1 & r2 & v1 & v2 & Hit & _ & _ & _ & _ & _ & Hkept & Hscores).
  exists results, w', st'. split; [reflexivity|]. split; [exact Hrejected|].
  split; [exact Hit|]. split; [|exact (Hkept Hrejected)].
  apply Hscores.
  - split; reflexivity.
  - apply (bool_decide_unpack _). vm_compute. reflexivity.
Defined.

(** The scores of the rejected proposal in the store of the witness: 3 for
    the first four videos, 5 for the last. *)
Example scores_of_a_rejected_proposal :
  (fun st => (map (fun v : iFeaturedVideo => (title v, features v !! "ba'"))
                  (run_featuredVideos st), map name (run_features st)))
    <$> fst (iteration Demo.overrating 5 "d" 0 Demo.start [])
  = Ok ([("v0", Some 3%Q); ("v1", Some 3%Q); ("v2", Some 3%Q); ("v3", Some 3%Q);
         ("v4", Some 5%Q)], ["a"; "b"]).
Proof. vm_compute. reflexivity. Qed.

(** ** The rows that are predicted *)

(** A step that has analysed the errors of its model has a validation
    video: the training part had a row, so the data had two, and a fifth of
    them at least is kept for validation. Hence [predict] is never given an
    empty matrix of validation rows. *)
Lemma validation_has_a_row env input w mlr X Y predictions :
  trainFeatureModel env (in_features input) (trainingSplit env input w)
  = Ok (mlr, X, Y) ->
  getWorstPredictions env (trainingSplit env input w) mlr X Y = Ok predictions ->
  validationSplit env input w <> [].
Proof.
  unfold trainFeatureModel.
  destruct (MLR_new env _ _) as [m| |]; cbn [mbind outcome_bind mret outcome_ret];
    [|done|done].
  intros [= -> <- <-]. unfold getWorstPredictions.
  lazymatch goal with
  | |- context [predict_rows _ _ ?m] => destruct m as [|row rest] eqn:Hrows
  end; [by cbn [predict_rows mbind outcome_bind]|].
  intros _ Hnone. apply (f_equal length) in Hrows, Hnone.
  rewrite length_map in Hrows. unfold trainingSplit, validationSplit in *.
  rewrite length_take in Hrows. rewrite length_drop in Hnone.
  unfold JS.floor_080 in *. cbn [length] in Hrows, Hnone.
  set (n := length (shuffledData env input w)) in *. clearbody n.
  assert (0 < n -> n * 4 / 5 < n)%nat; [|lia].
  intros Hn. apply Nat.Div0.div_lt_upper_bound. lia.
Qed.
